(** * Maze-Runner: the grid/edge model, the carving loop and the query facade

    A shallow embedding of [main.py].  Python integers are [Z]; the three
    boolean arrays of a maze are lists indexed the way Python indexes a
    list (negative indices count from the end, anything else out of range
    raises [IndexError]); an [assert] that fails raises [AssertionError].
    [random.shuffle] is an oracle handed to the carving loop. *)

From Stdlib Require Import ZArith Lia Bool Ascii.
From stdpp Require Import base list relations.

Local Open Scope Z_scope.

(** ** Exceptions and results *)

Inductive exn : Type :=
| AssertionError
| IndexError
| ValueError.

Inductive result (A : Type) : Type :=
| Ok (a : A)
| Raise (e : exn).

Arguments Ok {A} a.
Arguments Raise {A} e.

Definition bind {A B : Type} (r : result A) (k : A -> result B) : result B :=
  match r with
  | Ok a => k a
  | Raise e => Raise e
  end.

Notation "'do' x <- e ;; k" := (bind e (fun x => k))
  (at level 10, x name, e at level 99, k at level 200).
Notation "'do' ' p <- e ;; k" := (bind e (fun x => match x with p => k end))
  (at level 10, p pattern, e at level 99, k at level 200).

(** [assert c] *)
Definition py_assert (c : bool) : result unit :=
  if c then Ok tt else Raise AssertionError.

(** ** Python sequences *)

(** The position a Python index denotes in a sequence of length [len]. *)
Definition py_norm (len i : Z) : option nat :=
  if (0 <=? i) && (i <? len) then Some (Z.to_nat i)
  else if (- len <=? i) && (i <? 0) then Some (Z.to_nat (i + len))
  else None.

(** [l[i]] *)
Definition py_index {A : Type} (l : list A) (i : Z) : result A :=
  match py_norm (Z.of_nat (length l)) i with
  | Some n => match l !! n with Some x => Ok x | None => Raise IndexError end
  | None => Raise IndexError
  end.

(** [l[i] = x] *)
Definition py_setitem {A : Type} (l : list A) (i : Z) (x : A) : result (list A) :=
  match py_norm (Z.of_nat (length l)) i with
  | Some n => Ok (<[n := x]> l)
  | None => Raise IndexError
  end.

(** [range(n)] *)
Definition range (n : Z) : list Z := map Z.of_nat (seq 0 (Z.to_nat n)).

(** [for x in xs: s = body(x, s)], stopping at the first exception. *)
Fixpoint for_each {A St : Type} (xs : list A) (body : A -> St -> result St)
  (s : St) : result St :=
  match xs with
  | [] => Ok s
  | x :: xs' => do s' <- body x s ;; for_each xs' body s'
  end.

(** ** Directions and the maze object *)

Inductive Direction : Type := NORTH | SOUTH | EAST | WEST.

(** A cell, as the pair [(row, col)]. *)
Definition coord : Type := (Z * Z)%type.

Record Maze : Type := mkMaze {
  _n_rows : Z;
  _n_cols : Z;
  _start_pos : coord;
  _goal_pos : coord;
  _horizontal_edges : list bool;
  _vertical_edges : list bool;
  _visited : list bool
}.

Definition with_horizontal_edges (m : Maze) (h : list bool) : Maze :=
  mkMaze (_n_rows m) (_n_cols m) (_start_pos m) (_goal_pos m)
         h (_vertical_edges m) (_visited m).

Definition with_vertical_edges (m : Maze) (v : list bool) : Maze :=
  mkMaze (_n_rows m) (_n_cols m) (_start_pos m) (_goal_pos m)
         (_horizontal_edges m) v (_visited m).

Definition with_visited (m : Maze) (vis : list bool) : Maze :=
  mkMaze (_n_rows m) (_n_cols m) (_start_pos m) (_goal_pos m)
         (_horizontal_edges m) (_vertical_edges m) vis.

(** ** Edge and cell index arithmetic *)

Definition _get_north_edge_idx (m : Maze) (row col : Z) : result Z :=
  do _ <- py_assert ((row >? 0) && (row <? _n_rows m)) ;;
  do _ <- py_assert ((col >=? 0) && (col <? _n_cols m)) ;;
  Ok (_n_cols m * (row - 1) + col).

Definition _get_south_edge_idx (m : Maze) (row col : Z) : result Z :=
  do _ <- py_assert ((row >=? 0) && (row <? _n_rows m - 1)) ;;
  do _ <- py_assert ((col >=? 0) && (col <? _n_cols m)) ;;
  Ok (_n_cols m * row + col).

(** The row is compared with [_n_cols] here, as in the source. *)
Definition _get_east_edge_idx (m : Maze) (row col : Z) : result Z :=
  do _ <- py_assert ((row >=? 0) && (row <? _n_cols m)) ;;
  do _ <- py_assert ((col >=? 0) && (col <? _n_cols m - 1)) ;;
  Ok (_n_cols m * row - row + col).

Definition _get_west_edge_idx (m : Maze) (row col : Z) : result Z :=
  do _ <- py_assert ((row >=? 0) && (row <? _n_cols m)) ;;
  do _ <- py_assert ((col >? 0) && (col <? _n_cols m)) ;;
  Ok (_n_cols m * row - row + (col - 1)).

Definition _get_edge_idx (m : Maze) (row col : Z) (direction : Direction) : result Z :=
  match direction with
  | NORTH => _get_north_edge_idx m row col
  | SOUTH => _get_south_edge_idx m row col
  | EAST => _get_east_edge_idx m row col
  | WEST => _get_west_edge_idx m row col
  end.

Definition _get_edge_at (m : Maze) (row col : Z) (direction : Direction) : result bool :=
  do edge_idx <- _get_edge_idx m row col direction ;;
  match direction with
  | NORTH | SOUTH => py_index (_horizontal_edges m) edge_idx
  | EAST | WEST => py_index (_vertical_edges m) edge_idx
  end.

Definition _set_edge_at (m : Maze) (row col : Z) (direction : Direction) (val : bool)
  : result Maze :=
  do edge_idx <- _get_edge_idx m row col direction ;;
  match direction with
  | NORTH | SOUTH =>
      do h <- py_setitem (_horizontal_edges m) edge_idx val ;;
      Ok (with_horizontal_edges m h)
  | EAST | WEST =>
      do v <- py_setitem (_vertical_edges m) edge_idx val ;;
      Ok (with_vertical_edges m v)
  end.

Definition _get_cell_index (m : Maze) (row col : Z) : result Z :=
  do _ <- py_assert ((row >=? 0) && (row <? _n_rows m)) ;;
  do _ <- py_assert ((col >=? 0) && (col <? _n_cols m)) ;;
  Ok (row * _n_cols m + col).

Definition _get_cell_at (m : Maze) (row col : Z) (d : Direction) : result coord :=
  do _ <- py_assert ((row >=? 0) && (row <? _n_rows m)) ;;
  do _ <- py_assert ((col >=? 0) && (col <? _n_cols m)) ;;
  match d with
  | NORTH => Ok (row - 1, col)
  | SOUTH => Ok (row + 1, col)
  | EAST => Ok (row, col + 1)
  | WEST => Ok (row, col - 1)
  end.

(** Python's [%] and [//] are floored, as [Z.modulo] and [Z.div] are.  The
    divisor is [_n_rows], as in the source. *)
Definition _get_cell_coords (m : Maze) (cell_idx : Z) : result coord :=
  do _ <- py_assert ((cell_idx >=? 0) && (cell_idx <? _n_cols m * _n_rows m)) ;;
  let c_idx := cell_idx mod _n_rows m in
  let r_idx := cell_idx / _n_rows m in
  Ok (r_idx, c_idx).

(** One [if guard and not self._visited[...]: c += 1] of
    [_has_non_visited_neighbours]; the cell is looked up only under the
    guard. *)
Definition count_if_not_visited (m : Maze) (guard : bool) (row col c : Z)
  : result Z :=
  if guard then
    do i <- _get_cell_index m row col ;;
    do seen <- py_index (_visited m) i ;;
    Ok (if negb seen then c + 1 else c)
  else Ok c.

Definition _has_non_visited_neighbours (m : Maze) (row col : Z) : result Z :=
  let c := 0 in
  do c <- count_if_not_visited m (row >? 0) (row - 1) col c ;;
  do c <- count_if_not_visited m (row <? _n_rows m - 1) (row + 1) col c ;;
  do c <- count_if_not_visited m (col >? 0) row (col - 1) c ;;
  do c <- count_if_not_visited m (col <? _n_cols m - 1) row (col + 1) c ;;
  Ok c.

(** ** The carving engine *)

(** The body of [for d in directions], on the maze and the stack.  The
    stack [visiting_nodes] is only used through [append] and [pop(-1)]; it
    is kept with its top at the head. *)
Definition carve_dir (node : coord) (d : Direction) (st : Maze * list coord)
  : result (Maze * list coord) :=
  let '(m, visiting_nodes) := st in
  do next_node <- _get_cell_at m node.1 node.2 d ;;
  if (next_node.1 <? 0) || (next_node.1 >=? _n_rows m) then Ok st
  else if (next_node.2 <? 0) || (next_node.2 >=? _n_cols m) then Ok st
  else
    do next_node_idx <- _get_cell_index m next_node.1 next_node.2 ;;
    do seen <- py_index (_visited m) next_node_idx ;;
    if seen then Ok st
    else
      do m1 <- _set_edge_at m node.1 node.2 d true ;;
      do vis <- py_setitem (_visited m1) next_node_idx true ;;
      Ok (with_visited m1 vis, next_node :: visiting_nodes).

(** One iteration of [while len(visiting_nodes) > 0], on a stack whose top
    is [node]; [directions] is the shuffled [list(Direction)]. *)
Definition carve_iteration (directions : list Direction) (m : Maze)
  (node : coord) (rest : list coord) : result (Maze * list coord) :=
  do c <- _has_non_visited_neighbours m node.1 node.2 ;;
  let visiting_nodes := if c =? 0 then rest else node :: rest in
  for_each directions (carve_dir node) (m, visiting_nodes).

(** The [while] loop.  [shuffle k] is what the [k]-th call of
    [random.shuffle] leaves in [directions]; [None] means that the loop is
    still running when [fuel] iterations have been made. *)
Fixpoint carve_loop (shuffle : nat -> list Direction) (fuel k : nat)
  (m : Maze) (visiting_nodes : list coord) : option (result Maze) :=
  match visiting_nodes with
  | [] => Some (Ok m)
  | node :: rest =>
      match fuel with
      | O => None
      | S fuel' =>
          match carve_iteration (shuffle k) m node rest with
          | Ok (m', visiting_nodes') =>
              carve_loop shuffle fuel' (S k) m' visiting_nodes'
          | Raise e => Some (Raise e)
          end
      end
  end.

(** Iterations granted to the loop: twice the number of cells. *)
Definition carve_fuel (m : Maze) : nat := Z.to_nat (2 * (_n_rows m * _n_cols m)).

Definition _carve_path_iter (shuffle : nat -> list Direction) (m : Maze)
  (node : coord) : option (result Maze) :=
  match (do i <- _get_cell_index m node.1 node.2 ;;
         do vis <- py_setitem (_visited m) i true ;;
         Ok (with_visited m vis)) with
  | Ok m0 => carve_loop shuffle (carve_fuel m0) 0 m0 [node]
  | Raise e => Some (Raise e)
  end.

Definition _carve_paths (shuffle : nat -> list Direction) (m : Maze)
  : option (result Maze) :=
  _carve_path_iter shuffle m (_start_pos m).

(** The assignments of [__init__], before [_carve_paths] is called;
    [goal_pos = None] is the default argument. *)
Definition allocate (n_rows n_cols : Z) (start_pos : coord)
  (goal_pos : option coord) : Maze :=
  mkMaze n_rows n_cols start_pos
    (match goal_pos with
     | Some g => g
     | None => (n_rows - 1, n_cols - 1)
     end)
    (replicate (Z.to_nat ((n_rows - 1) * n_cols)) false)
    (replicate (Z.to_nat ((n_cols - 1) * n_rows)) false)
    (replicate (Z.to_nat (n_rows * n_cols)) false).

(** [Maze(n_rows, n_cols, start_pos, goal_pos)] *)
Definition __init__ (shuffle : nat -> list Direction) (n_rows n_cols : Z)
  (start_pos : coord) (goal_pos : option coord) : option (result Maze) :=
  _carve_paths shuffle (allocate n_rows n_cols start_pos goal_pos).

(** ** The query facade *)

Definition move (m : Maze) (p : coord) (d : Direction) : result (bool * coord) :=
  do e <- _get_edge_at m p.1 p.2 d ;;
  if negb e then Ok (false, p)
  else
    do next_cell <- _get_cell_at m p.1 p.2 d ;;
    Ok (true, next_cell).

(** *** Textual rendering *)

(** A Python [str], as its list of characters. *)
Definition str : Type := list ascii.

Definition newline : ascii := ascii_of_nat 10.

Definition coord_eqb (a b : coord) : bool := (a.1 =? b.1) && (a.2 =? b.2).

(** ["+" + "-" * (n_cols * 2 - 1) + "+"] *)
Definition repr_border (m : Maze) : str :=
  ["+"%char] ++ replicate (Z.to_nat (_n_cols m * 2 - 1)) "-"%char ++ ["+"%char].

(** Body of the loop over [e_idx] (the line of the top edges of a row). *)
Definition repr_edge_step (m : Maze) (edge_start_idx e_idx : Z) (ret : str)
  : result str :=
  do e <- py_index (_horizontal_edges m) (edge_start_idx + e_idx) ;;
  let ret := ret ++ [if e then " "%char else "-"%char] in
  Ok (if e_idx <? _n_cols m - 1 then ret ++ ["+"%char] else ret).

(** The character of a cell: the [if]/[elif]/[else] on [_start_pos] and
    [_goal_pos]. *)
Definition cell_marker (m : Maze) (cell : coord) : ascii :=
  if coord_eqb (_start_pos m) cell then "S"%char
  else if coord_eqb (_goal_pos m) cell then "G"%char
  else " "%char.

(** Body of the loop over [c_idx] (the line of the cells of a row). *)
Definition repr_cell_step (m : Maze) (r_idx edge_start_idx c_idx : Z) (ret : str)
  : result str :=
  do ret <- (if c_idx >? 0 then
               do e <- py_index (_vertical_edges m) (edge_start_idx + c_idx - 1) ;;
               Ok (ret ++ [if e then " "%char else "|"%char])
             else Ok ret) ;;
  Ok (ret ++ [cell_marker m (r_idx, c_idx)]).

(** Body of the loop over [r_idx]. *)
Definition repr_row (m : Maze) (r_idx : Z) (ret : str) : result str :=
  do ret <- (if r_idx >? 0 then
               let ret := ret ++ ["|"%char] in
               let edge_start_idx := _n_cols m * (r_idx - 1) in
               do ret <- for_each (range (_n_cols m))
                           (repr_edge_step m edge_start_idx) ret ;;
               Ok (ret ++ ["|"%char; newline])
             else Ok ret) ;;
  let ret := ret ++ ["|"%char] in
  let edge_start_idx := _n_cols m * r_idx - r_idx in
  do ret <- for_each (range (_n_cols m)) (repr_cell_step m r_idx edge_start_idx) ret ;;
  Ok (ret ++ ["|"%char; newline]).

Definition __repr__ (m : Maze) : result str :=
  let ret := [] in
  let ret := ret ++ repr_border m ++ [newline] in
  do ret <- for_each (range (_n_rows m)) (repr_row m) ret ;;
  Ok (ret ++ repr_border m).

(** *** Binary connectivity map *)

(** [np.zeros((rows, cols), dtype=np.int8)] *)
Definition np_zeros (rows cols : Z) : result (list (list Z)) :=
  if (rows <? 0) || (cols <? 0) then Raise ValueError
  else Ok (replicate (Z.to_nat rows) (replicate (Z.to_nat cols) 0)).

(** [a[i][j]] *)
Definition np_getitem2 (a : list (list Z)) (i j : Z) : result Z :=
  do row <- py_index a i ;;
  py_index row j.

(** [a[i][j] = x] *)
Definition np_setitem2 (a : list (list Z)) (i j x : Z) : result (list (list Z)) :=
  do row <- py_index a i ;;
  do row' <- py_setitem row j x ;;
  py_setitem a i row'.

(** Body of the loop over [c_idx] in a cell row. *)
Definition bmap_cell_step (m : Maze) (r r_idx edge_start_idx c_idx : Z)
  (ret : list (list Z)) : result (list (list Z)) :=
  do ret <- (if c_idx >? 0 then
               do e <- py_index (_vertical_edges m) (edge_start_idx + c_idx - 1) ;;
               np_setitem2 ret r (2 * c_idx - 1) (1 * Z.b2z e)
             else Ok ret) ;;
  np_setitem2 ret (2 * r_idx) (2 * c_idx) 1.

(** Body of the loop over [c_idx] in a row of horizontal edges. *)
Definition bmap_edge_step (m : Maze) (r r_idx c_idx : Z) (ret : list (list Z))
  : result (list (list Z)) :=
  let edge_start_idx := _n_cols m * (r_idx - 1) in
  do e <- py_index (_horizontal_edges m) (edge_start_idx + c_idx) ;;
  np_setitem2 ret r (2 * c_idx) (1 * Z.b2z e).

(** Body of the loop over [r]. *)
Definition bmap_row (m : Maze) (r : Z) (ret : list (list Z)) : result (list (list Z)) :=
  if r mod 2 =? 0 then
    let r_idx := r / 2 in
    let edge_start_idx := _n_cols m * r_idx - r_idx in
    for_each (range (_n_cols m)) (bmap_cell_step m r r_idx edge_start_idx) ret
  else
    let r_idx := (r + 1) / 2 in
    if r_idx >? 0 then
      for_each (range (_n_cols m)) (bmap_edge_step m r r_idx) ret
    else Ok ret.

Definition make_binary_map (m : Maze) : result (list (list Z)) :=
  let rows := _n_rows m + (_n_rows m - 1) in
  let cols := _n_cols m + (_n_cols m - 1) in
  do ret <- np_zeros rows cols ;;
  for_each (range rows) (bmap_row m) ret.

(** ** Well-formed mazes *)

(** The arrays have the sizes [__init__] gives them, for a grid with at
    least one cell. *)
Record wf (m : Maze) : Prop := mk_wf {
  wf_rows : 1 <= _n_rows m;
  wf_cols : 1 <= _n_cols m;
  wf_horizontal :
    Z.of_nat (length (_horizontal_edges m)) = (_n_rows m - 1) * _n_cols m;
  wf_vertical :
    Z.of_nat (length (_vertical_edges m)) = (_n_cols m - 1) * _n_rows m;
  wf_visited : Z.of_nat (length (_visited m)) = _n_rows m * _n_cols m
}.

Definition in_grid (m : Maze) (p : coord) : Prop :=
  0 <= p.1 < _n_rows m /\ 0 <= p.2 < _n_cols m.

(** The direction [d] leaves the grid from [p]. *)
Definition outward (m : Maze) (p : coord) (d : Direction) : Prop :=
  match d with
  | NORTH => p.1 = 0
  | SOUTH => p.1 = _n_rows m - 1
  | EAST => p.2 = _n_cols m - 1
  | WEST => p.2 = 0
  end.

(** The coordinate arithmetic of [_get_cell_at]. *)
Definition neighbor_cell (p : coord) (d : Direction) : coord :=
  match d with
  | NORTH => (p.1 - 1, p.2)
  | SOUTH => (p.1 + 1, p.2)
  | EAST => (p.1, p.2 + 1)
  | WEST => (p.1, p.2 - 1)
  end.

Inductive edge_array : Type := Horizontal | Vertical.

#[global] Instance edge_array_eq_dec : EqDecision edge_array.
Proof. solve_decision. Defined.

#[global] Instance Direction_eq_dec : EqDecision Direction.
Proof. solve_decision. Defined.

Definition edge_array_of (d : Direction) : edge_array :=
  match d with
  | NORTH | SOUTH => Horizontal
  | EAST | WEST => Vertical
  end.

(** A physical edge, named by its array and by its north (horizontal array)
    or west (vertical array) end. *)
Definition physical_edge (p : coord) (d : Direction) : edge_array * coord :=
  match d with
  | NORTH => (Horizontal, (p.1 - 1, p.2))
  | SOUTH => (Horizontal, p)
  | EAST => (Vertical, p)
  | WEST => (Vertical, (p.1, p.2 - 1))
  end.

Definition edge_array_length (m : Maze) (a : edge_array) : Z :=
  match a with
  | Horizontal => (_n_rows m - 1) * _n_cols m
  | Vertical => (_n_cols m - 1) * _n_rows m
  end.

(** ** Passages, visits and reachability *)

Definition edge_list (m : Maze) (a : edge_array) : list bool :=
  match a with
  | Horizontal => _horizontal_edges m
  | Vertical => _vertical_edges m
  end.

(** The index of a physical edge in its array. *)
Definition canon_idx (m : Maze) (e : edge_array * coord) : Z :=
  match e.1 with
  | Horizontal => _n_cols m * e.2.1 + e.2.2
  | Vertical => _n_cols m * e.2.1 - e.2.1 + e.2.2
  end.

(** The south or east end of a physical edge. *)
Definition far_end (e : edge_array * coord) : coord :=
  match e.1 with
  | Horizontal => (e.2.1 + 1, e.2.2)
  | Vertical => (e.2.1, e.2.2 + 1)
  end.

Definition edge_in_grid (m : Maze) (e : edge_array * coord) : Prop :=
  in_grid m e.2 /\ in_grid m (far_end e).

Fixpoint count_true (l : list bool) : nat :=
  match l with
  | [] => 0
  | b :: l' => (if b then 1 else 0) + count_true l'
  end.

(** The number of [True] entries of the two edge arrays together. *)
Definition passages (m : Maze) : nat :=
  count_true (_horizontal_edges m) + count_true (_vertical_edges m).

Definition cell_nat (m : Maze) (p : coord) : nat :=
  Z.to_nat (p.1 * _n_cols m + p.2).

Definition visited_at (m : Maze) (p : coord) : Prop :=
  _visited m !! cell_nat m p = Some true.

(** One successful [move]. *)
Definition passage_step (m : Maze) (p q : coord) : Prop :=
  exists d, move m p d = Ok (true, q).

(** [q] can be reached from [p] by moving across passages only. *)
Definition reachable (m : Maze) (p q : coord) : Prop := rtc (passage_step m) p q.

(** What one carving step of [carve_dir] does to the maze. *)
Record carved (m : Maze) (node : coord) (d : Direction) (m' : Maze) : Prop :=
  mk_carved {
  cv_rows : _n_rows m' = _n_rows m;
  cv_cols : _n_cols m' = _n_cols m;
  cv_start : _start_pos m' = _start_pos m;
  cv_goal : _goal_pos m' = _goal_pos m;
  cv_node : in_grid m node;
  cv_next : in_grid m (neighbor_cell node d);
  cv_unvisited : _visited m !! cell_nat m (neighbor_cell node d) = Some false;
  cv_visited :
    _visited m' = <[cell_nat m (neighbor_cell node d) := true]> (_visited m);
  cv_idx :
    _get_edge_idx m node.1 node.2 d = Ok (canon_idx m (physical_edge node d));
  cv_in_range :
    (Z.to_nat (canon_idx m (physical_edge node d))
     < length (edge_list m (edge_array_of d)))%nat;
  cv_edge :
    edge_list m' (edge_array_of d)
    = <[Z.to_nat (canon_idx m (physical_edge node d)) := true]>
        (edge_list m (edge_array_of d));
  cv_other : forall a, a <> edge_array_of d -> edge_list m' a = edge_list m a
}.

(** The invariant of the carving loop, on the maze and the stack. *)
Record carve_inv (m : Maze) (stack : list coord) : Prop := mk_carve_inv {
  inv_wf : wf m;
  inv_start : in_grid m (_start_pos m) /\ visited_at m (_start_pos m);
  inv_stack : forall p, p ∈ stack -> in_grid m p /\ visited_at m p;
  inv_count : (passages m + 1 = count_true (_visited m))%nat;
  inv_edges : forall e, edge_in_grid m e ->
    edge_list m e.1 !! Z.to_nat (canon_idx m e) = Some true ->
    visited_at m e.2 /\ visited_at m (far_end e);
  inv_reach : forall p, in_grid m p -> visited_at m p ->
    reachable m (_start_pos m) p;
  inv_closed : forall p, in_grid m p -> visited_at m p ->
    p ∈ stack \/
    forall d, in_grid m (neighbor_cell p d) -> visited_at m (neighbor_cell p d)
}.

(** The measure of the loop: two for each cell not visited yet, and one
    for each cell on the stack. *)
Definition potential (m : Maze) (stack : list coord) : nat :=
  2 * (length (_visited m) - count_true (_visited m)) + length stack.

(** ** The text of a rendering *)

(** [s.count(c)] for a character [c]. *)
Fixpoint str_count (c : ascii) (s : str) : nat :=
  match s with
  | [] => 0
  | x :: s' => (if Ascii.eqb x c then 1 else 0) + str_count c s'
  end.

(** What one pass of the loop over [e_idx] appends. *)
Definition edge_text (m : Maze) (r e : Z) : str :=
  [if default false (_horizontal_edges m !! Z.to_nat (_n_cols m * (r - 1) + e))
   then " "%char else "-"%char]
  ++ (if e <? _n_cols m - 1 then ["+"%char] else []).

(** What one pass of the loop over [c_idx] appends. *)
Definition cell_text (m : Maze) (r c : Z) : str :=
  (if c >? 0 then
     [if default false
           (_vertical_edges m !! Z.to_nat (_n_cols m * r - r + c - 1))
      then " "%char else "|"%char]
   else [])
  ++ [cell_marker m (r, c)].

(** What one pass of the loop over [r_idx] appends. *)
Definition row_text (m : Maze) (r : Z) : str :=
  (if r >? 0 then
     ["|"%char] ++ concat (map (edge_text m r) (range (_n_cols m)))
     ++ ["|"%char; newline]
   else [])
  ++ ["|"%char] ++ concat (map (cell_text m r) (range (_n_cols m)))
  ++ ["|"%char; newline].

Definition repr_text (m : Maze) : str :=
  repr_border m ++ [newline]
  ++ concat (map (row_text m) (range (_n_rows m))) ++ repr_border m.

(** The number of characters of a line of the rendering, newline
    included. *)
Definition line_width (m : Maze) : Z := 2 * _n_cols m + 2.

(** Where the character of a cell stands in the rendering. *)
Definition marker_offset (m : Maze) (cell : coord) : nat :=
  Z.to_nat ((2 * cell.1 + 1) * line_width m + 2 * cell.2 + 1).

(** ** The content of a connectivity map *)

(** An array of [R] rows of [C] entries each. *)
Definition shape (a : list (list Z)) (R C : Z) : Prop :=
  Z.of_nat (length a) = R /\
  forall i row, a !! i = Some row -> Z.of_nat (length row) = C.

Definition bmap_rows (m : Maze) : Z := _n_rows m + (_n_rows m - 1).
Definition bmap_cols (m : Maze) : Z := _n_cols m + (_n_cols m - 1).

(** The entry of the map at row [i], column [j]: a cell centre, a vertical
    edge, a horizontal edge or a corner. *)
Definition bmap_entry (m : Maze) (i j : Z) : Z :=
  if i mod 2 =? 0 then
    if j mod 2 =? 0 then 1
    else Z.b2z (default false
                  (_vertical_edges m
                     !! Z.to_nat (_n_cols m * (i / 2) - i / 2 + (j + 1) / 2 - 1)))
  else
    if j mod 2 =? 0 then
      Z.b2z (default false
               (_horizontal_edges m
                  !! Z.to_nat (_n_cols m * ((i + 1) / 2 - 1) + j / 2)))
    else 0.

(** The array while [make_binary_map] runs: the rows above [k] hold their
    entries, and so do the columns before [w] of the row [k]; all other
    entries are still 0. *)
Definition filled (m : Maze) (k w : Z) (ret : list (list Z)) : Prop :=
  shape ret (bmap_rows m) (bmap_cols m) /\
  forall i j, 0 <= i < bmap_rows m -> 0 <= j < bmap_cols m ->
    np_getitem2 ret i j
    = Ok (if (i <? k) || ((i =? k) && (j <? w)) then bmap_entry m i j else 0).

(** ** Shuffle generators *)

(** A generator whose every shuffle leaves the same order. *)
Definition const_shuffle (ds : list Direction) : nat -> list Direction := fun _ => ds.

Definition shuffle_south_first : nat -> list Direction :=
  const_shuffle [SOUTH; EAST; NORTH; WEST].

(** East first in the first shuffle, south first in all later ones. *)
Definition shuffle_east_then_south (k : nat) : list Direction :=
  match k with
  | O => [EAST; SOUTH; NORTH; WEST]
  | S _ => [SOUTH; EAST; NORTH; WEST]
  end.

(** What [random.shuffle] guarantees of [list(Direction)]. *)
Definition fair (shuffle : nat -> list Direction) : Prop :=
  forall k, shuffle k ≡ₚ [NORTH; SOUTH; EAST; WEST].
(** ** Further vocabulary *)

(** The direction that undoes [d]. *)
Definition opposite (d : Direction) : Direction :=
  match d with
  | NORTH => SOUTH
  | SOUTH => NORTH
  | EAST => WEST
  | WEST => EAST
  end.

Definition in_gridb (m : Maze) (p : coord) : bool :=
  ((0 <=? p.1) && (p.1 <? _n_rows m)) && ((0 <=? p.2) && (p.2 <? _n_cols m)).

(** The visited flag of a cell of the grid. *)
Definition visitedb (m : Maze) (p : coord) : bool :=
  default false (_visited m !! cell_nat m p).

(** The neighbours that [_has_non_visited_neighbours] counts: those in
    the grid whose visited flag is not set. *)
Definition open_neighbour (m : Maze) (p : coord) (d : Direction) : bool :=
  in_gridb m (neighbor_cell p d) && negb (visitedb m (neighbor_cell p d)).

(** ** The recursive carving engine *)

(** Sequencing for code whose calls may also exceed the recursion depth
    ([None]). *)
Definition deep_bind {A B : Type} (x : option (result A))
  (k : A -> option (result B)) : option (result B) :=
  match x with
  | Some (Ok a) => k a
  | Some (Raise e) => Some (Raise e)
  | None => None
  end.

(** [for x in xs: s = body(x, s)] for such code. *)
Fixpoint for_each_deep {A St : Type} (xs : list A)
  (body : A -> St -> option (result St)) (s : St) : option (result St) :=
  match xs with
  | [] => Some (Ok s)
  | x :: xs' => deep_bind (body x s) (for_each_deep xs' body)
  end.

(** The body of [for d in directions] of [_carve_path_recur]; [recur] is
    the recursive call.  The state is the maze with the number of shuffles
    made so far. *)
Definition recur_dir (recur : coord -> Maze * nat -> option (result (Maze * nat)))
  (node : coord) (d : Direction) (st : Maze * nat)
  : option (result (Maze * nat)) :=
  let '(m, k) := st in
  deep_bind (Some (_get_cell_at m node.1 node.2 d)) (fun next_node =>
  if (next_node.1 <? 0) || (next_node.1 >=? _n_rows m) then Some (Ok st)
  else if (next_node.2 <? 0) || (next_node.2 >=? _n_cols m) then Some (Ok st)
  else
    deep_bind (Some (do next_node_idx <-
                       _get_cell_index m next_node.1 next_node.2 ;;
                     py_index (_visited m) next_node_idx)) (fun seen =>
    if seen : bool then Some (Ok st)
    else
      deep_bind (Some (_set_edge_at m node.1 node.2 d true)) (fun m1 =>
      recur next_node (m1, k)))).

(** [_carve_path_recur].  [depth] is the number of nested calls that
    Python still allows; [None] stands for the [RecursionError] of a call
    beyond that depth.  [shuffle k] is what the [k]-th call of
    [random.shuffle] leaves in [directions]. *)
Fixpoint _carve_path_recur (shuffle : nat -> list Direction) (depth : nat)
  (node : coord) (st : Maze * nat) : option (result (Maze * nat)) :=
  match depth with
  | O => None
  | S depth' =>
      let '(m, k) := st in
      deep_bind (Some (do node_idx <- _get_cell_index m node.1 node.2 ;;
                       do vis <- py_setitem (_visited m) node_idx true ;;
                       Ok (with_visited m vis))) (fun m1 =>
      for_each_deep (shuffle k)
        (recur_dir (_carve_path_recur shuffle depth') node) (m1, S k))
  end.

(** Two states of one maze: the same grid, start and goal. *)
Definition same_grid (m m' : Maze) : Prop :=
  _n_rows m' = _n_rows m /\ _n_cols m' = _n_cols m /\
  _start_pos m' = _start_pos m /\ _goal_pos m' = _goal_pos m.

(** * Properties *)

(** ** Results and Python indexing *)

Lemma bind_ok_inv {A B : Type} (r : result A) (k : A -> result B) (b : B) :
  bind r k = Ok b -> exists a, r = Ok a /\ k a = Ok b.
Proof. destruct r as [a|e]; simpl; [eauto | discriminate]. Qed.

Lemma py_assert_ok (c : bool) (u : unit) : py_assert c = Ok u -> c = true.
Proof. destruct c; [reflexivity | discriminate]. Qed.

Lemma py_assert_true (c : bool) : c = true -> py_assert c = Ok tt.
Proof. intros ->; reflexivity. Qed.

Lemma py_assert_false (c : bool) : c = false -> py_assert c = Raise AssertionError.
Proof. intros ->; reflexivity. Qed.

(** Takes a hypothesis [e = Ok _] apart along the binds and assertions of [e]. *)
Ltac inv_ok H :=
  let a := fresh "a" in
  let Ha := fresh "Hok" in
  lazymatch type of H with
  | bind _ _ = Ok _ =>
      apply bind_ok_inv in H; destruct H as (a & Ha & H); inv_ok Ha; inv_ok H
  | py_assert _ = Ok _ => apply py_assert_ok in H
  | Ok _ = Ok _ => injection H as H
  | _ => idtac
  end.

Lemma py_norm_nonneg (len i : Z) (n : nat) :
  0 <= i -> py_norm len i = Some n -> n = Z.to_nat i /\ i < len.
Proof.
  unfold py_norm; intros Hi H.
  destruct ((0 <=? i) && (i <? len)) eqn:E1.
  - injection H as <-; lia.
  - destruct ((- len <=? i) && (i <? 0)) eqn:E2; [lia | discriminate].
Qed.

Lemma py_norm_in_range (len i : Z) :
  0 <= i < len -> py_norm len i = Some (Z.to_nat i).
Proof.
  unfold py_norm; intros Hi.
  destruct ((0 <=? i) && (i <? len)) eqn:E1; [reflexivity | lia].
Qed.

Section PySeq.
Context {A : Type}.
Implicit Types (l : list A) (i : Z) (x : A).

Lemma py_index_ok l i x :
  0 <= i -> py_index l i = Ok x -> l !! Z.to_nat i = Some x.
Proof.
  unfold py_index; intros Hi H.
  destruct (py_norm _ i) as [n|] eqn:E; [|discriminate].
  apply py_norm_nonneg in E as [-> _]; [|assumption].
  destruct (l !! Z.to_nat i); [congruence | discriminate].
Qed.

Lemma py_index_lookup l i x :
  0 <= i -> l !! Z.to_nat i = Some x -> py_index l i = Ok x.
Proof.
  intros Hi H. unfold py_index.
  pose proof (lookup_lt_Some _ _ _ H) as Hlt.
  rewrite py_norm_in_range by lia. by rewrite H.
Qed.

Lemma py_index_in_range l i :
  0 <= i < Z.of_nat (length l) -> exists x, py_index l i = Ok x.
Proof.
  intros Hi.
  destruct (lookup_lt_is_Some_2 l (Z.to_nat i)) as [x Hx]; [lia|].
  exists x. apply py_index_lookup; [lia | assumption].
Qed.

Lemma py_index_beyond l i :
  Z.of_nat (length l) <= i -> py_index l i = Raise IndexError.
Proof.
  intros Hi. unfold py_index, py_norm.
  destruct ((0 <=? i) && (i <? _)) eqn:E1; [lia|].
  destruct ((- _ <=? i) && (i <? 0)) eqn:E2; [lia | reflexivity].
Qed.

Lemma py_setitem_ok l i x l' :
  0 <= i -> py_setitem l i x = Ok l' ->
  l' = <[Z.to_nat i := x]> l /\ i < Z.of_nat (length l).
Proof.
  unfold py_setitem; intros Hi H.
  destruct (py_norm _ i) as [n|] eqn:E; [|discriminate].
  apply py_norm_nonneg in E as [-> ?]; [|assumption].
  split; [congruence | assumption].
Qed.

Lemma py_setitem_in_range l i x :
  0 <= i < Z.of_nat (length l) ->
  py_setitem l i x = Ok (<[Z.to_nat i := x]> l).
Proof.
  intros Hi. unfold py_setitem. by rewrite py_norm_in_range.
Qed.
End PySeq.

Lemma _get_cell_at_in_grid (m : Maze) (p : coord) (d : Direction) :
  in_grid m p -> _get_cell_at m p.1 p.2 d = Ok (neighbor_cell p d).
Proof.
  intros [Hr Hc]. unfold _get_cell_at.
  rewrite !py_assert_true by lia. by destruct d.
Qed.

Lemma _get_cell_at_ok (m : Maze) (r c : Z) (d : Direction) (q : coord) :
  _get_cell_at m r c d = Ok q -> in_grid m (r, c) /\ q = neighbor_cell (r, c) d.
Proof.
  unfold _get_cell_at; intros H. inv_ok H.
  split; [unfold in_grid; simpl; lia|].
  destruct d; injection H as <-; reflexivity.
Qed.

Lemma _get_cell_index_in_grid (m : Maze) (p : coord) :
  in_grid m p -> _get_cell_index m p.1 p.2 = Ok (p.1 * _n_cols m + p.2).
Proof.
  intros [Hr Hc]. unfold _get_cell_index. by rewrite !py_assert_true by lia.
Qed.

Lemma _get_cell_index_ok (m : Maze) (r c i : Z) :
  _get_cell_index m r c = Ok i -> in_grid m (r, c) /\ i = r * _n_cols m + c.
Proof.
  unfold _get_cell_index; intros H. inv_ok H.
  split; [unfold in_grid; simpl; lia | congruence].
Qed.

(** ** Cell indices *)

Lemma mul_add_inj (n a b a' b' : Z) :
  0 <= b < n -> 0 <= b' < n -> n * a + b = n * a' + b' -> a = a' /\ b = b'.
Proof.
  intros Hb Hb' H.
  assert (a = a') as -> by nia.
  split; [reflexivity | lia].
Qed.

Lemma _get_cell_index_range (m : Maze) (r c i : Z) :
  _get_cell_index m r c = Ok i -> 0 <= i < _n_rows m * _n_cols m.
Proof.
  intros H. apply _get_cell_index_ok in H as [[Hr Hc] ->]. simpl in *. nia.
Qed.

Lemma _get_cell_index_inj (m : Maze) (r c r' c' i : Z) :
  _get_cell_index m r c = Ok i -> _get_cell_index m r' c' = Ok i ->
  r = r' /\ c = c'.
Proof.
  intros H H'.
  apply _get_cell_index_ok in H as [[Hr Hc] ->].
  apply _get_cell_index_ok in H' as [[Hr' Hc'] H']. simpl in *.
  apply (mul_add_inj (_n_cols m)); lia.
Qed.

(** On a square grid [_get_cell_coords] inverts [_get_cell_index]. *)
Lemma _get_cell_coords_square (m : Maze) (r c i : Z) :
  _n_rows m = _n_cols m ->
  _get_cell_index m r c = Ok i -> _get_cell_coords m i = Ok (r, c).
Proof.
  intros Hsq H. pose proof (_get_cell_index_range _ _ _ _ H) as Hi.
  apply _get_cell_index_ok in H as [[Hr Hc] ->]. simpl in *.
  unfold _get_cell_coords. rewrite py_assert_true by lia. simpl.
  rewrite Hsq. f_equal. f_equal.
  - rewrite Z.div_add_l by lia. rewrite Z.div_small by lia. lia.
  - rewrite Z.add_comm, Z.mod_add by lia. apply Z.mod_small; lia.
Qed.

(** C7 (failing input): on a constructed 2x3 maze the cell (0, 2) has flat
    index 2, and [_get_cell_coords] sends 2 to (1, 0): it divides by
    [_n_rows] where the index was built with [_n_cols]. *)
Theorem cell_coords_roundtrip_2x3 :
  exists m, __init__ shuffle_south_first 2 3 (0, 0) None = Some (Ok m) /\
    in_grid m (0, 2) /\
    _get_cell_index m 0 2 = Ok 2 /\
    _get_cell_coords m 2 = Ok (1, 0).
Proof.
  eexists. split; [vm_compute; reflexivity|].
  repeat split; simpl; lia.
Qed.

(** ** Edge indices *)

Lemma _get_edge_idx_ok (m : Maze) (r c i : Z) (d : Direction) :
  _get_edge_idx m r c d = Ok i ->
  match d with
  | NORTH => (0 < r < _n_rows m /\ 0 <= c < _n_cols m) /\ i = _n_cols m * (r - 1) + c
  | SOUTH => (0 <= r < _n_rows m - 1 /\ 0 <= c < _n_cols m) /\ i = _n_cols m * r + c
  | EAST => (0 <= r < _n_cols m /\ 0 <= c < _n_cols m - 1) /\ i = _n_cols m * r - r + c
  | WEST => (0 <= r < _n_cols m /\ 0 < c < _n_cols m) /\ i = _n_cols m * r - r + (c - 1)
  end.
Proof.
  destruct d; simpl;
    unfold _get_north_edge_idx, _get_south_edge_idx, _get_east_edge_idx,
      _get_west_edge_idx; intros H; inv_ok H; (split; [lia | congruence]).
Qed.

Lemma edge_idx_north_south (m : Maze) (row col : Z) :
  1 <= row < _n_rows m -> 0 <= col < _n_cols m ->
  _get_edge_idx m (row - 1) col SOUTH = Ok (_n_cols m * (row - 1) + col) /\
  _get_edge_idx m row col NORTH = Ok (_n_cols m * (row - 1) + col).
Proof.
  intros Hr Hc. simpl. unfold _get_south_edge_idx, _get_north_edge_idx.
  by rewrite !py_assert_true by lia.
Qed.

(** The two ends of a vertical edge agree on its index in the rows below
    [_n_cols]; in the other rows neither end has an index. *)
Lemma edge_idx_east_west (m : Maze) (row col : Z) :
  0 <= row < _n_rows m -> 1 <= col < _n_cols m ->
  if row <? _n_cols m then
    _get_edge_idx m row (col - 1) EAST = Ok (_n_cols m * row - row + (col - 1)) /\
    _get_edge_idx m row col WEST = Ok (_n_cols m * row - row + (col - 1))
  else
    _get_edge_idx m row (col - 1) EAST = Raise AssertionError /\
    _get_edge_idx m row col WEST = Raise AssertionError.
Proof.
  intros Hr Hc. destruct (Z.ltb_spec row (_n_cols m)) as [E|E];
    simpl; unfold _get_east_edge_idx, _get_west_edge_idx.
  - by rewrite !py_assert_true by lia.
  - by rewrite !(py_assert_false (_ && (row <? _))) by lia.
Qed.

Lemma edge_idx_in_range (m : Maze) (r c i : Z) (d : Direction) :
  in_grid m (r, c) -> _get_edge_idx m r c d = Ok i ->
  0 <= i < edge_array_length m (edge_array_of d).
Proof.
  intros [Hr Hc] H. apply _get_edge_idx_ok in H. simpl in *.
  destruct d; destruct H as [[H1 H2] ->]; simpl; nia.
Qed.

Lemma edge_idx_inj (m : Maze) (r c r' c' i : Z) (d d' : Direction) :
  _get_edge_idx m r c d = Ok i -> _get_edge_idx m r' c' d' = Ok i ->
  edge_array_of d = edge_array_of d' ->
  physical_edge (r, c) d = physical_edge (r', c') d'.
Proof.
  intros H H' Harr.
  apply _get_edge_idx_ok in H. apply _get_edge_idx_ok in H'.
  destruct d, d'; try discriminate Harr; simpl;
    destruct H as [[H1 H2] ->], H' as [[H1' H2'] H']; f_equal.
  all: first
    [ destruct (mul_add_inj (_n_cols m) (r - 1) c (r' - 1) c') as [? ?]; [lia..|]
    | destruct (mul_add_inj (_n_cols m) (r - 1) c r' c') as [? ?]; [lia..|]
    | destruct (mul_add_inj (_n_cols m) r c (r' - 1) c') as [? ?]; [lia..|]
    | destruct (mul_add_inj (_n_cols m) r c r' c') as [? ?]; [lia..|]
    | destruct (mul_add_inj (_n_cols m - 1) r c r' c') as [? ?]; [lia..|]
    | destruct (mul_add_inj (_n_cols m - 1) r c r' (c' - 1)) as [? ?]; [lia..|]
    | destruct (mul_add_inj (_n_cols m - 1) r (c - 1) r' c') as [? ?]; [lia..|]
    | destruct (mul_add_inj (_n_cols m - 1) r (c - 1) r' (c' - 1)) as [? ?]; [lia..|] ];
    f_equal; lia.
Qed.

(** C8 (failing input): on a constructed 3x2 maze the edge between the
    cells (2, 0) and (2, 1) has no index from either end: the row
    assertion compares the row with [_n_cols]. *)
Theorem edge_idx_3x2_row_2 :
  exists m, __init__ shuffle_east_then_south 3 2 (0, 0) None = Some (Ok m) /\
    in_grid m (2, 0) /\ in_grid m (2, 1) /\
    _get_edge_idx m 2 0 EAST = Raise AssertionError /\
    _get_edge_idx m 2 1 WEST = Raise AssertionError.
Proof.
  eexists. split; [vm_compute; reflexivity|].
  repeat split; simpl; lia.
Qed.

(** ** Moving *)

Lemma _get_edge_idx_outward (m : Maze) (p : coord) (d : Direction) :
  outward m p d -> _get_edge_idx m p.1 p.2 d = Raise AssertionError.
Proof.
  destruct d; simpl; intros H;
    unfold _get_north_edge_idx, _get_south_edge_idx, _get_east_edge_idx,
      _get_west_edge_idx.
  - by rewrite py_assert_false by lia.
  - by rewrite py_assert_false by lia.
  - destruct (py_assert (_ && (p.1 <? _))) as [[]|e] eqn:E; simpl.
    + by rewrite py_assert_false by lia.
    + unfold py_assert in E. destruct (_ && _) in E; congruence.
  - destruct (py_assert (_ && (p.1 <? _))) as [[]|e] eqn:E; simpl.
    + by rewrite py_assert_false by lia.
    + unfold py_assert in E. destruct (_ && _) in E; congruence.
Qed.

Lemma _get_edge_at_outward (m : Maze) (p : coord) (d : Direction) :
  outward m p d -> _get_edge_at m p.1 p.2 d = Raise AssertionError.
Proof.
  intros H. unfold _get_edge_at. by rewrite _get_edge_idx_outward.
Qed.

Lemma move_of_edge (m : Maze) (p : coord) (d : Direction) (b : bool) :
  in_grid m p -> _get_edge_at m p.1 p.2 d = Ok b ->
  move m p d = Ok (b, if b then neighbor_cell p d else p).
Proof.
  intros Hp H. unfold move. rewrite H. simpl.
  destruct b; simpl; [|reflexivity].
  by rewrite _get_cell_at_in_grid.
Qed.

Lemma move_of_raise (m : Maze) (p : coord) (d : Direction) (e : exn) :
  _get_edge_at m p.1 p.2 d = Raise e -> move m p d = Raise e.
Proof. intros H. unfold move. by rewrite H. Qed.

(** C1 (as amended): when [d] points out of the grid from [pos], [move]
    does not return [(False, pos)]; the bounds assertion of the edge-index
    computation fails and [move] raises [AssertionError]. *)
Theorem move_outward_raises (m : Maze) (p : coord) (d : Direction) :
  in_grid m p -> outward m p d -> move m p d = Raise AssertionError.
Proof.
  intros _ H. apply move_of_raise. by apply _get_edge_at_outward.
Qed.

Lemma move_outward_raises_witness :
  exists m, __init__ shuffle_south_first 2 2 (0, 0) None = Some (Ok m) /\
    move m (1, 1) EAST = Raise AssertionError.
Proof.
  eexists. split; [vm_compute; reflexivity|].
  apply move_outward_raises; [unfold in_grid; simpl; lia | reflexivity].
Defined.

(** C1 (as stated) fails: in a constructed 2x2 maze, moving north from
    the corner (0, 0) raises instead of returning [(False, (0, 0))]. *)
Lemma move_outward_counterexample :
  exists m, __init__ shuffle_south_first 2 2 (0, 0) None = Some (Ok m) /\
    in_grid m (0, 0) /\ outward m (0, 0) NORTH /\
    move m (0, 0) NORTH = Raise AssertionError /\
    move m (0, 0) NORTH <> Ok (false, (0, 0)).
Proof.
  eexists. split; [vm_compute; reflexivity|].
  repeat split; try (simpl; lia); discriminate.
Qed.

(** C5 (as amended): [move] follows the edge lookup.  It returns
    [(True, n)] exactly when [_get_edge_at] returns a passage and [n] is the
    neighbouring cell, [(False, pos)] exactly when [_get_edge_at] returns a
    wall, and it raises exactly when the lookup raises, which it does for
    every direction that leaves the grid. *)
Theorem move_edge_consistency (m : Maze) (p : coord) (d : Direction) :
  in_grid m p ->
  (forall n, move m p d = Ok (true, n) <->
             _get_edge_at m p.1 p.2 d = Ok true /\ n = neighbor_cell p d) /\
  (forall q, move m p d = Ok (false, q) <->
             _get_edge_at m p.1 p.2 d = Ok false /\ q = p) /\
  (forall e, move m p d = Raise e <-> _get_edge_at m p.1 p.2 d = Raise e) /\
  (outward m p d -> move m p d = Raise AssertionError).
Proof.
  intros Hp.
  destruct (_get_edge_at m p.1 p.2 d) as [b|e] eqn:E.
  - rewrite (move_of_edge _ _ _ _ Hp E).
    repeat split; try (destruct b; congruence); try discriminate.
    + destruct b; intros [? ?]; congruence.
    + destruct b; intros [? ?]; congruence.
    + intros Ho. apply _get_edge_at_outward in Ho. congruence.
  - rewrite (move_of_raise _ _ _ _ E).
    repeat split; try congruence; try discriminate.
    + intros [? ?]; congruence.
    + intros [? ?]; congruence.
    + intros Ho. apply _get_edge_at_outward in Ho. congruence.
Qed.

Lemma move_edge_consistency_witness :
  exists m, __init__ shuffle_south_first 2 2 (0, 0) None = Some (Ok m) /\
    (move m (0, 0) SOUTH = Ok (true, (1, 0)) <->
     _get_edge_at m 0 0 SOUTH = Ok true /\ (1, 0) = neighbor_cell (0, 0) SOUTH).
Proof.
  eexists. split; [vm_compute; reflexivity|].
  apply (move_edge_consistency _ (0, 0) SOUTH). unfold in_grid; simpl; lia.
Defined.

(** C5 (as stated) fails: in a constructed 2x2 maze the edge west of
    (0, 0) is no passage, and [move] does not return [(False, (0, 0))]. *)
Lemma move_edge_counterexample :
  exists m, __init__ shuffle_south_first 2 2 (0, 0) None = Some (Ok m) /\
    _get_edge_at m 0 0 WEST <> Ok true /\
    move m (0, 0) WEST = Raise AssertionError /\
    move m (0, 0) WEST <> Ok (false, (0, 0)).
Proof.
  eexists. split; [vm_compute; reflexivity|].
  repeat split; discriminate.
Qed.

(** ** Counting and geometry *)

Lemma count_true_le_length (l : list bool) : (count_true l <= length l)%nat.
Proof. induction l as [|[] l IH]; simpl; lia. Qed.

Lemma count_true_insert (l : list bool) (i : nat) :
  l !! i = Some false -> count_true (<[i := true]> l) = S (count_true l).
Proof.
  revert i; induction l as [|b l IH]; intros [|i] H; simpl in *; try discriminate.
  - injection H as ->. reflexivity.
  - rewrite (IH i H). lia.
Qed.

Lemma count_true_replicate_false (n : nat) : count_true (replicate n false) = 0%nat.
Proof. induction n; simpl; congruence. Qed.

Lemma count_true_all (l : list bool) :
  (forall i, (i < length l)%nat -> l !! i = Some true) ->
  count_true l = length l.
Proof.
  induction l as [|b l IH]; intros H; simpl; [reflexivity|].
  pose proof (H 0%nat ltac:(simpl; lia)) as H0. injection H0 as ->.
  rewrite IH; [reflexivity|].
  intros i Hi. apply (H (S i)). simpl; lia.
Qed.

Lemma cell_nat_inj (m : Maze) (p q : coord) :
  in_grid m p -> in_grid m q -> cell_nat m p = cell_nat m q -> p = q.
Proof.
  destruct p as [r c], q as [r' c']; unfold in_grid, cell_nat; simpl.
  intros [Hr Hc] [Hr' Hc'] H.
  apply Z2Nat.inj in H; [|nia..].
  destruct (mul_add_inj (_n_cols m) r c r' c') as [-> ->]; [lia..|reflexivity].
Qed.

Lemma cell_nat_range (m : Maze) (p : coord) :
  in_grid m p -> Z.of_nat (cell_nat m p) < _n_rows m * _n_cols m.
Proof.
  destruct p as [r c]; unfold in_grid, cell_nat; simpl. intros [Hr Hc]. nia.
Qed.

Lemma physical_edge_array (p : coord) (d : Direction) :
  (physical_edge p d).1 = edge_array_of d.
Proof. by destruct d. Qed.

Lemma physical_edge_ends (m : Maze) (node : coord) (d : Direction) :
  in_grid m node -> in_grid m (neighbor_cell node d) ->
  edge_in_grid m (physical_edge node d) /\
  (((physical_edge node d).2 = node /\
    far_end (physical_edge node d) = neighbor_cell node d) \/
   ((physical_edge node d).2 = neighbor_cell node d /\
    far_end (physical_edge node d) = node)).
Proof.
  destruct node as [r c]; unfold edge_in_grid, in_grid, far_end.
  destruct d; simpl; intros [Hr Hc] [Hr' Hc'].
  - split; [lia|]. right. split; [reflexivity | f_equal; lia].
  - split; [lia|]. left. by split.
  - split; [lia|]. left. by split.
  - split; [lia|]. right. split; [reflexivity | f_equal; lia].
Qed.

Lemma canon_idx_range (m : Maze) (e : edge_array * coord) :
  edge_in_grid m e -> 0 <= canon_idx m e < edge_array_length m e.1.
Proof.
  destruct e as [[] [r c]]; unfold edge_in_grid, in_grid, far_end, canon_idx;
    simpl; intros [[? ?] [? ?]]; nia.
Qed.

Lemma canon_idx_inj (m : Maze) (e e' : edge_array * coord) :
  edge_in_grid m e -> edge_in_grid m e' -> e.1 = e'.1 ->
  Z.to_nat (canon_idx m e) = Z.to_nat (canon_idx m e') -> e = e'.
Proof.
  intros He He' Harr H.
  pose proof (canon_idx_range _ _ He). pose proof (canon_idx_range _ _ He').
  apply Z2Nat.inj in H; [|lia..].
  destruct e as [a [r c]], e' as [a' [r' c']]; simpl in Harr; subst a'.
  destruct He as [[? ?] [? ?]], He' as [[? ?] [? ?]].
  destruct a; unfold canon_idx, far_end in *; simpl in *.
  - destruct (mul_add_inj (_n_cols m) r c r' c') as [-> ->]; [lia..|reflexivity].
  - destruct (mul_add_inj (_n_cols m - 1) r c r' c') as [-> ->]; [lia..|reflexivity].
Qed.

Lemma _get_edge_idx_canon (m : Maze) (p : coord) (d : Direction) (i : Z) :
  _get_edge_idx m p.1 p.2 d = Ok i -> i = canon_idx m (physical_edge p d).
Proof.
  intros H. apply _get_edge_idx_ok in H.
  destruct d; destruct H as [_ ->]; unfold canon_idx; simpl; lia.
Qed.

Lemma _get_edge_at_lookup (m : Maze) (p : coord) (d : Direction) (b : bool) :
  in_grid m p ->
  _get_edge_at m p.1 p.2 d = Ok b <->
  exists i, _get_edge_idx m p.1 p.2 d = Ok i /\
    edge_list m (edge_array_of d) !! Z.to_nat i = Some b.
Proof.
  intros Hp. unfold _get_edge_at. split.
  - intros H. apply bind_ok_inv in H as (i & Hi & H). exists i. split; [done|].
    pose proof (edge_idx_in_range m p.1 p.2 i d) as Hr.
    destruct p; specialize (Hr Hp Hi).
    destruct d; simpl in *; apply py_index_ok in H; (lia || done).
  - intros (i & Hi & H). rewrite Hi. simpl.
    pose proof (edge_idx_in_range m p.1 p.2 i d) as Hr.
    destruct p; specialize (Hr Hp Hi).
    destruct d; simpl in *; apply py_index_lookup; (lia || done).
Qed.

(** ** One carving step *)

Lemma _set_edge_at_ok (m : Maze) (p : coord) (d : Direction) (m1 : Maze) :
  _set_edge_at m p.1 p.2 d true = Ok m1 ->
  _get_edge_idx m p.1 p.2 d = Ok (canon_idx m (physical_edge p d)) /\
  (Z.to_nat (canon_idx m (physical_edge p d))
   < length (edge_list m (edge_array_of d)))%nat /\
  edge_list m1 (edge_array_of d)
  = <[Z.to_nat (canon_idx m (physical_edge p d)) := true]>
      (edge_list m (edge_array_of d)) /\
  (forall a, a <> edge_array_of d -> edge_list m1 a = edge_list m a) /\
  _n_rows m1 = _n_rows m /\ _n_cols m1 = _n_cols m /\
  _start_pos m1 = _start_pos m /\ _goal_pos m1 = _goal_pos m /\
  _visited m1 = _visited m.
Proof.
  unfold _set_edge_at. intros H.
  apply bind_ok_inv in H as (i & Hi & H).
  pose proof (_get_edge_idx_canon _ _ _ _ Hi) as Hc. subst i.
  assert (0 <= canon_idx m (physical_edge p d)) as Hnn.
  { apply _get_edge_idx_ok in Hi. destruct d; destruct Hi as [[? ?] ->]; nia. }
  split; [assumption|].
  destruct d; simpl in *; apply bind_ok_inv in H as (l & Hl & H);
    injection H as <-; apply py_setitem_ok in Hl as [-> Hlt]; try assumption;
    simpl; (split; [lia|]); (split; [reflexivity|]);
    (split; [intros [] Ha; (reflexivity || congruence)|]); repeat split.
Qed.

Lemma carve_dir_cases (node : coord) (d : Direction) (m m' : Maze)
  (s s' : list coord) :
  carve_dir node d (m, s) = Ok (m', s') ->
  (m' = m /\ s' = s /\ in_grid m node /\
   (in_grid m (neighbor_cell node d) -> visited_at m (neighbor_cell node d))) \/
  (carved m node d m' /\ s' = neighbor_cell node d :: s).
Proof.
  unfold carve_dir. intros H.
  apply bind_ok_inv in H as (next & Hnext & H).
  destruct node as [r c]. apply _get_cell_at_ok in Hnext as [Hnode ->].
  simpl in H. set (next := neighbor_cell (r, c) d) in *.
  destruct ((next.1 <? 0) || (next.1 >=? _n_rows m)) eqn:E1.
  { injection H as <- <-. left. repeat split; try apply Hnode.
    intros [? ?]; lia. }
  destruct ((next.2 <? 0) || (next.2 >=? _n_cols m)) eqn:E2.
  { injection H as <- <-. left. repeat split; try apply Hnode.
    intros [? ?]; lia. }
  assert (in_grid m next) as Hin by (unfold in_grid; lia).
  rewrite (_get_cell_index_in_grid _ _ Hin) in H. simpl in H.
  apply bind_ok_inv in H as (seen & Hseen & H).
  apply py_index_ok in Hseen; [|destruct Hin; nia].
  destruct seen.
  { injection H as <- <-. left. repeat split; try apply Hnode. by intros _. }
  apply bind_ok_inv in H as (m1 & Hm1 & H).
  apply bind_ok_inv in H as (vis & Hvis & H).
  injection H as <- <-. right. split; [|reflexivity].
  apply (_set_edge_at_ok m (r, c)) in Hm1
    as (Hidx & Hlt & Hedge & Hother & Hrows & Hcols & Hstart & Hgoal & Hv).
  rewrite Hv in Hvis. apply py_setitem_ok in Hvis as [-> _]; [|destruct Hin; nia].
  constructor; simpl; try assumption; reflexivity.
Qed.

Lemma move_true_inv (m : Maze) (p q : coord) (d : Direction) :
  move m p d = Ok (true, q) ->
  in_grid m p /\ q = neighbor_cell p d /\ _get_edge_at m p.1 p.2 d = Ok true.
Proof.
  unfold move. intros H. apply bind_ok_inv in H as (b & Hb & H).
  destruct b; simpl in H; [|discriminate].
  apply bind_ok_inv in H as (n & Hn & H). injection H as ->.
  destruct p as [r c]. apply _get_cell_at_ok in Hn as [Hp ->].
  split; [exact Hp | split; [reflexivity | exact Hb]].
Qed.

Section Carved.
Variables (m m' : Maze) (node : coord) (d : Direction).
Hypothesis Hcv : carved m node d m'.

Lemma carved_in_grid (p : coord) : in_grid m' p <-> in_grid m p.
Proof. unfold in_grid. by rewrite (cv_rows _ _ _ _ Hcv), (cv_cols _ _ _ _ Hcv). Qed.

Lemma carved_cell_nat (p : coord) : cell_nat m' p = cell_nat m p.
Proof. unfold cell_nat. by rewrite (cv_cols _ _ _ _ Hcv). Qed.

Lemma carved_canon_idx (e : edge_array * coord) : canon_idx m' e = canon_idx m e.
Proof. unfold canon_idx. by rewrite (cv_cols _ _ _ _ Hcv). Qed.

Lemma carved_edge_in_grid (e : edge_array * coord) :
  edge_in_grid m' e <-> edge_in_grid m e.
Proof. unfold edge_in_grid. by rewrite !carved_in_grid. Qed.

Lemma carved_visited_mono (p : coord) : visited_at m p -> visited_at m' p.
Proof.
  unfold visited_at. rewrite carved_cell_nat, (cv_visited _ _ _ _ Hcv).
  intros H.
  destruct (decide (cell_nat m (neighbor_cell node d) = cell_nat m p)) as [E|E].
  - rewrite <- E. apply list_lookup_insert_eq.
    apply (lookup_lt_Some _ _ _ (cv_unvisited _ _ _ _ Hcv)).
  - by rewrite list_lookup_insert_ne.
Qed.

Lemma carved_visited_next : visited_at m' (neighbor_cell node d).
Proof.
  unfold visited_at. rewrite carved_cell_nat, (cv_visited _ _ _ _ Hcv).
  apply list_lookup_insert_eq.
  apply (lookup_lt_Some _ _ _ (cv_unvisited _ _ _ _ Hcv)).
Qed.

Lemma carved_visited_inv (p : coord) :
  in_grid m p -> visited_at m' p -> p = (neighbor_cell node d) \/ visited_at m p.
Proof.
  unfold visited_at. rewrite carved_cell_nat, (cv_visited _ _ _ _ Hcv).
  intros Hp H.
  destruct (decide (cell_nat m (neighbor_cell node d) = cell_nat m p)) as [E|E].
  - left. symmetry. apply (cell_nat_inj m); [apply (cv_next _ _ _ _ Hcv) | done..].
  - right. by rewrite list_lookup_insert_ne in H.
Qed.

Lemma carved_edge_mono (a : edge_array) (i : nat) :
  edge_list m a !! i = Some true -> edge_list m' a !! i = Some true.
Proof.
  intros H. destruct (decide (a = edge_array_of d)) as [->|Ha].
  - rewrite (cv_edge _ _ _ _ Hcv).
    destruct (decide (Z.to_nat (canon_idx m (physical_edge node d)) = i)) as [<-|E].
    + apply list_lookup_insert_eq, (cv_in_range _ _ _ _ Hcv).
    + by rewrite list_lookup_insert_ne.
  - by rewrite (cv_other _ _ _ _ Hcv).
Qed.

Lemma carved_get_edge_idx (p : coord) (d' : Direction) :
  _get_edge_idx m' p.1 p.2 d' = _get_edge_idx m p.1 p.2 d'.
Proof.
  destruct d'; simpl;
    unfold _get_north_edge_idx, _get_south_edge_idx, _get_east_edge_idx,
      _get_west_edge_idx;
    by rewrite ?(cv_rows _ _ _ _ Hcv), ?(cv_cols _ _ _ _ Hcv).
Qed.

Lemma carved_step_mono (p q : coord) : passage_step m p q -> passage_step m' p q.
Proof.
  intros [d' H]. exists d'.
  apply move_true_inv in H as (Hp & -> & He).
  apply _get_edge_at_lookup in He as (i & Hi & He); [|done].
  assert (in_grid m' p) as Hp' by by apply carved_in_grid.
  rewrite (move_of_edge m' p d' true Hp'); [done|].
  apply _get_edge_at_lookup; [done|]. exists i.
  split; [by rewrite carved_get_edge_idx | by apply carved_edge_mono].
Qed.

Lemma carved_reachable_mono (p q : coord) : reachable m p q -> reachable m' p q.
Proof. apply rtc_subrel, carved_step_mono. Qed.

Lemma carved_step_new : passage_step m' node (neighbor_cell node d).
Proof.
  exists d.
  assert (in_grid m' node) as Hp' by apply carved_in_grid, (cv_node _ _ _ _ Hcv).
  rewrite (move_of_edge m' node d true Hp'); [done|].
  apply _get_edge_at_lookup; [done|].
  exists (canon_idx m (physical_edge node d)).
  split; [rewrite carved_get_edge_idx; apply (cv_idx _ _ _ _ Hcv)|].
  rewrite (cv_edge _ _ _ _ Hcv).
  apply list_lookup_insert_eq, (cv_in_range _ _ _ _ Hcv).
Qed.

Lemma carved_wf : wf m -> wf m'.
Proof.
  intros [Hr Hc Hh Hv Hvis].
  pose proof (cv_edge _ _ _ _ Hcv) as He.
  pose proof (cv_other _ _ _ _ Hcv) as Ho.
  assert (forall a, length (edge_list m' a) = length (edge_list m a)) as Hlen.
  { intros a. destruct (decide (a = edge_array_of d)) as [->|Ha].
    - by rewrite He, length_insert.
    - by rewrite Ho. }
  pose proof (Hlen Horizontal) as Hlh. pose proof (Hlen Vertical) as Hlv.
  simpl in Hlh, Hlv.
  constructor; rewrite ?(cv_rows _ _ _ _ Hcv), ?(cv_cols _ _ _ _ Hcv);
    rewrite ?Hlh, ?Hlv, ?(cv_visited _ _ _ _ Hcv), ?length_insert; assumption.
Qed.

Lemma carved_passages :
  edge_list m (edge_array_of d) !! Z.to_nat (canon_idx m (physical_edge node d))
  = Some false ->
  passages m' = S (passages m).
Proof.
  intros Hf. pose proof (cv_edge _ _ _ _ Hcv) as He.
  pose proof (cv_other _ _ _ _ Hcv) as Ho. unfold passages.
  destruct (edge_array_of d) eqn:Ed; simpl in *.
  - pose proof (Ho Vertical ltac:(done)) as Hov. simpl in Hov.
    rewrite He, Hov. by rewrite count_true_insert.
  - pose proof (Ho Horizontal ltac:(done)) as Hoh. simpl in Hoh.
    rewrite He, Hoh. rewrite count_true_insert by done. lia.
Qed.

Lemma carved_potential (s : list coord) :
  S (potential m' ((neighbor_cell node d) :: s)) = potential m s.
Proof.
  unfold potential. rewrite (cv_visited _ _ _ _ Hcv), length_insert.
  rewrite (count_true_insert _ _ (cv_unvisited _ _ _ _ Hcv)).
  pose proof (count_true_le_length
                (<[cell_nat m (neighbor_cell node d) := true]> (_visited m)))
    as Hle.
  rewrite length_insert, (count_true_insert _ _ (cv_unvisited _ _ _ _ Hcv)) in Hle.
  simpl. lia.
Qed.
End Carved.

(** ** The invariant of the carving loop *)

Lemma carve_inv_carved (m m' : Maze) (node : coord) (d : Direction)
  (s : list coord) :
  carve_inv m s -> visited_at m node -> carved m node d m' ->
  carve_inv m' (neighbor_cell node d :: s).
Proof.
  intros [Hwf [Hsin Hsvis] Hstack Hcount Hedges Hreach Hclosed] Hnode Hcv.
  pose proof (cv_node _ _ _ _ Hcv) as Hnin.
  pose proof (cv_next _ _ _ _ Hcv) as Hxin.
  pose proof (cv_unvisited _ _ _ _ Hcv) as Hunv.
  destruct (physical_edge_ends m node d Hnin Hxin) as [Hein Hends].
  constructor.
  - by apply (carved_wf m m' node d).
  - rewrite (cv_start _ _ _ _ Hcv). split.
    + by apply (carved_in_grid m m' node d).
    + by apply (carved_visited_mono m m' node d).
  - intros p Hp. apply elem_of_cons in Hp as [->|Hp].
    + split; [by apply (carved_in_grid m m' node d)|].
      by apply (carved_visited_next m m' node d).
    + destruct (Hstack p Hp). split.
      * by apply (carved_in_grid m m' node d).
      * by apply (carved_visited_mono m m' node d).
  - assert (edge_list m (edge_array_of d)
              !! Z.to_nat (canon_idx m (physical_edge node d)) = Some false) as Hf.
    { destruct (lookup_lt_is_Some_2 _ _ (cv_in_range _ _ _ _ Hcv)) as [b Hb].
      destruct b; [|done]. exfalso.
      rewrite <- (physical_edge_array node d) in Hb.
      destruct (Hedges _ Hein Hb) as [H1 H2]. unfold visited_at in H1, H2.
      destruct Hends as [[E1 E2]|[E1 E2]]; congruence. }
    rewrite (carved_passages m m' node d Hcv Hf).
    rewrite (cv_visited _ _ _ _ Hcv), (count_true_insert _ _ Hunv). lia.
  - intros e He Hl.
    apply (carved_edge_in_grid m m' node d Hcv) in He.
    rewrite (carved_canon_idx m m' node d Hcv) in Hl.
    destruct (decide (e.1 = edge_array_of d
                      /\ Z.to_nat (canon_idx m e)
                         = Z.to_nat (canon_idx m (physical_edge node d))))
      as [[Ea Ei]|Hne].
    + assert (e = physical_edge node d) as ->.
      { apply (canon_idx_inj m); [done..| |done].
        by rewrite physical_edge_array. }
      destruct Hends as [[-> ->]|[-> ->]]; split;
        first [ by apply (carved_visited_next m m' node d)
              | by apply (carved_visited_mono m m' node d) ].
    + assert (edge_list m e.1 !! Z.to_nat (canon_idx m e) = Some true) as Hl0.
      { destruct (decide (e.1 = edge_array_of d)) as [Ea|Ea].
        - rewrite Ea in Hl |- *. rewrite (cv_edge _ _ _ _ Hcv) in Hl.
          rewrite list_lookup_insert_ne in Hl; [done|]. intros E. apply Hne. done.
        - by rewrite (cv_other _ _ _ _ Hcv) in Hl. }
      destruct (Hedges e He Hl0). split; by apply (carved_visited_mono m m' node d).
  - intros p Hp Hv. rewrite (cv_start _ _ _ _ Hcv).
    apply (carved_in_grid m m' node d Hcv) in Hp.
    destruct (carved_visited_inv m m' node d Hcv p Hp Hv) as [->|Hv0].
    + apply (rtc_r _ node).
      * apply (carved_reachable_mono m m' node d Hcv), Hreach; done.
      * by apply (carved_step_new m m' node d).
    + by apply (carved_reachable_mono m m' node d Hcv), Hreach.
  - intros p Hp Hv.
    apply (carved_in_grid m m' node d Hcv) in Hp.
    destruct (carved_visited_inv m m' node d Hcv p Hp Hv) as [->|Hv0].
    + left. apply elem_of_cons. by left.
    + destruct (Hclosed p Hp Hv0) as [Hs|Hall].
      * left. apply elem_of_cons. by right.
      * right. intros d' Hd'. apply (carved_visited_mono m m' node d Hcv).
        apply Hall. by apply (carved_in_grid m m' node d Hcv).
Qed.

Lemma carve_inv_for_each (node : coord) (ds : list Direction) (m m' : Maze)
  (s s' : list coord) :
  carve_inv m s -> visited_at m node ->
  for_each ds (carve_dir node) (m, s) = Ok (m', s') ->
  carve_inv m' s' /\ visited_at m' node.
Proof.
  revert m s. induction ds as [|d ds IH]; intros m s Hinv Hnode H; simpl in H.
  - injection H as <- <-. by split.
  - apply bind_ok_inv in H as ([m1 s1] & H1 & H).
    apply carve_dir_cases in H1 as [(-> & -> & _)|[Hcv ->]].
    + by apply (IH m s).
    + apply (IH m1 (neighbor_cell node d :: s)); [|  |done].
      * by apply (carve_inv_carved m).
      * by apply (carved_visited_mono m m1 node d).
Qed.

Lemma count_if_not_visited_ok (m : Maze) (guard : bool) (r c acc n : Z) :
  count_if_not_visited m guard r c acc = Ok n ->
  (guard = false /\ n = acc) \/
  (guard = true /\ in_grid m (r, c) /\
   exists b : bool, _visited m !! cell_nat m (r, c) = Some b /\
             n = if b then acc else acc + 1).
Proof.
  unfold count_if_not_visited. destruct guard; intros H.
  - right. apply bind_ok_inv in H as (i & Hi & H).
    apply bind_ok_inv in H as (b & Hb & H). injection H as <-.
    apply _get_cell_index_ok in Hi as [Hin ->].
    apply py_index_ok in Hb; [|destruct Hin; simpl in *; nia].
    repeat split; try apply Hin. exists b. split; [done | by destruct b].
  - left. injection H as <-. by split.
Qed.

Lemma count_if_not_visited_in_grid (m : Maze) (guard : bool) (r c acc : Z) :
  wf m -> (guard = true -> in_grid m (r, c)) ->
  exists n, count_if_not_visited m guard r c acc = Ok n.
Proof.
  intros Hwf Hg. unfold count_if_not_visited. destruct guard; [|eauto].
  specialize (Hg eq_refl).
  pose proof (_get_cell_index_in_grid m (r, c) Hg) as Hi. simpl in Hi.
  rewrite Hi. simpl.
  destruct (py_index_in_range (_visited m) (r * _n_cols m + c)) as [b ->];
    [|simpl; eauto].
  rewrite (wf_visited _ Hwf). destruct Hg; simpl in *; nia.
Qed.

(** [_has_non_visited_neighbours] returns 0 only when every neighbour in
    the grid is visited. *)
Lemma _has_non_visited_neighbours_zero (m : Maze) (p : coord) :
  in_grid m p -> _has_non_visited_neighbours m p.1 p.2 = Ok 0 ->
  forall d, in_grid m (neighbor_cell p d) -> visited_at m (neighbor_cell p d).
Proof.
  destruct p as [r c]. unfold _has_non_visited_neighbours. simpl.
  intros [Hr Hc] H.
  apply bind_ok_inv in H as (c1 & H1 & H). apply bind_ok_inv in H as (c2 & H2 & H).
  apply bind_ok_inv in H as (c3 & H3 & H). apply bind_ok_inv in H as (c4 & H4 & H).
  injection H as ->.
  apply count_if_not_visited_ok in H1, H2, H3, H4.
  assert (forall acc n g x (P : Prop),
            (g = false /\ n = acc) \/ (g = true /\ P /\
              exists b : bool, x = Some b /\ n = if b then acc else acc + 1) ->
            0 <= acc -> acc <= n /\ (n = 0 -> g = true -> x = Some true)) as Haux.
  { intros acc n g x P [[-> ->]|(-> & _ & b & -> & ->)] Hacc.
    - split; [lia | discriminate].
    - destruct b; split; (lia || done). }
  destruct (Haux _ _ _ _ _ H1 ltac:(lia)) as [L1 V1].
  destruct (Haux _ _ _ _ _ H2 L1) as [L2 V2].
  destruct (Haux _ _ _ _ _ H3 ltac:(lia)) as [L3 V3].
  destruct (Haux _ _ _ _ _ H4 ltac:(lia)) as [L4 V4].
  intros d [Hr' Hc']. unfold visited_at.
  destruct d; simpl in *;
    [apply V1 | apply V2 | apply V4 | apply V3]; lia.
Qed.

(** A positive count points at a neighbour in the grid that is not
    visited. *)
Lemma _has_non_visited_neighbours_pos (m : Maze) (p : coord) (n : Z) :
  _has_non_visited_neighbours m p.1 p.2 = Ok n -> n <> 0 ->
  exists d, in_grid m (neighbor_cell p d) /\
            _visited m !! cell_nat m (neighbor_cell p d) = Some false.
Proof.
  destruct p as [r c]. unfold _has_non_visited_neighbours. simpl. intros H Hn.
  apply bind_ok_inv in H as (c1 & H1 & H). apply bind_ok_inv in H as (c2 & H2 & H).
  apply bind_ok_inv in H as (c3 & H3 & H). apply bind_ok_inv in H as (c4 & H4 & H).
  injection H as ->.
  apply count_if_not_visited_ok in H1, H2, H3, H4.
  destruct H1 as [[_ ->]|(_ & Hin & [] & Hb & ->)];
    [| |by exists NORTH].
  all: destruct H2 as [[_ ->]|(_ & Hin2 & [] & Hb2 & ->)];
    [| |by exists SOUTH].
  all: destruct H3 as [[_ ->]|(_ & Hin3 & [] & Hb3 & ->)];
    [| |by exists WEST].
  all: destruct H4 as [[_ ->]|(_ & Hin4 & [] & Hb4 & ->)];
    [| |by exists EAST].
  all: lia.
Qed.

Lemma _has_non_visited_neighbours_in_grid (m : Maze) (p : coord) :
  wf m -> in_grid m p -> exists n, _has_non_visited_neighbours m p.1 p.2 = Ok n.
Proof.
  destruct p as [r c]. intros Hwf [Hr Hc]. simpl in *.
  unfold _has_non_visited_neighbours.
  destruct (count_if_not_visited_in_grid m (r >? 0) (r - 1) c 0 Hwf) as [c1 ->];
    [unfold in_grid; simpl; lia|]. simpl.
  destruct (count_if_not_visited_in_grid m (r <? _n_rows m - 1) (r + 1) c c1 Hwf)
    as [c2 ->]; [unfold in_grid; simpl; lia|]. simpl.
  destruct (count_if_not_visited_in_grid m (c >? 0) r (c - 1) c2 Hwf) as [c3 ->];
    [unfold in_grid; simpl; lia|]. simpl.
  destruct (count_if_not_visited_in_grid m (c <? _n_cols m - 1) r (c + 1) c3 Hwf)
    as [c4 ->]; [unfold in_grid; simpl; lia|]. simpl. eauto.
Qed.

Lemma carve_inv_iteration (ds : list Direction) (m m' : Maze) (node : coord)
  (rest s' : list coord) :
  carve_inv m (node :: rest) ->
  carve_iteration ds m node rest = Ok (m', s') ->
  carve_inv m' s'.
Proof.
  intros Hinv H. unfold carve_iteration in H.
  apply bind_ok_inv in H as (n & Hn & H).
  destruct (inv_stack _ _ Hinv node ltac:(apply elem_of_cons; by left))
    as [Hnin Hnvis].
  refine (proj1 (carve_inv_for_each node ds m m' _ s' _ Hnvis H)).
  destruct (Z.eqb_spec n 0) as [->|Hne]; [|done].
  destruct Hinv as [Hwf Hstart Hstack Hcount Hedges Hreach Hclosed].
  constructor; try done.
  - intros p Hp. apply Hstack, elem_of_cons. by right.
  - intros p Hp Hv. destruct (Hclosed p Hp Hv) as [Hs|Hall]; [|by right].
    apply elem_of_cons in Hs as [->|Hs]; [|by left].
    right. by apply _has_non_visited_neighbours_zero.
Qed.

(** ** The loop halts *)

Lemma for_each_carve_potential (node : coord) (ds : list Direction)
  (m m' : Maze) (s s' : list coord) :
  for_each ds (carve_dir node) (m, s) = Ok (m', s') ->
  (potential m' s' <= potential m s)%nat /\
  (forall d, d ∈ ds -> in_grid m (neighbor_cell node d) ->
             _visited m !! cell_nat m (neighbor_cell node d) = Some false ->
             (potential m' s' < potential m s)%nat).
Proof.
  revert m s. induction ds as [|d ds IH]; intros m s H; simpl in H.
  - injection H as <- <-. split; [lia|]. intros d Hd. by apply elem_of_nil in Hd.
  - apply bind_ok_inv in H as ([m1 s1] & H1 & H).
    destruct (IH _ _ H) as [Hle Hlt].
    apply carve_dir_cases in H1 as [(-> & -> & _ & Hskip)|[Hcv ->]].
    + split; [done|]. intros d' Hd' Hin Hunv.
      apply elem_of_cons in Hd' as [->|Hd']; [|by apply (Hlt d')].
      specialize (Hskip Hin). unfold visited_at in Hskip. congruence.
    + pose proof (carved_potential m m1 node d Hcv s) as Hp.
      split; [lia|]. intros; lia.
Qed.

Lemma carve_iteration_potential (ds : list Direction) (m m' : Maze)
  (node : coord) (rest s' : list coord) :
  (forall d, d ∈ ds) ->
  carve_iteration ds m node rest = Ok (m', s') ->
  (potential m' s' < potential m (node :: rest))%nat.
Proof.
  intros Hall H. unfold carve_iteration in H.
  apply bind_ok_inv in H as (n & Hn & H).
  destruct (for_each_carve_potential _ _ _ _ _ _ H) as [Hle Hlt].
  destruct (Z.eqb_spec n 0) as [->|Hne].
  - unfold potential in *. simpl. simpl in Hle. lia.
  - destruct (_has_non_visited_neighbours_pos m node n Hn Hne) as (d & Hin & Hunv).
    by apply (Hlt d).
Qed.

Lemma carve_loop_halts (shuffle : nat -> list Direction) :
  (forall k d, d ∈ shuffle k) ->
  forall fuel k m s, (potential m s <= fuel)%nat ->
    exists r, carve_loop shuffle fuel k m s = Some r.
Proof.
  intros Hall. induction fuel as [|fuel IH]; intros k m s Hp.
  - destruct s as [|node rest]; simpl; [eauto|].
    unfold potential in Hp. simpl in Hp. lia.
  - destruct s as [|node rest]; simpl; [eauto|].
    destruct (carve_iteration (shuffle k) m node rest) as [[m' s']|e] eqn:E; [|eauto].
    apply IH. apply carve_iteration_potential in E; [lia | apply Hall].
Qed.

(** The result does not depend on the fuel, once there is enough of it. *)
Lemma carve_loop_fuel_mono (shuffle : nat -> list Direction) (fuel fuel' k : nat)
  (m : Maze) (s : list coord) (r : result Maze) :
  carve_loop shuffle fuel k m s = Some r -> (fuel <= fuel')%nat ->
  carve_loop shuffle fuel' k m s = Some r.
Proof.
  revert fuel' k m s. induction fuel as [|fuel IH]; intros fuel' k m s H Hle.
  - destruct s; simpl in H; [|discriminate]. by destruct fuel'.
  - destruct fuel' as [|fuel']; [lia|].
    destruct s as [|node rest]; simpl in *; [done|].
    destruct (carve_iteration (shuffle k) m node rest) as [[m' s']|e]; [|done].
    apply IH; [done | lia].
Qed.

Lemma fair_all (shuffle : nat -> list Direction) :
  fair shuffle -> forall k d, d ∈ shuffle k.
Proof.
  intros Hf k d. rewrite (Hf k). destruct d; set_solver.
Qed.

(** ** The loop keeps its invariant *)

Lemma carve_loop_inv (shuffle : nat -> list Direction) (fuel k : nat)
  (m m' : Maze) (s : list coord) :
  carve_inv m s -> carve_loop shuffle fuel k m s = Some (Ok m') ->
  carve_inv m' [].
Proof.
  revert k m s. induction fuel as [|fuel IH]; intros k m s Hinv H.
  - destruct s; simpl in H; [|discriminate]. by injection H as <-.
  - destruct s as [|node rest]; simpl in H; [by injection H as <-|].
    destruct (carve_iteration (shuffle k) m node rest) as [[m1 s1]|e] eqn:E;
      [|discriminate].
    apply (IH (S k) m1 s1); [|done]. by apply (carve_inv_iteration _ _ _ _ _ _ Hinv E).
Qed.

(** When the stack is empty every cell has been visited. *)
Lemma interval_closed (P : Z -> Prop) (lo hi a : Z) :
  lo <= a < hi -> P a ->
  (forall x, lo <= x < hi -> P x ->
     (x + 1 < hi -> P (x + 1)) /\ (lo <= x - 1 -> P (x - 1))) ->
  forall x, lo <= x < hi -> P x.
Proof.
  intros Ha HPa Hstep.
  assert (forall n : nat, (a + Z.of_nat n < hi -> P (a + Z.of_nat n)) /\
                          (lo <= a - Z.of_nat n -> P (a - Z.of_nat n))) as Hn.
  { induction n as [|n [IHu IHd]].
    - rewrite Z.add_0_r, Z.sub_0_r. by split.
    - split; intros Hb.
      + replace (a + Z.of_nat (S n)) with (a + Z.of_nat n + 1) by lia.
        apply Hstep; [lia | apply IHu; lia | lia].
      + replace (a - Z.of_nat (S n)) with (a - Z.of_nat n - 1) by lia.
        apply Hstep; [lia | apply IHd; lia | lia]. }
  intros x Hx. destruct (Z.le_gt_cases a x).
  - replace x with (a + Z.of_nat (Z.to_nat (x - a))) by lia. apply Hn. lia.
  - replace x with (a - Z.of_nat (Z.to_nat (a - x))) by lia. apply Hn. lia.
Qed.

Lemma carve_inv_all_visited (m : Maze) :
  carve_inv m [] -> forall p, in_grid m p -> visited_at m p.
Proof.
  intros [Hwf [[Hsr Hsc] Hsvis] _ _ _ _ Hclosed].
  assert (forall p, in_grid m p -> visited_at m p ->
            forall d, in_grid m (neighbor_cell p d) ->
                      visited_at m (neighbor_cell p d)) as Hnb.
  { intros p Hp Hv. destruct (Hclosed p Hp Hv) as [Hs|Hall]; [|done].
    by apply elem_of_nil in Hs. }
  destruct (_start_pos m) as [sr sc] eqn:Es. simpl in *.
  assert (forall c, 0 <= c < _n_cols m -> visited_at m (sr, c)) as Hrow.
  { apply (interval_closed _ 0 (_n_cols m) sc); [done..|].
    intros c Hc Hv. split; intros Hb.
    - apply (Hnb (sr, c) ltac:(by split) Hv EAST). split; simpl; lia.
    - apply (Hnb (sr, c) ltac:(by split) Hv WEST). split; simpl; lia. }
  intros [r c] [Hr Hc]. simpl in *. revert r Hr.
  apply (interval_closed _ 0 (_n_rows m) sr); [done | by apply Hrow |].
  intros r Hr Hv. split; intros Hb.
  - apply (Hnb (r, c) ltac:(by split) Hv SOUTH). split; simpl; lia.
  - apply (Hnb (r, c) ltac:(by split) Hv NORTH). split; simpl; lia.
Qed.

Lemma carve_inv_passages (m : Maze) :
  carve_inv m [] -> Z.of_nat (passages m) = _n_rows m * _n_cols m - 1.
Proof.
  intros Hinv. pose proof (carve_inv_all_visited m Hinv) as Hall.
  pose proof (inv_count _ _ Hinv) as Hcount.
  pose proof (wf_visited _ (inv_wf _ _ Hinv)) as Hlen.
  pose proof (wf_rows _ (inv_wf _ _ Hinv)) as Hr.
  pose proof (wf_cols _ (inv_wf _ _ Hinv)) as Hc.
  rewrite count_true_all in Hcount; [lia|].
  intros i Hi.
  specialize (Hall (Z.of_nat i / _n_cols m, Z.of_nat i mod _n_cols m)).
  unfold visited_at, cell_nat in Hall. simpl in Hall.
  replace (Z.of_nat i `div` _n_cols m * _n_cols m + Z.of_nat i `mod` _n_cols m)
    with (Z.of_nat i) in Hall
    by (rewrite (Z.div_mod (Z.of_nat i) (_n_cols m)) at 1; lia).
  rewrite Nat2Z.id in Hall. apply Hall. split; simpl.
  - split; [apply Z.div_pos; lia|]. apply Z.div_lt_upper_bound; nia.
  - apply Z.mod_pos_bound. lia.
Qed.

(** ** Carving does not fail when there are no more rows than columns *)

Lemma _set_edge_at_in_grid (m : Maze) (node : coord) (d : Direction) :
  wf m -> in_grid m node -> in_grid m (neighbor_cell node d) ->
  _n_rows m <= _n_cols m ->
  exists m1, _set_edge_at m node.1 node.2 d true = Ok m1.
Proof.
  destruct node as [r c]. intros Hwf [Hr Hc] [Hr' Hc'] Hsq. simpl in *.
  pose proof (wf_horizontal _ Hwf) as Hh. pose proof (wf_vertical _ Hwf) as Hv.
  unfold _set_edge_at.
  destruct d; simpl in *;
    unfold _get_north_edge_idx, _get_south_edge_idx, _get_east_edge_idx,
      _get_west_edge_idx;
    rewrite !py_assert_true by lia; simpl;
    rewrite py_setitem_in_range by nia; simpl; eauto.
Qed.

Lemma carve_dir_in_grid (node : coord) (d : Direction) (m : Maze) (s : list coord) :
  wf m -> in_grid m node -> _n_rows m <= _n_cols m ->
  exists st, carve_dir node d (m, s) = Ok st.
Proof.
  intros Hwf Hnode Hsq. unfold carve_dir.
  rewrite (_get_cell_at_in_grid m node d Hnode). simpl.
  set (next := neighbor_cell node d).
  destruct ((next.1 <? 0) || (next.1 >=? _n_rows m)) eqn:E1; [eauto|].
  destruct ((next.2 <? 0) || (next.2 >=? _n_cols m)) eqn:E2; [eauto|].
  assert (in_grid m next) as Hin by (unfold in_grid; lia).
  rewrite (_get_cell_index_in_grid _ _ Hin). simpl.
  pose proof (wf_visited _ Hwf) as Hlen.
  assert (0 <= next.1 * _n_cols m + next.2 < Z.of_nat (length (_visited m)))
    as Hrange by (destruct Hin; nia).
  destruct (py_index_in_range (_visited m) _ Hrange) as [seen ->]. simpl.
  destruct seen; [eauto|].
  destruct (_set_edge_at_in_grid m node d Hwf Hnode Hin Hsq) as [m1 Hm1].
  rewrite Hm1. simpl.
  apply (_set_edge_at_ok m node) in Hm1 as (_ & _ & _ & _ & _ & _ & _ & _ & Hv).
  rewrite Hv, py_setitem_in_range by done. simpl. eauto.
Qed.

Lemma for_each_carve_in_grid (node : coord) (ds : list Direction) (m : Maze)
  (s : list coord) :
  wf m -> in_grid m node -> _n_rows m <= _n_cols m ->
  exists m' s', for_each ds (carve_dir node) (m, s) = Ok (m', s') /\
    _n_rows m' = _n_rows m /\ _n_cols m' = _n_cols m.
Proof.
  revert m s. induction ds as [|d ds IH]; intros m s Hwf Hnode Hsq;
    cbn [for_each].
  - by exists m, s.
  - destruct (carve_dir_in_grid node d m s Hwf Hnode Hsq) as [[m1 s1] H1].
    rewrite H1. cbn [bind].
    apply carve_dir_cases in H1 as [(-> & -> & _)|[Hcv ->]]; [by apply IH|].
    pose proof (cv_rows _ _ _ _ Hcv) as Hrows.
    pose proof (cv_cols _ _ _ _ Hcv) as Hcols.
    destruct (IH m1 (neighbor_cell node d :: s)) as (m' & s' & H & Hr & Hc).
    + by apply (carved_wf m m1 node d).
    + by apply (carved_in_grid m m1 node d).
    + lia.
    + exists m', s'. split; [done|]. lia.
Qed.

Lemma carve_loop_succeeds (shuffle : nat -> list Direction) (fuel k : nat)
  (m : Maze) (s : list coord) (r : result Maze) :
  carve_inv m s -> _n_rows m <= _n_cols m ->
  carve_loop shuffle fuel k m s = Some r ->
  exists m', r = Ok m'.
Proof.
  revert k m s. induction fuel as [|fuel IH]; intros k m s Hinv Hsq H.
  - destruct s; simpl in H; [|discriminate]. injection H as <-. eauto.
  - destruct s as [|node rest]; simpl in H; [injection H as <-; eauto|].
    destruct (inv_stack _ _ Hinv node ltac:(apply elem_of_cons; by left))
      as [Hnin _].
    pose proof (inv_wf _ _ Hinv) as Hwf.
    destruct (_has_non_visited_neighbours_in_grid m node Hwf Hnin) as [n Hn].
    destruct (for_each_carve_in_grid node (shuffle k) m
                (if n =? 0 then rest else node :: rest) Hwf Hnin Hsq)
      as (m1 & s1 & H1 & Hr1 & Hc1).
    assert (carve_iteration (shuffle k) m node rest = Ok (m1, s1)) as E.
    { unfold carve_iteration. rewrite Hn. simpl. exact H1. }
    rewrite E in H.
    apply (IH (S k) m1 s1); [|lia|done].
    by apply (carve_inv_iteration _ _ _ _ _ _ Hinv E).
Qed.

(** ** Construction *)

Lemma allocate_wf (n_rows n_cols : Z) (sp : coord) (gp : option coord) :
  1 <= n_rows -> 1 <= n_cols -> wf (allocate n_rows n_cols sp gp).
Proof.
  intros Hr Hc. constructor; simpl; rewrite ?length_replicate; nia.
Qed.

(** The state in which the loop is entered. *)
Lemma carve_inv_start (n_rows n_cols : Z) (sp : coord) (gp : option coord) :
  let m := allocate n_rows n_cols sp gp in
  in_grid m sp ->
  let m0 := with_visited m (<[cell_nat m sp := true]> (_visited m)) in
  carve_inv m0 [sp] /\ (potential m0 [sp] <= carve_fuel m0)%nat.
Proof.
  intros m Hin m0.
  assert (1 <= n_rows /\ 1 <= n_cols) as [Hr Hc]
    by (destruct Hin; simpl in *; lia).
  pose proof (allocate_wf n_rows n_cols sp gp Hr Hc) as Hwf.
  pose proof (cell_nat_range m sp Hin) as Hrange. simpl in Hrange.
  assert (_visited m !! cell_nat m sp = Some false) as Hunv.
  { simpl. apply lookup_replicate. split; [done | lia]. }
  assert (forall p, in_grid m0 p -> visited_at m0 p -> p = sp) as Honly.
  { intros p Hp Hv. unfold visited_at in Hv. simpl in Hv.
    destruct (decide (cell_nat m sp = cell_nat m0 p)) as [E|E].
    - symmetry. by apply (cell_nat_inj m).
    - rewrite list_lookup_insert_ne in Hv by done.
      apply lookup_replicate in Hv as [? _]. discriminate. }
  assert (visited_at m0 sp) as Hsv.
  { unfold visited_at. simpl. apply list_lookup_insert_eq.
    rewrite length_replicate. fold (cell_nat m sp). lia. }
  split.
  - constructor.
    + destruct Hwf as [? ? Hh Hv Hvis]. constructor; simpl in *; try done.
      by rewrite length_insert.
    + by split.
    + intros p Hp. apply list_elem_of_singleton in Hp as ->. by split.
    + unfold passages. simpl. rewrite !count_true_replicate_false.
      change (replicate (Z.to_nat (n_rows * n_cols)) false) with (_visited m).
      rewrite (count_true_insert _ _ Hunv). simpl.
      by rewrite count_true_replicate_false.
    + intros [[] e] _ Hl; simpl in Hl;
        apply lookup_replicate in Hl as [? _]; discriminate.
    + intros p Hp Hv. rewrite (Honly p Hp Hv). apply rtc_refl.
    + intros p Hp Hv. left. rewrite (Honly p Hp Hv). apply list_elem_of_singleton.
      reflexivity.
  - unfold potential, carve_fuel. simpl.
    change (replicate (Z.to_nat (n_rows * n_cols)) false) with (_visited m).
    rewrite length_insert, (count_true_insert _ _ Hunv). simpl.
    rewrite length_replicate, count_true_replicate_false. lia.
Qed.

Lemma __init___unfold (shuffle : nat -> list Direction) (n_rows n_cols : Z)
  (sp : coord) (gp : option coord) :
  let m := allocate n_rows n_cols sp gp in
  in_grid m sp ->
  __init__ shuffle n_rows n_cols sp gp
  = carve_loop shuffle
      (carve_fuel m) 0
      (with_visited m (<[cell_nat m sp := true]> (_visited m))) [sp].
Proof.
  intros m Hin. unfold __init__, _carve_paths, _carve_path_iter. fold m.
  change (_start_pos m) with sp.
  rewrite (_get_cell_index_in_grid m sp Hin). simpl.
  pose proof (cell_nat_range m sp Hin) as Hrange.
  rewrite py_setitem_in_range.
  - reflexivity.
  - simpl in *. rewrite length_replicate. unfold cell_nat in Hrange.
    destruct Hin; simpl in *; nia.
Qed.

Lemma __init___rejects (shuffle : nat -> list Direction) (n_rows n_cols : Z)
  (sp : coord) (gp : option coord) :
  ~ (0 <= sp.1 < n_rows /\ 0 <= sp.2 < n_cols) ->
  __init__ shuffle n_rows n_cols sp gp = Some (Raise AssertionError).
Proof.
  intros Hout. unfold __init__, _carve_paths, _carve_path_iter, _get_cell_index.
  simpl.
  destruct ((sp.1 >=? 0) && (sp.1 <? n_rows)) eqn:E1; simpl; [|reflexivity].
  destruct ((sp.2 >=? 0) && (sp.2 <? n_cols)) eqn:E2; simpl; [|reflexivity].
  exfalso. apply Hout. lia.
Qed.

(** Every maze that [__init__] returns satisfies the loop invariant with
    an empty stack, and has the dimensions and positions it was given. *)
Lemma __init___inv (shuffle : nat -> list Direction) (n_rows n_cols : Z)
  (sp : coord) (gp : option coord) (m : Maze) :
  __init__ shuffle n_rows n_cols sp gp = Some (Ok m) ->
  carve_inv m [] /\ (0 <= sp.1 < n_rows /\ 0 <= sp.2 < n_cols).
Proof.
  intros H.
  destruct (decide (0 <= sp.1 < n_rows /\ 0 <= sp.2 < n_cols)) as [Hin|Hout].
  - split; [|done].
    rewrite (__init___unfold shuffle n_rows n_cols sp gp Hin) in H.
    destruct (carve_inv_start n_rows n_cols sp gp Hin) as [Hinv _].
    by apply (carve_loop_inv _ _ _ _ _ _ Hinv H).
  - rewrite (__init___rejects shuffle n_rows n_cols sp gp Hout) in H. discriminate.
Qed.

Lemma carve_loop_dims (shuffle : nat -> list Direction) (fuel k : nat)
  (m m' : Maze) (s : list coord) :
  carve_loop shuffle fuel k m s = Some (Ok m') ->
  _n_rows m' = _n_rows m /\ _n_cols m' = _n_cols m /\
  _start_pos m' = _start_pos m /\ _goal_pos m' = _goal_pos m.
Proof.
  revert k m s. induction fuel as [|fuel IH]; intros k m s H.
  - destruct s; simpl in H; [|discriminate]. by injection H as <-.
  - destruct s as [|node rest]; simpl in H; [by injection H as <-|].
    destruct (carve_iteration (shuffle k) m node rest) as [[m1 s1]|e] eqn:E;
      [|discriminate].
    destruct (IH _ _ _ H) as (-> & -> & -> & ->).
    unfold carve_iteration in E. apply bind_ok_inv in E as (n & _ & E).
    clear -E. revert E. generalize (if n =? 0 then rest else node :: rest).
    revert m. induction (shuffle k) as [|d ds IHd]; intros m s E; simpl in E.
    + by injection E as <- <-.
    + apply bind_ok_inv in E as ([m2 s2] & E2 & E).
      destruct (IHd _ _ E) as (-> & -> & -> & ->).
      apply carve_dir_cases in E2 as [(-> & _)|[[] _]]; [done|]. by repeat split.
Qed.

Lemma __init___dims (shuffle : nat -> list Direction) (n_rows n_cols : Z)
  (sp : coord) (gp : option coord) (m : Maze) :
  __init__ shuffle n_rows n_cols sp gp = Some (Ok m) ->
  _n_rows m = n_rows /\ _n_cols m = n_cols /\ _start_pos m = sp /\
  _goal_pos m = match gp with Some g => g | None => (n_rows - 1, n_cols - 1) end.
Proof.
  intros H. destruct (__init___inv _ _ _ _ _ _ H) as [_ Hin].
  rewrite (__init___unfold shuffle n_rows n_cols sp gp Hin) in H.
  by apply carve_loop_dims in H.
Qed.

Lemma fair_const (ds : list Direction) :
  ds ≡ₚ [NORTH; SOUTH; EAST; WEST] -> fair (const_shuffle ds).
Proof. intros H k. exact H. Qed.

Lemma fair_south_first : fair shuffle_south_first.
Proof.
  apply fair_const.
  transitivity [SOUTH; NORTH; EAST; WEST].
  - apply perm_skip, perm_swap.
  - apply perm_swap.
Qed.

(** With a fair generator the loop of [__init__] always halts: by an
    exception, or with an empty stack. *)
Lemma __init___halts (shuffle : nat -> list Direction) (n_rows n_cols : Z)
  (sp : coord) (gp : option coord) :
  fair shuffle -> exists r, __init__ shuffle n_rows n_cols sp gp = Some r.
Proof.
  intros Hfair.
  destruct (decide (0 <= sp.1 < n_rows /\ 0 <= sp.2 < n_cols)) as [Hin|Hout].
  - rewrite (__init___unfold shuffle n_rows n_cols sp gp Hin).
    destruct (carve_inv_start n_rows n_cols sp gp Hin) as [_ Hfuel].
    apply carve_loop_halts; [by apply fair_all | exact Hfuel].
  - rewrite (__init___rejects shuffle n_rows n_cols sp gp Hout). eauto.
Qed.

Lemma __init___succeeds (shuffle : nat -> list Direction) (n_rows n_cols : Z)
  (sp : coord) (gp : option coord) :
  fair shuffle -> n_rows <= n_cols ->
  0 <= sp.1 < n_rows /\ 0 <= sp.2 < n_cols ->
  exists m, __init__ shuffle n_rows n_cols sp gp = Some (Ok m).
Proof.
  intros Hfair Hsq Hin.
  destruct (__init___halts shuffle n_rows n_cols sp gp Hfair) as [r Hr].
  rewrite Hr. pose proof Hr as Hr'.
  rewrite (__init___unfold shuffle n_rows n_cols sp gp Hin) in Hr'.
  destruct (carve_inv_start n_rows n_cols sp gp Hin) as [Hinv _].
  destruct (carve_loop_succeeds _ _ _ _ _ _ Hinv Hsq Hr') as [m ->]. eauto.
Qed.

(** C4: a maze returned by the constructor, whatever the dimensions and
    the shuffles were, has exactly [n_rows * n_cols - 1] true entries in
    its two edge arrays together, and every cell of its grid is reached
    from the start cell by successful moves. *)
Theorem carved_maze_is_spanning_tree (shuffle : nat -> list Direction)
  (n_rows n_cols : Z) (start_pos : coord) (goal_pos : option coord) (m : Maze) :
  __init__ shuffle n_rows n_cols start_pos goal_pos = Some (Ok m) ->
  Z.of_nat (passages m) = n_rows * n_cols - 1 /\
  forall p, 0 <= p.1 < n_rows /\ 0 <= p.2 < n_cols -> reachable m start_pos p.
Proof.
  intros H.
  destruct (__init___inv _ _ _ _ _ _ H) as [Hinv _].
  destruct (__init___dims _ _ _ _ _ _ H) as (Hr & Hc & Hs & _).
  split.
  - rewrite <- Hr, <- Hc. by apply carve_inv_passages.
  - intros p Hp. rewrite <- Hs.
    assert (in_grid m p) as Hin by (unfold in_grid; by rewrite Hr, Hc).
    apply (inv_reach _ _ Hinv p Hin). by apply carve_inv_all_visited.
Qed.

Lemma carved_maze_is_spanning_tree_witness :
  exists m, __init__ shuffle_south_first 3 3 (0, 0) None = Some (Ok m) /\
    Z.of_nat (passages m) = 3 * 3 - 1 /\
    forall p, 0 <= p.1 < 3 /\ 0 <= p.2 < 3 -> reachable m (0, 0) p.
Proof.
  eexists. split; [vm_compute; reflexivity|].
  apply (carved_maze_is_spanning_tree shuffle_south_first 3 3 (0, 0) None).
  vm_compute; reflexivity.
Defined.

(** On a grid of one cell the loop makes one iteration that carves
    nothing, whatever the shuffle leaves. *)
Lemma __init___single_cell (shuffle : nat -> list Direction) :
  exists m, __init__ shuffle 1 1 (0, 0) None = Some (Ok m) /\
    passages m = 0%nat /\ _visited m = [true].
Proof.
  exists (mkMaze 1 1 (0, 0) (0, 0) [] [] [true]).
  split; [|by split].
  unfold __init__, _carve_paths, _carve_path_iter. simpl.
  unfold carve_iteration. simpl.
  assert (forall ds,
            for_each ds (carve_dir (0, 0))
              (mkMaze 1 1 (0, 0) (0, 0) [] [] [true], [])
            = Ok (mkMaze 1 1 (0, 0) (0, 0) [] [] [true], [])) as ->.
  { induction ds as [|d ds IH]; [reflexivity|].
    cbn [for_each]. by destruct d. }
  reflexivity.
Qed.

(** C2 (failing input): [Maze(3, 2)] with a generator that leaves south
    first in every shuffle.  The fourth iteration carves west from the
    cell (2, 1), and [_get_west_edge_idx] fails its row assertion, which
    compares the row with [_n_cols]. *)
Theorem maze_init_3x2_raises :
  fair shuffle_south_first /\
  __init__ shuffle_south_first 3 2 (0, 0) None = Some (Raise AssertionError).
Proof. split; [apply fair_south_first | vm_compute; reflexivity]. Qed.

(** C9 (failing input): on the 3x2 grid, entered at (0, 0) with south
    first in every shuffle, the loop is left by the assertion of
    [_get_west_edge_idx] in its fourth iteration: three iterations lead to
    a stack that holds five cells, with the cell (2, 0) not visited, and
    the next iteration raises. *)
Theorem carve_loop_3x2_aborts :
  let m0 := allocate 3 2 (0, 0) None in
  _carve_path_iter shuffle_south_first m0 (0, 0) = Some (Raise AssertionError) /\
  exists m1 m2 m3,
    carve_iteration (shuffle_south_first 0)
      (with_visited m0 (<[0%nat := true]> (_visited m0))) (0, 0) []
    = Ok (m1, [(0, 1); (1, 0); (0, 0)]) /\
    carve_iteration (shuffle_south_first 1) m1 (0, 1) [(1, 0); (0, 0)]
    = Ok (m2, [(1, 1); (0, 1); (1, 0); (0, 0)]) /\
    carve_iteration (shuffle_south_first 2) m2 (1, 1) [(0, 1); (1, 0); (0, 0)]
    = Ok (m3, [(2, 1); (1, 1); (0, 1); (1, 0); (0, 0)]) /\
    ~ visited_at m3 (2, 0) /\
    carve_iteration (shuffle_south_first 3) m3 (2, 1)
      [(1, 1); (0, 1); (1, 0); (0, 0)]
    = Raise AssertionError.
Proof.
  split; [vm_compute; reflexivity|].
  do 3 eexists.
  split; [vm_compute; reflexivity|].
  split; [vm_compute; reflexivity|].
  split; [vm_compute; reflexivity|].
  split; [|vm_compute; reflexivity].
  vm_compute. discriminate.
Qed.

(** C3 (as amended): the constructor raises [AssertionError] when
    [n_rows < 1], when [n_cols < 1] and when [start_pos] is outside the
    grid; it never looks at [goal_pos]; and with a start cell in the grid
    and no more rows than columns it returns a maze, whose goal is the
    [goal_pos] it was given. *)
Theorem maze_init_outcomes (shuffle : nat -> list Direction) (n_rows n_cols : Z)
  (start_pos : coord) (goal_pos : option coord) :
  fair shuffle ->
  (n_rows < 1 \/ n_cols < 1 \/
   ~ (0 <= start_pos.1 < n_rows /\ 0 <= start_pos.2 < n_cols) ->
   __init__ shuffle n_rows n_cols start_pos goal_pos
   = Some (Raise AssertionError)) /\
  (1 <= n_rows <= n_cols ->
   0 <= start_pos.1 < n_rows /\ 0 <= start_pos.2 < n_cols ->
   exists m, __init__ shuffle n_rows n_cols start_pos goal_pos = Some (Ok m) /\
     _goal_pos m = match goal_pos with
                   | Some g => g
                   | None => (n_rows - 1, n_cols - 1)
                   end).
Proof.
  intros Hfair. split.
  - intros H. apply __init___rejects. lia.
  - intros Hdims Hin.
    destruct (__init___succeeds shuffle n_rows n_cols start_pos goal_pos Hfair)
      as [m Hm]; [lia | done |].
    exists m. split; [done|].
    by destruct (__init___dims _ _ _ _ _ _ Hm) as (_ & _ & _ & Hg).
Qed.

Lemma maze_init_outcomes_witness :
  __init__ shuffle_south_first 0 5 (0, 0) None = Some (Raise AssertionError) /\
  exists m, __init__ shuffle_south_first 2 3 (1, 2) (Some (9, 9)) = Some (Ok m) /\
    _goal_pos m = (9, 9).
Proof.
  split.
  - apply (maze_init_outcomes shuffle_south_first 0 5 (0, 0) None fair_south_first).
    left. lia.
  - apply (maze_init_outcomes shuffle_south_first 2 3 (1, 2) (Some (9, 9))
             fair_south_first); simpl; lia.
Defined.

(** C3 (as stated) fails: a goal outside the grid is accepted, and a grid
    without rows is rejected by an [AssertionError]. *)
Lemma maze_init_counterexample :
  (exists m, __init__ shuffle_south_first 2 2 (0, 0) (Some (7, 7)) = Some (Ok m) /\
     _goal_pos m = (7, 7) /\ ~ in_grid m (7, 7)) /\
  __init__ shuffle_south_first 0 5 (0, 0) None = Some (Raise AssertionError).
Proof.
  split; [|vm_compute; reflexivity].
  eexists. split; [vm_compute; reflexivity|].
  split; [reflexivity|]. unfold in_grid; simpl; lia.
Qed.

(** ** Loops over a range *)

Lemma elem_of_range (n x : Z) : x ∈ range n <-> 0 <= x < n.
Proof.
  unfold range. rewrite list_elem_of_fmap. split.
  - intros (k & -> & Hk). apply elem_of_seq in Hk. lia.
  - intros Hx. exists (Z.to_nat x). split; [lia|]. apply elem_of_seq. lia.
Qed.

Lemma range_nonpos (n : Z) : n <= 0 -> range n = [].
Proof. intros H. unfold range. by replace (Z.to_nat n) with 0%nat by lia. Qed.

Lemma range_succ (n : Z) : 0 <= n -> range (n + 1) = range n ++ [n].
Proof.
  intros H. unfold range.
  replace (Z.to_nat (n + 1)) with (S (Z.to_nat n)) by lia.
  rewrite seq_S, map_app. simpl. by rewrite Z2Nat.id.
Qed.

Lemma for_each_app {A St : Type} (xs ys : list A) (body : A -> St -> result St)
  (s : St) :
  for_each (xs ++ ys) body s = (do s' <- for_each xs body s ;; for_each ys body s').
Proof.
  revert s. induction xs as [|x xs IH]; intros s; simpl; [reflexivity|].
  destruct (body x s); simpl; [apply IH | reflexivity].
Qed.

(** A loop whose body only appends to the string. *)
Lemma for_each_append {A : Type} (xs : list A) (body : A -> str -> result str)
  (f : A -> str) (ret : str) :
  (forall x r, x ∈ xs -> body x r = Ok (r ++ f x)) ->
  for_each xs body ret = Ok (ret ++ concat (map f xs)).
Proof.
  revert ret. induction xs as [|x xs IH]; intros ret H; simpl.
  - by rewrite app_nil_r.
  - rewrite H by (apply elem_of_cons; by left). simpl.
    rewrite IH, <- app_assoc; [reflexivity|].
    intros y r Hy. apply H, elem_of_cons. by right.
Qed.

(** A loop over [range(n)] with an invariant [P i s] on the number [i] of
    passes made and the state [s]. *)
Lemma for_each_range_inv {St : Type} (n : Z) (body : Z -> St -> result St)
  (P : Z -> St -> Prop) (s0 : St) :
  0 <= n -> P 0 s0 ->
  (forall i s, 0 <= i < n -> P i s -> exists s', body i s = Ok s' /\ P (i + 1) s') ->
  exists s', for_each (range n) body s0 = Ok s' /\ P n s'.
Proof.
  intros Hn H0 Hstep.
  assert (forall k : nat, Z.of_nat k <= n ->
            exists s', for_each (range (Z.of_nat k)) body s0 = Ok s'
                       /\ P (Z.of_nat k) s') as Hk.
  { induction k as [|k IH]; intros Hle.
    - exists s0. by split.
    - destruct IH as (s1 & H1 & HP1); [lia|].
      destruct (Hstep (Z.of_nat k) s1 ltac:(lia) HP1) as (s2 & H2 & HP2).
      exists s2. replace (Z.of_nat (S k)) with (Z.of_nat k + 1) by lia.
      rewrite range_succ, for_each_app, H1 by lia. simpl. rewrite H2. by split. }
  destruct (Hk (Z.to_nat n) ltac:(lia)) as (s' & H & HP).
  rewrite Z2Nat.id in H, HP by done. eauto.
Qed.

(** ** Textual rendering *)

Lemma py_index_default (l : list bool) (i : Z) :
  0 <= i < Z.of_nat (length l) ->
  py_index l i = Ok (default false (l !! Z.to_nat i)).
Proof.
  intros Hi. destruct (lookup_lt_is_Some_2 l (Z.to_nat i)) as [b Hb]; [lia|].
  rewrite Hb. simpl. apply py_index_lookup; [lia | done].
Qed.

Lemma repr_edge_step_text (m : Maze) (r e : Z) (ret : str) :
  wf m -> 0 < r < _n_rows m -> 0 <= e < _n_cols m ->
  repr_edge_step m (_n_cols m * (r - 1)) e ret = Ok (ret ++ edge_text m r e).
Proof.
  intros Hwf Hr He. unfold repr_edge_step, edge_text.
  rewrite py_index_default by (rewrite (wf_horizontal _ Hwf); nia). simpl.
  destruct (e <? _n_cols m - 1); by rewrite <- ?app_assoc.
Qed.

Lemma repr_cell_step_text (m : Maze) (r c : Z) (ret : str) :
  wf m -> 0 <= r < _n_rows m -> 0 <= c < _n_cols m ->
  repr_cell_step m r (_n_cols m * r - r) c ret = Ok (ret ++ cell_text m r c).
Proof.
  intros Hwf Hr Hc. unfold repr_cell_step, cell_text.
  destruct (Z.gtb_spec c 0) as [Hpos|Hz]; simpl.
  - rewrite py_index_default by (rewrite (wf_vertical _ Hwf); nia). simpl.
    by rewrite <- app_assoc.
  - reflexivity.
Qed.

Lemma repr_row_text (m : Maze) (r : Z) (ret : str) :
  wf m -> 0 <= r < _n_rows m -> repr_row m r ret = Ok (ret ++ row_text m r).
Proof.
  intros Hwf Hr. unfold repr_row, row_text.
  destruct (Z.gtb_spec r 0) as [Hpos|Hz]; simpl.
  - rewrite (for_each_append _ _ (edge_text m r)).
    2:{ intros e ret' He. apply elem_of_range in He.
        apply repr_edge_step_text; (done || lia). }
    simpl.
    rewrite (for_each_append _ _ (cell_text m r)).
    2:{ intros c ret' Hc. apply elem_of_range in Hc.
        by apply repr_cell_step_text. }
    simpl. f_equal. repeat (rewrite <- app_assoc; simpl). reflexivity.
  - rewrite (for_each_append _ _ (cell_text m r)).
    2:{ intros c ret' Hc. apply elem_of_range in Hc.
        by apply repr_cell_step_text. }
    simpl. f_equal. repeat (rewrite <- app_assoc; simpl). reflexivity.
Qed.

(** On a well-formed maze [__repr__] returns, and its text is laid out
    row by row and cell by cell. *)
Lemma __repr___text (m : Maze) : wf m -> __repr__ m = Ok (repr_text m).
Proof.
  intros Hwf. unfold __repr__, repr_text.
  rewrite (for_each_append _ _ (row_text m)).
  2:{ intros r ret' Hr. apply elem_of_range in Hr. by apply repr_row_text. }
  simpl. f_equal. repeat (rewrite <- app_assoc; simpl). reflexivity.
Qed.

Lemma str_count_app (c : ascii) (s t : str) :
  str_count c (s ++ t) = (str_count c s + str_count c t)%nat.
Proof. induction s as [|x s IH]; simpl; [reflexivity | rewrite IH; lia]. Qed.

Lemma str_count_replicate (c x : ascii) (n : nat) :
  Ascii.eqb x c = false -> str_count c (replicate n x) = 0%nat.
Proof. intros H. induction n as [|n IH]; simpl; [reflexivity | by rewrite H, IH]. Qed.

(** Counting in a text made of pieces of which at most the piece [a] holds
    the character. *)
Lemma str_count_concat_range (f : Z -> str) (c : ascii) (a n : Z) (w : nat) :
  (forall x, 0 <= x < n -> str_count c (f x) = if x =? a then w else 0%nat) ->
  str_count c (concat (map f (range n)))
  = if (0 <=? a) && (a <? n) then w else 0%nat.
Proof.
  intros H. destruct (Z.le_gt_cases n 0) as [Hn|Hn].
  { rewrite range_nonpos by done.
    destruct ((0 <=? a) && (a <? n)) eqn:E; [lia | reflexivity]. }
  assert (forall k : nat, Z.of_nat k <= n ->
            str_count c (concat (map f (range (Z.of_nat k))))
            = if (0 <=? a) && (a <? Z.of_nat k) then w else 0%nat) as Hk.
  { induction k as [|k IH]; intros Hle.
    - change (Z.of_nat 0) with 0. rewrite range_nonpos by lia.
      destruct ((0 <=? a) && (a <? 0)) eqn:E; [lia | reflexivity].
    - replace (Z.of_nat (S k)) with (Z.of_nat k + 1) by lia.
      rewrite range_succ, map_app, concat_app, str_count_app, IH by lia.
      simpl. rewrite app_nil_r, H by lia.
      destruct (Z.eqb_spec (Z.of_nat k) a) as [<-|Hne].
      + destruct ((0 <=? Z.of_nat k) && (Z.of_nat k <? Z.of_nat k)) eqn:E1; [lia|].
        destruct ((0 <=? Z.of_nat k) && (Z.of_nat k <? Z.of_nat k + 1)) eqn:E2;
          [reflexivity | lia].
      + destruct ((0 <=? a) && (a <? Z.of_nat k)) eqn:E1;
          destruct ((0 <=? a) && (a <? Z.of_nat k + 1)) eqn:E2; lia. }
  specialize (Hk (Z.to_nat n) ltac:(lia)). by rewrite Z2Nat.id in Hk by lia.
Qed.

Section Markers.
Variables (m : Maze) (X : ascii) (a b : Z) (flag : bool).
Hypothesis Hwf : wf m.
Hypothesis Hplus : Ascii.eqb "+" X = false.
Hypothesis Hminus : Ascii.eqb "-" X = false.
Hypothesis Hbar : Ascii.eqb "|" X = false.
Hypothesis Hspace : Ascii.eqb " " X = false.
Hypothesis Hnl : Ascii.eqb newline X = false.
Hypothesis Hmark : forall r c,
  Ascii.eqb (cell_marker m (r, c)) X = (r =? a) && (c =? b) && flag.

Lemma str_count_border : str_count X (repr_border m) = 0%nat.
Proof.
  unfold repr_border. rewrite !str_count_app, str_count_replicate by done.
  cbn [str_count app]. by rewrite Hplus.
Qed.

Lemma str_count_edge_text (r e : Z) : str_count X (edge_text m r e) = 0%nat.
Proof.
  unfold edge_text. rewrite str_count_app.
  destruct (default false _), (e <? _n_cols m - 1); cbn [str_count app];
    by rewrite ?Hspace, ?Hminus, ?Hplus.
Qed.

Lemma str_count_cell_text (r c : Z) :
  str_count X (cell_text m r c)
  = if c =? b then (if (r =? a) && flag then 1%nat else 0%nat) else 0%nat.
Proof.
  unfold cell_text. rewrite str_count_app.
  cbn [str_count]. rewrite Hmark.
  destruct (c >? 0); [destruct (default false _)|]; cbn [str_count];
    rewrite ?Hspace, ?Hbar;
    destruct (r =? a), (c =? b), flag; reflexivity.
Qed.

Lemma str_count_edge_line (r : Z) :
  str_count X (concat (map (edge_text m r) (range (_n_cols m)))) = 0%nat.
Proof.
  rewrite (str_count_concat_range (edge_text m r) X 0 (_n_cols m) 0).
  - by destruct (_ && _).
  - intros x _. rewrite str_count_edge_text. by destruct (x =? 0).
Qed.

Lemma str_count_row_text (r : Z) :
  str_count X (row_text m r)
  = if r =? a
    then (if flag && ((0 <=? b) && (b <? _n_cols m)) then 1%nat else 0%nat)
    else 0%nat.
Proof.
  unfold row_text. rewrite !str_count_app.
  rewrite (str_count_concat_range (cell_text m r) X b (_n_cols m)
             (if (r =? a) && flag then 1%nat else 0%nat))
    by (intros; apply str_count_cell_text).
  destruct (r >? 0); rewrite ?str_count_app, ?str_count_edge_line;
    cbn [str_count]; rewrite ?Hbar, ?Hnl;
    destruct (r =? a), flag, ((0 <=? b) && (b <? _n_cols m)); reflexivity.
Qed.

Lemma str_count_repr_text :
  str_count X (repr_text m)
  = if flag && ((0 <=? a) && (a <? _n_rows m))
            && ((0 <=? b) && (b <? _n_cols m))
    then 1%nat else 0%nat.
Proof.
  unfold repr_text. rewrite !str_count_app, str_count_border.
  rewrite (str_count_concat_range (row_text m) X a (_n_rows m)
             (if flag && ((0 <=? b) && (b <? _n_cols m)) then 1%nat else 0%nat))
    by (intros; apply str_count_row_text).
  cbn [str_count app]. rewrite Hnl.
  destruct flag, ((0 <=? a) && (a <? _n_rows m)),
    ((0 <=? b) && (b <? _n_cols m)); reflexivity.
Qed.
End Markers.

Lemma coord_eqb_eq (p q : coord) : coord_eqb p q = true <-> p = q.
Proof.
  destruct p as [r c], q as [r' c']. unfold coord_eqb. simpl.
  split; [intros H; f_equal; lia | intros [= -> ->]; lia].
Qed.

(** The number of ['S'] and of ['G'] in the rendering. *)
Lemma str_count_S (m : Maze) :
  wf m ->
  str_count "S" (repr_text m)
  = if ((0 <=? (_start_pos m).1) && ((_start_pos m).1 <? _n_rows m))
       && ((0 <=? (_start_pos m).2) && ((_start_pos m).2 <? _n_cols m))
    then 1%nat else 0%nat.
Proof.
  intros Hwf.
  rewrite (str_count_repr_text m "S" (_start_pos m).1 (_start_pos m).2 true);
    try reflexivity.
  intros r c. unfold cell_marker, coord_eqb. cbn [fst snd].
  rewrite (Z.eqb_sym r), (Z.eqb_sym c).
  destruct ((_start_pos m).1 =? r), ((_start_pos m).2 =? c); cbn [andb];
    try reflexivity; by destruct (_ && _).
Qed.

Lemma str_count_G (m : Maze) :
  wf m ->
  str_count "G" (repr_text m)
  = if negb (coord_eqb (_start_pos m) (_goal_pos m))
       && ((0 <=? (_goal_pos m).1) && ((_goal_pos m).1 <? _n_rows m))
       && ((0 <=? (_goal_pos m).2) && ((_goal_pos m).2 <? _n_cols m))
    then 1%nat else 0%nat.
Proof.
  intros Hwf.
  rewrite (str_count_repr_text m "G" (_goal_pos m).1 (_goal_pos m).2
             (negb (coord_eqb (_start_pos m) (_goal_pos m))));
    try reflexivity.
  intros r c. unfold cell_marker.
  destruct (coord_eqb (_goal_pos m) (r, c)) eqn:Eg.
  - apply coord_eqb_eq in Eg. rewrite Eg. simpl. rewrite !Z.eqb_refl. simpl.
    by destruct (coord_eqb (_start_pos m) (r, c)).
  - assert ((r =? (_goal_pos m).1) && (c =? (_goal_pos m).2) = false) as ->.
    { unfold coord_eqb in Eg. simpl in Eg. lia. }
    simpl. by destruct (coord_eqb (_start_pos m) (r, c)).
Qed.

(** *** Where a cell stands in the text *)

Lemma length_concat_range (f : Z -> str) (L : Z -> Z) (n : Z) :
  0 <= n -> L 0 = 0 ->
  (forall x, 0 <= x < n -> Z.of_nat (length (f x)) = L (x + 1) - L x) ->
  Z.of_nat (length (concat (map f (range n)))) = L n.
Proof.
  intros Hn H0 H.
  assert (forall k : nat, Z.of_nat k <= n ->
            Z.of_nat (length (concat (map f (range (Z.of_nat k)))))
            = L (Z.of_nat k)) as Hk.
  { induction k as [|k IH]; intros Hle.
    - change (Z.of_nat 0) with 0. rewrite range_nonpos by lia. simpl. lia.
    - replace (Z.of_nat (S k)) with (Z.of_nat k + 1) by lia.
      rewrite range_succ, map_app, concat_app, length_app by lia.
      cbn [map concat]. rewrite app_nil_r, Nat2Z.inj_add, IH, H by lia. lia. }
  specialize (Hk (Z.to_nat n) ltac:(lia)). by rewrite Z2Nat.id in Hk by lia.
Qed.

Lemma range_split (n x : Z) :
  0 <= x < n -> exists tl, range n = range x ++ x :: tl.
Proof.
  intros Hx.
  assert (forall k : nat,
            exists tl, range (x + 1 + Z.of_nat k) = range x ++ x :: tl) as Hk.
  { induction k as [|k [tl IH]].
    - exists []. rewrite Z.add_0_r. apply range_succ. lia.
    - exists (tl ++ [x + 1 + Z.of_nat k]).
      replace (x + 1 + Z.of_nat (S k)) with (x + 1 + Z.of_nat k + 1) by lia.
      rewrite range_succ, IH by lia. by rewrite <- app_assoc. }
  destruct (Hk (Z.to_nat (n - x - 1))) as [tl Htl]. exists tl.
  rewrite <- Htl. f_equal. lia.
Qed.

Section Layout.
Variable m : Maze.
Hypothesis Hcols : 1 <= _n_cols m.

Lemma length_repr_border :
  Z.of_nat (length (repr_border m)) = line_width m - 1.
Proof.
  unfold repr_border, line_width. rewrite !length_app, length_replicate. simpl. lia.
Qed.

Lemma length_edge_line (r : Z) :
  Z.of_nat (length (concat (map (edge_text m r) (range (_n_cols m)))))
  = line_width m - 3.
Proof.
  unfold line_width.
  rewrite (length_concat_range _
             (fun k => if k <? _n_cols m then 2 * k else 2 * _n_cols m - 1));
    [| lia | |].
  - destruct (Z.ltb_spec (_n_cols m) (_n_cols m)); lia.
  - destruct (Z.ltb_spec 0 (_n_cols m)); lia.
  - intros x Hx. unfold edge_text. rewrite length_app. simpl.
    destruct (Z.ltb_spec x (_n_cols m - 1)), (Z.ltb_spec (x + 1) (_n_cols m)),
      (Z.ltb_spec x (_n_cols m)); simpl; lia.
Qed.

Lemma length_cells_prefix (r c : Z) :
  0 <= c ->
  Z.of_nat (length (concat (map (cell_text m r) (range c))))
  = if c =? 0 then 0 else 2 * c - 1.
Proof.
  intros Hc.
  rewrite (length_concat_range _ (fun k => if k =? 0 then 0 else 2 * k - 1));
    [reflexivity | done | reflexivity |].
  intros x Hx. unfold cell_text. rewrite length_app. simpl.
  destruct (Z.gtb_spec x 0), (Z.eqb_spec (x + 1) 0), (Z.eqb_spec x 0);
    simpl; lia.
Qed.

Lemma length_row_text (r : Z) :
  Z.of_nat (length (row_text m r))
  = if r >? 0 then 2 * line_width m else line_width m.
Proof.
  unfold row_text. rewrite !length_app, !Nat2Z.inj_add.
  rewrite (length_cells_prefix r (_n_cols m)) by lia.
  destruct (Z.eqb_spec (_n_cols m) 0); [lia|].
  destruct (r >? 0).
  - rewrite !length_app, !Nat2Z.inj_add, length_edge_line.
    unfold line_width. simpl. lia.
  - unfold line_width. simpl. lia.
Qed.

Lemma length_rows_prefix (r : Z) :
  0 <= r ->
  Z.of_nat (length (concat (map (row_text m) (range r))))
  = if r =? 0 then 0 else line_width m * (2 * r - 1).
Proof.
  intros Hr.
  rewrite (length_concat_range _
             (fun k => if k =? 0 then 0 else line_width m * (2 * k - 1)));
    [reflexivity | done | reflexivity |].
  intros x Hx. rewrite length_row_text. unfold line_width.
  destruct (Z.gtb_spec x 0), (Z.eqb_spec (x + 1) 0), (Z.eqb_spec x 0); lia.
Qed.

(** The character at [marker_offset] is the character of the cell. *)
Lemma repr_text_marker (cell : coord) :
  in_grid m cell ->
  repr_text m !! marker_offset m cell = Some (cell_marker m cell).
Proof.
  destruct cell as [r c]. intros [Hr Hc]. simpl in Hr, Hc.
  destruct (range_split (_n_rows m) r Hr) as [rt Hrt].
  destruct (range_split (_n_cols m) c Hc) as [ct Hct].
  set (RA := concat (map (row_text m) (range r))).
  set (CA := concat (map (cell_text m r) (range c))).
  set (E := if r >? 0
            then ["|"%char] ++ concat (map (edge_text m r) (range (_n_cols m)))
                 ++ ["|"%char; newline]
            else []).
  set (Wl := if c >? 0
             then [if default false
                        (_vertical_edges m
                           !! Z.to_nat (_n_cols m * r - r + c - 1))
                   then " "%char else "|"%char]
             else []).
  assert (exists post,
            repr_text m
            = ((repr_border m ++ [newline]) ++ RA ++ E ++ ["|"%char] ++ CA ++ Wl)
              ++ cell_marker m (r, c) :: post) as [post ->].
  { unfold repr_text. rewrite Hrt, map_app, concat_app. cbn [map concat].
    fold RA. unfold row_text at 1. fold E.
    rewrite Hct, map_app, concat_app. cbn [map concat]. fold CA.
    unfold cell_text at 1. fold Wl.
    eexists. repeat (rewrite <- app_assoc; cbn [app]). reflexivity. }
  apply list_lookup_middle. unfold marker_offset, line_width. cbn [fst snd].
  apply Nat2Z.inj. rewrite Z2Nat.id by nia.
  rewrite !length_app, !Nat2Z.inj_add, length_repr_border.
  unfold line_width.
  unfold RA, CA. rewrite length_rows_prefix, length_cells_prefix by lia.
  assert (Z.of_nat (length E) = if r >? 0 then line_width m else 0) as ->.
  { unfold E. destruct (r >? 0); [|reflexivity].
    rewrite !length_app, !Nat2Z.inj_add, length_edge_line.
    unfold line_width. simpl. lia. }
  assert (Z.of_nat (length Wl) = if c >? 0 then 1 else 0) as ->.
  { unfold Wl. by destruct (c >? 0). }
  simpl length. unfold line_width.
  destruct (Z.gtb_spec r 0), (Z.eqb_spec r 0), (Z.gtb_spec c 0),
    (Z.eqb_spec c 0); lia.
Qed.
End Layout.

Lemma __init___wf (shuffle : nat -> list Direction) (n_rows n_cols : Z)
  (sp : coord) (gp : option coord) (m : Maze) :
  __init__ shuffle n_rows n_cols sp gp = Some (Ok m) ->
  wf m /\ in_grid m (_start_pos m).
Proof.
  intros H. destruct (__init___inv _ _ _ _ _ _ H) as [Hinv _].
  split; [apply (inv_wf _ _ Hinv) | apply (inv_start _ _ Hinv)].
Qed.

Lemma __repr___wf (m : Maze) :
  wf m -> in_grid m (_start_pos m) ->
  exists s, __repr__ m = Ok s /\
    str_count "S" s = 1%nat /\
    s !! marker_offset m (_start_pos m) = Some "S"%char /\
    (_start_pos m = _goal_pos m -> str_count "G" s = 0%nat) /\
    (str_count "G" s = 1%nat <->
     _start_pos m <> _goal_pos m /\ in_grid m (_goal_pos m)).
Proof.
  intros Hwf Hs. exists (repr_text m).
  split; [by apply __repr___text|].
  split.
  { rewrite (str_count_S m Hwf). destruct Hs.
    destruct (_ && _) eqn:E; [reflexivity | lia]. }
  split.
  { rewrite (repr_text_marker m (wf_cols _ Hwf) _ Hs). f_equal.
    unfold cell_marker.
    by rewrite (proj2 (coord_eqb_eq (_start_pos m) (_start_pos m)) eq_refl). }
  split.
  { intros Heq. rewrite (str_count_G m Hwf).
    by rewrite (proj2 (coord_eqb_eq _ _) Heq). }
  rewrite (str_count_G m Hwf). unfold in_grid.
  destruct (coord_eqb (_start_pos m) (_goal_pos m)) eqn:E.
  - apply coord_eqb_eq in E. cbn [negb andb].
    split; [discriminate | intros [? _]; done].
  - assert (_start_pos m <> _goal_pos m) as Hne.
    { intros Heq. apply coord_eqb_eq in Heq. congruence. }
    cbn [negb andb]. destruct (_ && _) eqn:E2.
    + split; [intros _; split; [done | lia] | done].
    + split; [discriminate | intros [_ ?]; lia].
Qed.

(** C10: for every maze that the constructor returns, the rendering has
    exactly one ['S'], at the place of the start cell.  When the goal is
    the start cell the rendering has no ['G'] at all.  It has exactly one
    ['G'] exactly when the goal is a cell of the grid other than the start
    cell, so one ['S'] and one ['G'] appear only for distinct start and
    goal cells. *)
Theorem repr_start_shadows_goal (shuffle : nat -> list Direction)
  (n_rows n_cols : Z) (start_pos : coord) (goal_pos : option coord) (m : Maze) :
  __init__ shuffle n_rows n_cols start_pos goal_pos = Some (Ok m) ->
  exists s, __repr__ m = Ok s /\
    str_count "S" s = 1%nat /\
    s !! marker_offset m (_start_pos m) = Some "S"%char /\
    (_start_pos m = _goal_pos m -> str_count "G" s = 0%nat) /\
    (str_count "G" s = 1%nat <->
     _start_pos m <> _goal_pos m /\ in_grid m (_goal_pos m)) /\
    (str_count "S" s = 1%nat /\ str_count "G" s = 1%nat ->
     _start_pos m <> _goal_pos m).
Proof.
  intros H. destruct (__init___wf _ _ _ _ _ _ H) as [Hwf Hs].
  destruct (__repr___wf m Hwf Hs) as (s & Hrepr & HS & Hat & Hno & HG).
  exists s. repeat (split; [assumption|]).
  intros [_ H1]. by apply HG in H1 as [? _].
Qed.

Lemma repr_start_shadows_goal_witness :
  exists m s, __init__ shuffle_south_first 2 2 (1, 1) None = Some (Ok m) /\
    __repr__ m = Ok s /\
    str_count "S" s = 1%nat /\ str_count "G" s = 0%nat /\
    s !! 21%nat = Some "S"%char.
Proof.
  eexists.
  destruct (repr_start_shadows_goal shuffle_south_first 2 2 (1, 1) None _
              ltac:(vm_compute; reflexivity))
    as (s & Hs & HS & Hat & HG & _).
  exists s. split; [reflexivity|]. split; [exact Hs|]. split; [exact HS|].
  split; [exact (HG eq_refl) | exact Hat].
Defined.

(** ** Binary connectivity map *)

Lemma py_index_nonneg {A : Type} (l : list A) (i : Z) :
  0 <= i ->
  py_index l i = match l !! Z.to_nat i with
                 | Some x => Ok x
                 | None => Raise IndexError
                 end.
Proof.
  intros Hi. destruct (l !! Z.to_nat i) as [x|] eqn:E.
  - by apply py_index_lookup.
  - apply py_index_beyond. apply lookup_ge_None in E. lia.
Qed.

Lemma shape_np_zeros (R C : Z) :
  0 <= R -> 0 <= C ->
  exists a, np_zeros R C = Ok a /\ shape a R C /\
    forall i j, 0 <= i < R -> 0 <= j < C -> np_getitem2 a i j = Ok 0.
Proof.
  intros HR HC. unfold np_zeros.
  destruct ((R <? 0) || (C <? 0)) eqn:E; [lia|].
  eexists. split; [reflexivity|]. split.
  - split; [rewrite length_replicate; lia|].
    intros i row Hrow. apply lookup_replicate in Hrow as [-> _].
    rewrite length_replicate; lia.
  - intros i j Hi Hj. unfold np_getitem2.
    rewrite py_index_nonneg, lookup_replicate_2 by lia. simpl.
    by rewrite py_index_nonneg, lookup_replicate_2 by lia.
Qed.

Lemma np_setitem2_shape (a : list (list Z)) (R C i j x : Z) :
  shape a R C -> 0 <= i < R -> 0 <= j < C ->
  exists a', np_setitem2 a i j x = Ok a' /\ shape a' R C /\
    forall i' j', 0 <= i' -> 0 <= j' ->
      np_getitem2 a' i' j'
      = if (i' =? i) && (j' =? j) then Ok x else np_getitem2 a i' j'.
Proof.
  intros [Hlen Hrows] Hi Hj. unfold np_setitem2.
  destruct (lookup_lt_is_Some_2 a (Z.to_nat i)) as [row Hrow]; [lia|].
  pose proof (Hrows _ _ Hrow) as Hrl.
  rewrite py_index_nonneg, Hrow by lia. simpl.
  rewrite py_setitem_in_range by lia. simpl.
  rewrite py_setitem_in_range by lia.
  eexists. split; [reflexivity|]. split.
  - split; [by rewrite length_insert|].
    intros k row' Hk.
    destruct (decide (Z.to_nat i = k)) as [<-|Hne].
    + rewrite list_lookup_insert_eq in Hk by lia. injection Hk as <-.
      by rewrite length_insert.
    + rewrite list_lookup_insert_ne in Hk by done. by apply (Hrows k).
  - intros i' j' Hi' Hj'. unfold np_getitem2.
    rewrite !(py_index_nonneg _ i') by done.
    destruct (Z.eqb_spec i' i) as [->|Hne]; simpl.
    + rewrite list_lookup_insert_eq, Hrow by lia. simpl.
      rewrite !(py_index_nonneg _ j') by done.
      destruct (Z.eqb_spec j' j) as [->|Hnj].
      * by rewrite list_lookup_insert_eq by lia.
      * by rewrite list_lookup_insert_ne by lia.
    + by rewrite list_lookup_insert_ne by lia.
Qed.

(** The four kinds of entries. *)
Lemma bmap_entry_cell (m : Maze) (r c : Z) : bmap_entry m (2 * r) (2 * c) = 1.
Proof.
  unfold bmap_entry.
  replace ((2 * r) mod 2) with 0 by (Z.div_mod_to_equations; lia).
  by replace ((2 * c) mod 2) with 0 by (Z.div_mod_to_equations; lia).
Qed.

Lemma bmap_entry_vertical (m : Maze) (r c : Z) :
  bmap_entry m (2 * r) (2 * c - 1)
  = Z.b2z (default false
             (_vertical_edges m !! Z.to_nat (_n_cols m * r - r + c - 1))).
Proof.
  unfold bmap_entry.
  replace ((2 * r) mod 2) with 0 by (Z.div_mod_to_equations; lia).
  replace ((2 * c - 1) mod 2) with 1 by (Z.div_mod_to_equations; lia).
  replace (2 * r / 2) with r by (Z.div_mod_to_equations; lia).
  by replace ((2 * c - 1 + 1) / 2) with c by (Z.div_mod_to_equations; lia).
Qed.

Lemma bmap_entry_horizontal (m : Maze) (r c : Z) :
  bmap_entry m (2 * r - 1) (2 * c)
  = Z.b2z (default false
             (_horizontal_edges m !! Z.to_nat (_n_cols m * (r - 1) + c))).
Proof.
  unfold bmap_entry.
  replace ((2 * r - 1) mod 2) with 1 by (Z.div_mod_to_equations; lia).
  replace ((2 * c) mod 2) with 0 by (Z.div_mod_to_equations; lia).
  replace ((2 * r - 1 + 1) / 2) with r by (Z.div_mod_to_equations; lia).
  by replace (2 * c / 2) with c by (Z.div_mod_to_equations; lia).
Qed.

Lemma bmap_entry_corner (m : Maze) (r c : Z) :
  bmap_entry m (2 * r - 1) (2 * c - 1) = 0.
Proof.
  unfold bmap_entry.
  replace ((2 * r - 1) mod 2) with 1 by (Z.div_mod_to_equations; lia).
  by replace ((2 * c - 1) mod 2) with 1 by (Z.div_mod_to_equations; lia).
Qed.

Section BinaryMap.
Variable m : Maze.
Hypothesis Hwf : wf m.

(** Writing the entry at [(k, w)] moves the frontier one column on. *)
Lemma filled_write (k w x : Z) (ret : list (list Z)) :
  0 <= k < (bmap_rows m) -> 0 <= w < (bmap_cols m) -> x = bmap_entry m k w ->
  filled m k w ret ->
  exists ret', np_setitem2 ret k w x = Ok ret' /\ filled m k (w + 1) ret'.
Proof.
  intros Hk Hw -> [Hshape Hget].
  destruct (np_setitem2_shape ret (bmap_rows m) (bmap_cols m) k w
              (bmap_entry m k w) Hshape Hk Hw)
    as (ret' & -> & Hshape' & Hget').
  exists ret'. split; [reflexivity|]. split; [done|].
  intros i j Hi Hj. rewrite Hget', Hget by lia.
  destruct (Z.eqb_spec i k) as [->|Hne]; [|reflexivity].
  rewrite Z.ltb_irrefl. cbn [orb andb].
  destruct (Z.eqb_spec j w) as [->|Hnj].
  - by replace (w <? w + 1) with true by lia.
  - f_equal. destruct (Z.ltb_spec j w), (Z.ltb_spec j (w + 1)); lia || done.
Qed.

Lemma filled_next_row (k : Z) (ret : list (list Z)) :
  filled m k (bmap_cols m) ret <-> filled m (k + 1) 0 ret.
Proof.
  unfold filled. split; intros [Hshape Hget]; (split; [done|]);
    intros i j Hi Hj; rewrite Hget by done; f_equal;
    destruct (Z.ltb_spec i k), (Z.ltb_spec i (k + 1)), (Z.eqb_spec i k),
      (Z.eqb_spec i (k + 1)), (Z.ltb_spec j (bmap_cols m)), (Z.ltb_spec j 0);
    cbn [orb andb]; lia || done.
Qed.

Lemma bmap_cell_step_filled (ri c : Z) (ret : list (list Z)) :
  0 <= ri < _n_rows m -> 0 <= c < _n_cols m ->
  filled m (2 * ri) (if c =? 0 then 0 else 2 * c - 1) ret ->
  exists ret',
    bmap_cell_step m (2 * ri) ri (_n_cols m * ri - ri) c ret = Ok ret' /\
    filled m (2 * ri) (2 * c + 1) ret'.
Proof.
  intros Hr Hc Hf.
  pose proof (wf_vertical _ Hwf) as Hv.
  unfold bmap_cell_step.
  destruct (Z.eqb_spec c 0) as [->|Hne].
  - simpl (0 >? 0). cbn [bind].
    apply (filled_write (2 * ri) (2 * 0));
      [unfold bmap_rows; lia | unfold bmap_cols; lia | | done].
    by rewrite bmap_entry_cell.
  - replace (c >? 0) with true by lia.
    rewrite py_index_default by nia. cbn [bind].
    destruct (filled_write (2 * ri) (2 * c - 1)
                (1 * Z.b2z (default false
                   (_vertical_edges m
                      !! Z.to_nat (_n_cols m * ri - ri + c - 1)))) ret)
      as (ret1 & -> & Hf1); [unfold bmap_rows; lia | unfold bmap_cols; lia | | done |].
    { rewrite bmap_entry_vertical. lia. }
    cbn [bind]. replace (2 * c - 1 + 1) with (2 * c) in Hf1 by lia.
    apply (filled_write (2 * ri) (2 * c));
      [unfold bmap_rows; lia | unfold bmap_cols; lia | | done].
    by rewrite bmap_entry_cell.
Qed.

Lemma bmap_edge_step_filled (ri c : Z) (ret : list (list Z)) :
  0 < ri < _n_rows m -> 0 <= c < _n_cols m ->
  filled m (2 * ri - 1) (if c =? 0 then 0 else 2 * c - 1) ret ->
  exists ret',
    bmap_edge_step m (2 * ri - 1) ri c ret = Ok ret' /\
    filled m (2 * ri - 1) (2 * c + 1) ret'.
Proof.
  intros Hr Hc Hf.
  pose proof (wf_horizontal _ Hwf) as Hh.
  unfold bmap_edge_step. rewrite py_index_default by nia. cbn [bind].
  apply (filled_write (2 * ri - 1) (2 * c));
    [unfold bmap_rows; lia | unfold bmap_cols; lia | |].
  { rewrite bmap_entry_horizontal. lia. }
  destruct (Z.eqb_spec c 0) as [->|Hne]; [done|].
  (* the corner before this edge holds its final value, 0, already *)
  destruct Hf as [Hshape Hget]. split; [done|].
  intros i j Hi Hj. rewrite Hget by done. f_equal.
  destruct (Z.ltb_spec i (2 * ri - 1)); cbn [orb]; [done|].
  destruct (Z.eqb_spec i (2 * ri - 1)) as [->|]; cbn [andb]; [|done].
  destruct (Z.ltb_spec j (2 * c - 1)), (Z.ltb_spec j (2 * c)); try lia; try done.
  replace j with (2 * c - 1) by lia. by rewrite bmap_entry_corner.
Qed.

Lemma bmap_row_filled (r : Z) (ret : list (list Z)) :
  0 <= r < (bmap_rows m) -> filled m r 0 ret ->
  exists ret', bmap_row m r ret = Ok ret' /\ filled m (r + 1) 0 ret'.
Proof.
  intros Hr Hf. pose proof (wf_cols _ Hwf) as Hcols. unfold bmap_row.
  destruct (Z.eqb_spec (r mod 2) 0) as [Heven|Hodd].
  - assert (r = 2 * (r / 2)) as Hr2 by (Z.div_mod_to_equations; lia).
    set (ri := r / 2) in *. rewrite Hr2 in Hf |- *.
    replace (2 * ri / 2) with ri by (Z.div_mod_to_equations; lia).
    destruct (for_each_range_inv (_n_cols m)
                (bmap_cell_step m (2 * ri) ri (_n_cols m * ri - ri))
                (fun c a => filled m (2 * ri) (if c =? 0 then 0 else 2 * c - 1) a)
                ret) as (ret' & -> & Hf'); [lia | done | |].
    + intros c a Hc Ha.
      destruct (bmap_cell_step_filled ri c a) as (a' & -> & Ha');
        [unfold bmap_rows in Hr; lia | done | done |].
      exists a'. split; [reflexivity|].
      destruct (Z.eqb_spec (c + 1) 0); [lia|].
      by replace (2 * (c + 1) - 1) with (2 * c + 1) by lia.
    + exists ret'. split; [reflexivity|]. apply filled_next_row.
      destruct (Z.eqb_spec (_n_cols m) 0); [lia|].
      by replace (bmap_cols m) with (2 * _n_cols m - 1) by (unfold bmap_cols; lia).
  - assert (r = 2 * ((r + 1) / 2) - 1) as Hr2 by (Z.div_mod_to_equations; lia).
    set (ri := (r + 1) / 2) in *. rewrite Hr2 in Hf |- *.
    replace (2 * ri - 1 + 1) with (2 * ri) by lia.
    assert (0 < ri) as Hpos by lia.
    replace (ri >? 0) with true by lia.
    destruct (for_each_range_inv (_n_cols m)
                (bmap_edge_step m (2 * ri - 1) ri)
                (fun c a =>
                   filled m (2 * ri - 1) (if c =? 0 then 0 else 2 * c - 1) a)
                ret) as (ret' & -> & Hf'); [lia | done | |].
    + intros c a Hc Ha.
      destruct (bmap_edge_step_filled ri c a) as (a' & -> & Ha');
        [unfold bmap_rows in Hr; lia | done | done |].
      exists a'. split; [reflexivity|].
      destruct (Z.eqb_spec (c + 1) 0); [lia|].
      by replace (2 * (c + 1) - 1) with (2 * c + 1) by lia.
    + exists ret'. split; [reflexivity|].
      replace (2 * ri) with (2 * ri - 1 + 1) by lia. apply filled_next_row.
      destruct (Z.eqb_spec (_n_cols m) 0); [lia|].
      by replace (bmap_cols m) with (2 * _n_cols m - 1) by (unfold bmap_cols; lia).
Qed.

(** On a well-formed maze [make_binary_map] returns, and every entry of
    the array is the [bmap_entry] of its place. *)
Lemma make_binary_map_entries :
  exists g, make_binary_map m = Ok g /\ shape g (bmap_rows m) (bmap_cols m) /\
    forall i j, 0 <= i < (bmap_rows m) -> 0 <= j < (bmap_cols m) ->
      np_getitem2 g i j = Ok (bmap_entry m i j).
Proof.
  pose proof (wf_rows _ Hwf) as Hrows. pose proof (wf_cols _ Hwf) as Hcols.
  unfold make_binary_map. fold (bmap_rows m) (bmap_cols m).
  destruct (shape_np_zeros (bmap_rows m) (bmap_cols m)) as (a0 & -> & Hshape0 & Hzero);
    [unfold bmap_rows; lia | unfold bmap_cols; lia |]. cbn [bind].
  destruct (for_each_range_inv (bmap_rows m) (bmap_row m) (fun k a => filled m k 0 a) a0)
    as (g & -> & [Hshape Hget]); [unfold bmap_rows; lia | | |].
  - split; [done|]. intros i j Hi Hj. rewrite Hzero by done. f_equal.
    destruct (Z.ltb_spec i 0), (Z.eqb_spec i 0), (Z.ltb_spec j 0);
      cbn [orb andb]; lia || done.
  - intros k a Hk Ha. by apply bmap_row_filled.
  - exists g. split; [reflexivity|]. split; [done|].
    intros i j Hi Hj. rewrite Hget by done.
    by replace (i <? (bmap_rows m)) with true by lia.
Qed.
End BinaryMap.

Lemma make_binary_map_wf (m : Maze) :
  wf m ->
  exists g, make_binary_map m = Ok g /\
    shape g (2 * _n_rows m - 1) (2 * _n_cols m - 1) /\
    (forall r c, 0 <= r < _n_rows m -> 0 <= c < _n_cols m ->
       np_getitem2 g (2 * r) (2 * c) = Ok 1) /\
    (forall r c, 1 <= r < _n_rows m -> 1 <= c < _n_cols m ->
       np_getitem2 g (2 * r - 1) (2 * c - 1) = Ok 0) /\
    (forall r c, 0 <= r < _n_rows m -> 1 <= c < _n_cols m ->
       exists b : bool,
         edge_list m Vertical !! Z.to_nat (canon_idx m (Vertical, (r, c - 1)))
         = Some b /\
         np_getitem2 g (2 * r) (2 * c - 1) = Ok (if b then 1 else 0)) /\
    (forall r c, 1 <= r < _n_rows m -> 0 <= c < _n_cols m ->
       exists b : bool,
         edge_list m Horizontal !! Z.to_nat (canon_idx m (Horizontal, (r - 1, c)))
         = Some b /\
         np_getitem2 g (2 * r - 1) (2 * c) = Ok (if b then 1 else 0)) /\
    (_n_rows m = 1 -> _n_cols m = 1 -> g = [[1]]).
Proof.
  intros Hwf.
  destruct (make_binary_map_entries m Hwf) as (g & Hg & Hshape & Hget).
  unfold bmap_rows, bmap_cols in *.
  replace (_n_rows m + (_n_rows m - 1)) with (2 * _n_rows m - 1) in * by lia.
  replace (_n_cols m + (_n_cols m - 1)) with (2 * _n_cols m - 1) in * by lia.
  exists g. split; [done|]. split; [done|].
  split; [|split; [|split; [|split]]].
  - intros r c Hr Hc. rewrite Hget by lia. by rewrite bmap_entry_cell.
  - intros r c Hr Hc. rewrite Hget by lia. by rewrite bmap_entry_corner.
  - intros r c Hr Hc. unfold canon_idx. cbn [fst snd edge_list].
    destruct (lookup_lt_is_Some_2 (_vertical_edges m)
                (Z.to_nat (_n_cols m * r - r + (c - 1)))) as [b Hb].
    { pose proof (wf_vertical _ Hwf). nia. }
    exists b. split; [done|].
    rewrite Hget, bmap_entry_vertical by lia.
    replace (_n_cols m * r - r + c - 1) with (_n_cols m * r - r + (c - 1)) by lia.
    rewrite Hb. by destruct b.
  - intros r c Hr Hc. unfold canon_idx. cbn [fst snd edge_list].
    destruct (lookup_lt_is_Some_2 (_horizontal_edges m)
                (Z.to_nat (_n_cols m * (r - 1) + c))) as [b Hb].
    { pose proof (wf_horizontal _ Hwf). nia. }
    exists b. split; [done|].
    rewrite Hget, bmap_entry_horizontal by lia. rewrite Hb. by destruct b.
  - intros Hr Hc. rewrite Hr, Hc in *.
    specialize (Hget 0 0 ltac:(lia) ltac:(lia)).
    destruct Hshape as [Hlen Hrowlen].
    destruct g as [|row [|? ?]]; simpl in Hlen; try lia.
    specialize (Hrowlen 0%nat row eq_refl).
    destruct row as [|x [|? ?]]; simpl in Hrowlen; try lia.
    vm_compute in Hget. by injection Hget as ->.
Qed.

(** C6: for every maze that the constructor returns, [make_binary_map]
    returns an array of [2 * n_rows - 1] rows of [2 * n_cols - 1] entries.
    Its entry at (2r, 2c) is 1; its entry at (2r - 1, 2c - 1) is 0; its
    entry at (2r, 2c - 1) is 1 or 0 as the vertical edge between the cells
    (r, c - 1) and (r, c) is a passage or not; its entry at (2r - 1, 2c) is 1
    or 0 as the horizontal edge between the cells (r - 1, c) and (r, c) is a
    passage or not.  For the grid of one cell the array is [[1]]. *)
Theorem make_binary_map_content (shuffle : nat -> list Direction)
  (n_rows n_cols : Z) (start_pos : coord) (goal_pos : option coord) (m : Maze) :
  __init__ shuffle n_rows n_cols start_pos goal_pos = Some (Ok m) ->
  exists g, make_binary_map m = Ok g /\
    shape g (2 * n_rows - 1) (2 * n_cols - 1) /\
    (forall r c, 0 <= r < n_rows -> 0 <= c < n_cols ->
       np_getitem2 g (2 * r) (2 * c) = Ok 1) /\
    (forall r c, 1 <= r < n_rows -> 1 <= c < n_cols ->
       np_getitem2 g (2 * r - 1) (2 * c - 1) = Ok 0) /\
    (forall r c, 0 <= r < n_rows -> 1 <= c < n_cols ->
       exists b : bool,
         edge_list m Vertical !! Z.to_nat (canon_idx m (Vertical, (r, c - 1)))
         = Some b /\
         np_getitem2 g (2 * r) (2 * c - 1) = Ok (if b then 1 else 0)) /\
    (forall r c, 1 <= r < n_rows -> 0 <= c < n_cols ->
       exists b : bool,
         edge_list m Horizontal !! Z.to_nat (canon_idx m (Horizontal, (r - 1, c)))
         = Some b /\
         np_getitem2 g (2 * r - 1) (2 * c) = Ok (if b then 1 else 0)) /\
    (n_rows = 1 -> n_cols = 1 -> g = [[1]]).
Proof.
  intros H.
  destruct (__init___wf _ _ _ _ _ _ H) as [Hwf _].
  destruct (__init___dims _ _ _ _ _ _ H) as (<- & <- & _).
  by apply make_binary_map_wf.
Qed.

Lemma make_binary_map_content_witness :
  exists m g, __init__ shuffle_south_first 2 2 (0, 0) None = Some (Ok m) /\
    make_binary_map m = Ok g /\
    np_getitem2 g 0 0 = Ok 1 /\ np_getitem2 g 1 1 = Ok 0.
Proof.
  eexists.
  destruct (make_binary_map_content shuffle_south_first 2 2 (0, 0) None _
              ltac:(vm_compute; reflexivity))
    as (g & Hg & _ & Hcell & Hcorner & _).
  exists g. split; [reflexivity|]. split; [exact Hg|].
  split; [apply (Hcell 0 0); lia | apply (Hcorner 1 1); lia].
Defined.

(** * Further properties of the index arithmetic and of the facade *)

(** ** Cell indices *)

Lemma in_gridb_spec (m : Maze) (p : coord) : in_gridb m p = true <-> in_grid m p.
Proof. unfold in_gridb, in_grid. lia. Qed.

Lemma _get_cell_index_outside (m : Maze) (r c : Z) :
  ~ in_grid m (r, c) -> _get_cell_index m r c = Raise AssertionError.
Proof.
  unfold in_grid, _get_cell_index. simpl. intros H.
  destruct ((r >=? 0) && (r <? _n_rows m)) eqn:E1; [|reflexivity].
  destruct ((c >=? 0) && (c <? _n_cols m)) eqn:E2; [|reflexivity].
  exfalso. apply H. lia.
Qed.

(** X1: [_get_cell_index] is a bijection between the cells of the grid
    and the indices of [_visited]: it is injective, its values lie in
    [0, n_rows * n_cols), every such index is the index of a cell, and outside
    the grid it fails its assertion. *)
Theorem cell_index_bijection (m : Maze) :
  1 <= _n_cols m ->
  (forall r c i, _get_cell_index m r c = Ok i -> 0 <= i < _n_rows m * _n_cols m) /\
  (forall r c r' c' i, _get_cell_index m r c = Ok i ->
     _get_cell_index m r' c' = Ok i -> r = r' /\ c = c') /\
  (forall i, 0 <= i < _n_rows m * _n_cols m ->
     exists r c, _get_cell_index m r c = Ok i) /\
  (forall r c, ~ in_grid m (r, c) -> _get_cell_index m r c = Raise AssertionError).
Proof.
  intros Hc. split; [|split; [|split]].
  - apply _get_cell_index_range.
  - apply _get_cell_index_inj.
  - intros i Hi. exists (i / _n_cols m), (i mod _n_cols m).
    assert (in_grid m (i / _n_cols m, i mod _n_cols m)) as Hin.
    { split; simpl.
      - split; [apply Z.div_pos; lia | apply Z.div_lt_upper_bound; nia].
      - apply Z.mod_pos_bound. lia. }
    pose proof (_get_cell_index_in_grid m _ Hin) as Hidx. simpl in Hidx.
    rewrite Hidx. f_equal.
    pose proof (Z.div_mod i (_n_cols m) ltac:(lia)). lia.
  - apply _get_cell_index_outside.
Qed.

Lemma cell_index_bijection_witness :
  exists m, __init__ shuffle_south_first 2 3 (0, 0) None = Some (Ok m) /\
    exists r c, _get_cell_index m r c = Ok 5.
Proof.
  eexists. split; [vm_compute; reflexivity|].
  match goal with
  | |- exists r c, _get_cell_index ?m r c = _ =>
      destruct (cell_index_bijection m) as (_ & _ & Hsurj & _); [simpl; lia|]
  end.
  apply Hsurj. simpl. lia.
Defined.

(** X2: on a square grid with at least one cell [_get_cell_coords] and [_get_cell_index] are
    inverse to each other. *)
Theorem cell_coords_square_inverse (m : Maze) :
  1 <= _n_rows m -> _n_rows m = _n_cols m ->
  (forall r c i, _get_cell_index m r c = Ok i -> _get_cell_coords m i = Ok (r, c)) /\
  (forall i r c, _get_cell_coords m i = Ok (r, c) -> _get_cell_index m r c = Ok i).
Proof.
  intros Hpos Hsq. split; [intros r c i; by apply _get_cell_coords_square|].
  intros i r c H. unfold _get_cell_coords in H.
  apply bind_ok_inv in H as (u & Hu & H). apply py_assert_ok in Hu.
  injection H as <- <-.
  assert (in_grid m (i / _n_rows m, i mod _n_rows m)) as Hin.
  { split; simpl.
    - split; [apply Z.div_pos; lia | apply Z.div_lt_upper_bound; nia].
    - rewrite <- Hsq. apply Z.mod_pos_bound. lia. }
  pose proof (_get_cell_index_in_grid m _ Hin) as Hi. simpl in Hi.
  rewrite Hi. f_equal. rewrite <- Hsq.
  pose proof (Z.div_mod i (_n_rows m) ltac:(lia)). lia.
Qed.

Lemma cell_coords_square_inverse_witness :
  exists m, __init__ shuffle_south_first 3 3 (0, 0) None = Some (Ok m) /\
    _get_cell_coords m 5 = Ok (1, 2) /\ _get_cell_index m 1 2 = Ok 5.
Proof.
  eexists. split; [vm_compute; reflexivity|].
  match goal with
  | |- _get_cell_coords ?m _ = _ /\ _ =>
      destruct (cell_coords_square_inverse m ltac:(simpl; lia) eq_refl)
        as [H1 H2]
  end.
  split; [apply H1; reflexivity | apply H2; reflexivity].
Defined.

(** X3: [_get_cell_coords] fails its assertion outside
    [0, n_cols * n_rows); inside, it returns the quotient and the remainder of
    the index by [_n_rows]: a pair [(r, c)] with [r * n_rows + c] the index,
    [0 <= c < n_rows] and [0 <= r < n_cols]. *)
Theorem cell_coords_quotient_remainder (m : Maze) (i : Z) :
  1 <= _n_rows m ->
  (~ (0 <= i < _n_cols m * _n_rows m) ->
   _get_cell_coords m i = Raise AssertionError) /\
  (0 <= i < _n_cols m * _n_rows m ->
   exists r c, _get_cell_coords m i = Ok (r, c) /\
     r * _n_rows m + c = i /\ 0 <= c < _n_rows m /\ 0 <= r < _n_cols m).
Proof.
  intros Hr. unfold _get_cell_coords. split; intros Hi.
  - by rewrite py_assert_false by lia.
  - rewrite py_assert_true by lia. simpl.
    exists (i / _n_rows m), (i mod _n_rows m). split; [reflexivity|].
    pose proof (Z.div_mod i (_n_rows m) ltac:(lia)).
    pose proof (Z.mod_pos_bound i (_n_rows m) ltac:(lia)).
    repeat split; try lia.
    + apply Z.div_pos; lia.
    + apply Z.div_lt_upper_bound; nia.
Qed.

Lemma cell_coords_quotient_remainder_witness :
  exists m, __init__ shuffle_south_first 2 3 (0, 0) None = Some (Ok m) /\
    _get_cell_coords m 6 = Raise AssertionError /\
    exists r c, _get_cell_coords m 5 = Ok (r, c) /\ r * 2 + c = 5.
Proof.
  eexists. split; [vm_compute; reflexivity|].
  match goal with
  | |- _get_cell_coords ?m _ = _ /\ _ =>
      pose proof (cell_coords_quotient_remainder m 6 ltac:(simpl; lia)) as [H6 _];
      pose proof (cell_coords_quotient_remainder m 5 ltac:(simpl; lia)) as [_ H5]
  end.
  split; [apply H6; simpl; lia|].
  destruct H5 as (r & c & H & Heq & _); [simpl; lia|].
  exists r, c. split; [exact H | exact Heq].
Defined.

(** ** Edge indices and edge flags *)

Lemma edge_array_of_opposite (d : Direction) :
  edge_array_of (opposite d) = edge_array_of d.
Proof. by destruct d. Qed.

Lemma physical_edge_opposite (p : coord) (d : Direction) :
  physical_edge (neighbor_cell p d) (opposite d) = physical_edge p d.
Proof.
  destruct p as [r c], d; simpl; f_equal; f_equal; lia.
Qed.

Lemma neighbor_cell_opposite (p : coord) (d : Direction) :
  neighbor_cell (neighbor_cell p d) (opposite d) = p.
Proof. destruct p as [r c], d; simpl; f_equal; lia. Qed.

(** X4: the index that [_get_edge_idx] returns for a cell of the grid lies
    within the array of its direction, and two calls that return the same
    index of the same array name the same physical edge. *)
Theorem edge_index_unique (m : Maze) (p p' : coord) (d d' : Direction) (i : Z) :
  in_grid m p ->
  _get_edge_idx m p.1 p.2 d = Ok i ->
  0 <= i < edge_array_length m (edge_array_of d) /\
  (_get_edge_idx m p'.1 p'.2 d' = Ok i ->
   edge_array_of d = edge_array_of d' ->
   physical_edge p d = physical_edge p' d').
Proof.
  intros Hp Hi. split.
  - destruct p as [r c]. by apply (edge_idx_in_range m r c i d).
  - intros Hi' Harr. destruct p as [r c], p' as [r' c'].
    by apply (edge_idx_inj m r c r' c' i).
Qed.

Lemma edge_index_unique_witness :
  exists m, __init__ shuffle_south_first 3 3 (0, 0) None = Some (Ok m) /\
    0 <= 4 < edge_array_length m Horizontal.
Proof.
  eexists. split; [vm_compute; reflexivity|].
  match goal with
  | |- 0 <= 4 < edge_array_length ?m _ =>
      apply (edge_index_unique m (2, 1) (2, 1) NORTH NORTH 4)
  end.
  - unfold in_grid; simpl; lia.
  - reflexivity.
Defined.

(** X5: whenever a cell gets an index for its edge in a direction, the
    neighbouring cell gets the same index for that edge in the opposite
    direction. *)
Theorem edge_index_shared (m : Maze) (p : coord) (d : Direction) (i : Z) :
  _get_edge_idx m p.1 p.2 d = Ok i ->
  _get_edge_idx m (neighbor_cell p d).1 (neighbor_cell p d).2 (opposite d) = Ok i.
Proof.
  intros H. apply _get_edge_idx_ok in H. destruct p as [r c].
  destruct d; destruct H as [[Hr Hc] ->]; simpl in *;
    unfold _get_north_edge_idx, _get_south_edge_idx, _get_east_edge_idx,
      _get_west_edge_idx;
    rewrite !py_assert_true by lia; simpl; f_equal; lia.
Qed.

Lemma edge_index_shared_witness :
  exists m, __init__ shuffle_south_first 3 3 (0, 0) None = Some (Ok m) /\
    _get_edge_idx m 1 2 WEST = Ok 3.
Proof.
  eexists. split; [vm_compute; reflexivity|].
  match goal with
  | |- _get_edge_idx ?m _ _ _ = _ =>
      apply (edge_index_shared m (1, 1) EAST 3)
  end.
  reflexivity.
Defined.

Lemma _get_edge_at_via_list (m : Maze) (r c : Z) (d : Direction) :
  _get_edge_at m r c d
  = (do i <- _get_edge_idx m r c d ;; py_index (edge_list m (edge_array_of d)) i).
Proof. unfold _get_edge_at. by destruct d. Qed.

Lemma _get_edge_idx_dims (m m' : Maze) (r c : Z) (d : Direction) :
  _n_rows m' = _n_rows m -> _n_cols m' = _n_cols m ->
  _get_edge_idx m' r c d = _get_edge_idx m r c d.
Proof.
  intros Hr Hc. destruct d; simpl;
    unfold _get_north_edge_idx, _get_south_edge_idx, _get_east_edge_idx,
      _get_west_edge_idx; by rewrite ?Hr, ?Hc.
Qed.

Lemma _get_edge_idx_nonneg (m : Maze) (r c i : Z) (d : Direction) :
  _get_edge_idx m r c d = Ok i -> 0 <= i.
Proof.
  intros H. apply _get_edge_idx_ok in H.
  destruct d; destruct H as [[? ?] ->]; nia.
Qed.

Lemma _set_edge_at_inv (m m' : Maze) (r c : Z) (d : Direction) (val : bool) :
  _set_edge_at m r c d val = Ok m' ->
  exists i, _get_edge_idx m r c d = Ok i /\
    (Z.to_nat i < length (edge_list m (edge_array_of d)))%nat /\
    edge_list m' (edge_array_of d)
    = <[Z.to_nat i := val]> (edge_list m (edge_array_of d)) /\
    (forall a, a <> edge_array_of d -> edge_list m' a = edge_list m a) /\
    _n_rows m' = _n_rows m /\ _n_cols m' = _n_cols m /\
    _start_pos m' = _start_pos m /\ _goal_pos m' = _goal_pos m /\
    _visited m' = _visited m.
Proof.
  unfold _set_edge_at. intros H.
  apply bind_ok_inv in H as (i & Hi & H). exists i.
  pose proof (_get_edge_idx_nonneg _ _ _ _ _ Hi) as Hnn.
  split; [assumption|].
  destruct d; simpl in *; apply bind_ok_inv in H as (l & Hl & H);
    injection H as <-; apply py_setitem_ok in Hl as [-> Hlt]; try assumption;
    simpl; (split; [lia|]); (split; [reflexivity|]);
    (split; [intros [] Ha; (reflexivity || congruence)|]); repeat split.
Qed.

(** X6: after [_set_edge_at] has stored a flag for an edge, [_get_edge_at]
    returns that flag from the same cell and also from the neighbouring
    cell in the opposite direction, and it returns what it returned before
    for every other physical edge. *)
Theorem set_edge_then_get_edge (m m' : Maze) (p : coord) (d : Direction)
  (val : bool) :
  _set_edge_at m p.1 p.2 d val = Ok m' ->
  _get_edge_at m' p.1 p.2 d = Ok val /\
  _get_edge_at m' (neighbor_cell p d).1 (neighbor_cell p d).2 (opposite d)
  = Ok val /\
  (forall p' d', physical_edge p' d' <> physical_edge p d ->
     _get_edge_at m' p'.1 p'.2 d' = _get_edge_at m p'.1 p'.2 d').
Proof.
  intros H.
  apply _set_edge_at_inv in H
    as (i & Hi & Hlt & Hedge & Hother & Hr & Hc & _).
  pose proof (_get_edge_idx_nonneg _ _ _ _ _ Hi) as Hnn.
  assert (py_index (edge_list m' (edge_array_of d)) i = Ok val) as Hread.
  { apply py_index_lookup; [done|]. rewrite Hedge.
    by apply list_lookup_insert_eq. }
  split; [|split].
  - rewrite _get_edge_at_via_list, (_get_edge_idx_dims m m') by done.
    by rewrite Hi.
  - rewrite _get_edge_at_via_list, (_get_edge_idx_dims m m') by done.
    rewrite (edge_index_shared m p d i Hi). simpl.
    by rewrite edge_array_of_opposite.
  - intros p' d' Hne.
    rewrite !_get_edge_at_via_list, (_get_edge_idx_dims m m') by done.
    destruct (_get_edge_idx m p'.1 p'.2 d') as [i'|e] eqn:Hi'; [|reflexivity].
    simpl.
    destruct (decide (edge_array_of d' = edge_array_of d)) as [Ea|Ea].
    + rewrite Ea.
      assert (i' <> i) as Hni.
      { intros ->. apply Hne. destruct p as [r c], p' as [r' c'].
        by apply (edge_idx_inj m r' c' r c i). }
      pose proof (_get_edge_idx_nonneg _ _ _ _ _ Hi') as Hnn'.
      rewrite !py_index_nonneg, Hedge by done.
      by rewrite list_lookup_insert_ne by lia.
    + by rewrite Hother.
Qed.

Lemma set_edge_then_get_edge_witness :
  exists m m', __init__ shuffle_south_first 2 2 (0, 0) None = Some (Ok m) /\
    _set_edge_at m 0 0 EAST false = Ok m' /\
    _get_edge_at m' 0 1 WEST = Ok false.
Proof.
  exists (mkMaze 2 2 (0, 0) (1, 1) [true; true] [true; false]
            [true; true; true; true]).
  exists (mkMaze 2 2 (0, 0) (1, 1) [true; true] [false; false]
            [true; true; true; true]).
  split; [vm_compute; reflexivity|].
  assert (_set_edge_at
            (mkMaze 2 2 (0, 0) (1, 1) [true; true] [true; false]
               [true; true; true; true]) 0 0 EAST false
          = Ok (mkMaze 2 2 (0, 0) (1, 1) [true; true] [false; false]
                  [true; true; true; true])) as Hset by reflexivity.
  split; [exact Hset|].
  exact (proj1 (proj2 (set_edge_then_get_edge _ _ (0, 0) EAST false Hset))).
Defined.

(** ** Moving *)

Lemma move_ok_inv (m : Maze) (p q : coord) (d : Direction) (b : bool) :
  move m p d = Ok (b, q) ->
  exists i, _get_edge_idx m p.1 p.2 d = Ok i /\
    py_index (edge_list m (edge_array_of d)) i = Ok b /\
    q = (if b then neighbor_cell p d else p) /\
    (b = true -> in_grid m p).
Proof.
  unfold move. rewrite _get_edge_at_via_list. intros H.
  apply bind_ok_inv in H as (e & He & H).
  apply bind_ok_inv in He as (i & Hi & He). exists i.
  destruct e; simpl in H.
  - apply bind_ok_inv in H as (n & Hn & H). injection H as <- <-.
    destruct p as [r c]. apply _get_cell_at_ok in Hn as [Hp ->].
    split; [exact Hi|]. split; [exact He|]. split; [reflexivity|].
    intros _. exact Hp.
  - injection H as <- <-.
    split; [exact Hi|]. split; [exact He|]. split; [reflexivity|].
    discriminate.
Qed.

(** The cell beyond an edge that has an index is a cell of the grid. *)
Lemma neighbor_in_grid (m : Maze) (p : coord) (d : Direction) (i : Z) :
  in_grid m p -> _get_edge_idx m p.1 p.2 d = Ok i ->
  in_grid m (neighbor_cell p d).
Proof.
  intros [Hr Hc] H. apply _get_edge_idx_ok in H. destruct p as [r c].
  destruct d; destruct H as [[? ?] _]; unfold in_grid; simpl in *; lia.
Qed.

(** X7: passages are two-way: when [move] carries [p] to [q] in a
    direction, [move] carries [q] back to [p] in the opposite direction. *)
Theorem move_reversible (m : Maze) (p q : coord) (d : Direction) :
  move m p d = Ok (true, q) -> move m q (opposite d) = Ok (true, p).
Proof.
  intros H. apply move_ok_inv in H as (i & Hi & Hb & -> & Hp).
  specialize (Hp eq_refl).
  pose proof (neighbor_in_grid m p d i Hp Hi) as Hq.
  rewrite (move_of_edge m (neighbor_cell p d) (opposite d) true Hq).
  - by rewrite neighbor_cell_opposite.
  - rewrite _get_edge_at_via_list, (edge_index_shared m p d i Hi). simpl.
    by rewrite edge_array_of_opposite.
Qed.

Lemma move_reversible_witness :
  exists m, __init__ shuffle_south_first 2 2 (0, 0) None = Some (Ok m) /\
    move m (1, 0) NORTH = Ok (true, (0, 0)).
Proof.
  eexists. split; [vm_compute; reflexivity|].
  apply (move_reversible _ (0, 0) (1, 0) SOUTH). vm_compute; reflexivity.
Defined.

(** X8: [move] never leaves the grid and never jumps: from a cell of the
    grid, whatever it returns is a cell of the grid, the same cell when
    the flag is [False] and the neighbour in the direction asked when the
    flag is [True]. *)
Theorem move_stays_in_grid (m : Maze) (p q : coord) (d : Direction) (b : bool) :
  in_grid m p -> move m p d = Ok (b, q) ->
  in_grid m q /\ q = (if b then neighbor_cell p d else p).
Proof.
  intros Hp H. apply move_ok_inv in H as (i & Hi & _ & -> & _).
  split; [|reflexivity]. destruct b; [|done].
  by apply (neighbor_in_grid m p d i).
Qed.

Lemma move_stays_in_grid_witness :
  exists m, __init__ shuffle_south_first 2 2 (0, 0) None = Some (Ok m) /\
    in_grid m (1, 0) /\ (1, 0) = neighbor_cell (0, 0) SOUTH.
Proof.
  eexists. split; [vm_compute; reflexivity|].
  apply (move_stays_in_grid _ (0, 0) (1, 0) SOUTH true).
  - unfold in_grid; simpl; lia.
  - vm_compute; reflexivity.
Defined.

(** ** Counting the neighbours that are not visited *)

Lemma count_if_not_visited_open (m : Maze) (p : coord) (d : Direction)
  (guard : bool) (acc : Z) :
  wf m -> (guard = in_gridb m (neighbor_cell p d)) ->
  count_if_not_visited m guard (neighbor_cell p d).1 (neighbor_cell p d).2 acc
  = Ok (if open_neighbour m p d then acc + 1 else acc).
Proof.
  intros Hwf ->. unfold count_if_not_visited, open_neighbour, visitedb.
  destruct (in_gridb m (neighbor_cell p d)) eqn:E; [|reflexivity].
  apply in_gridb_spec in E.
  rewrite (_get_cell_index_in_grid m _ E). simpl.
  pose proof (cell_nat_range m _ E) as Hrange.
  destruct (lookup_lt_is_Some_2 (_visited m) (cell_nat m (neighbor_cell p d)))
    as [b Hb]; [pose proof (wf_visited _ Hwf); lia|].
  rewrite (py_index_lookup _ _ b); [|destruct E; nia|exact Hb].
  simpl. rewrite Hb. by destruct b.
Qed.

(** X9: for a cell of the grid, [_has_non_visited_neighbours] returns the
    number of its neighbours that lie in the grid and are not visited; in
    particular a number from 0 to 4. *)
Theorem has_non_visited_neighbours_counts (m : Maze) (p : coord) :
  wf m -> in_grid m p ->
  _has_non_visited_neighbours m p.1 p.2
  = Ok (Z.of_nat
          (length (filter (fun d => open_neighbour m p d = true)
                     [NORTH; SOUTH; WEST; EAST]))) /\
  (length (filter (fun d => open_neighbour m p d = true)
             [NORTH; SOUTH; WEST; EAST]) <= 4)%nat.
Proof.
  intros Hwf [Hr Hc]. split.
  - destruct p as [r c]. unfold _has_non_visited_neighbours. simpl in *.
    rewrite (count_if_not_visited_open m (r, c) NORTH _ 0 Hwf)
      by (unfold in_gridb; simpl; lia). cbn [bind].
    rewrite (count_if_not_visited_open m (r, c) SOUTH _ _ Hwf)
      by (unfold in_gridb; simpl; lia). cbn [bind].
    rewrite (count_if_not_visited_open m (r, c) WEST _ _ Hwf)
      by (unfold in_gridb; simpl; lia). cbn [bind].
    rewrite (count_if_not_visited_open m (r, c) EAST _ _ Hwf)
      by (unfold in_gridb; simpl; lia). cbn [bind].
    f_equal. rewrite !filter_cons, filter_nil.
    destruct (open_neighbour m (r, c) NORTH), (open_neighbour m (r, c) SOUTH),
      (open_neighbour m (r, c) WEST), (open_neighbour m (r, c) EAST);
      repeat case_decide; try congruence; reflexivity.
  - apply (length_filter (fun d => open_neighbour m p d = true)
             [NORTH; SOUTH; WEST; EAST]).
Qed.

Lemma has_non_visited_neighbours_counts_witness :
  _has_non_visited_neighbours (allocate 3 3 (0, 0) None) 1 1 = Ok 4.
Proof.
  refine (eq_trans
            (proj1 (has_non_visited_neighbours_counts
                      (allocate 3 3 (0, 0) None) (1, 1) _ _)) _).
  - apply allocate_wf; lia.
  - unfold in_grid; simpl; lia.
  - reflexivity.
Defined.

(** * Further properties of the carving engine *)

(** ** How carving can fail *)

Lemma _set_edge_at_outcome (m : Maze) (node : coord) (d : Direction) :
  wf m -> in_grid m node -> in_grid m (neighbor_cell node d) ->
  (exists m1, _set_edge_at m node.1 node.2 d true = Ok m1) \/
  (_set_edge_at m node.1 node.2 d true = Raise AssertionError /\
   2 <= _n_cols m <= node.1).
Proof.
  destruct node as [r c]. intros Hwf [Hr Hc] [Hr' Hc']. simpl in *.
  pose proof (wf_horizontal _ Hwf) as Hh. pose proof (wf_vertical _ Hwf) as Hv.
  destruct (Z.ltb_spec r (_n_cols m)) as [Hlt|Hge].
  - left. unfold _set_edge_at.
    destruct d; simpl in *;
      unfold _get_north_edge_idx, _get_south_edge_idx, _get_east_edge_idx,
        _get_west_edge_idx;
      rewrite !py_assert_true by lia; simpl;
      rewrite py_setitem_in_range by nia; simpl; eauto.
  - unfold _set_edge_at.
    destruct d; simpl in *;
      unfold _get_north_edge_idx, _get_south_edge_idx, _get_east_edge_idx,
        _get_west_edge_idx.
    + left. rewrite !py_assert_true by lia. simpl.
      rewrite py_setitem_in_range by nia. simpl. eauto.
    + left. rewrite !py_assert_true by lia. simpl.
      rewrite py_setitem_in_range by nia. simpl. eauto.
    + right. rewrite py_assert_false by lia. split; [reflexivity | lia].
    + right. rewrite py_assert_false by lia. split; [reflexivity | lia].
Qed.

Lemma carve_dir_outcome (node : coord) (d : Direction) (m : Maze) (s : list coord) :
  wf m -> in_grid m node ->
  (exists st, carve_dir node d (m, s) = Ok st) \/
  (carve_dir node d (m, s) = Raise AssertionError /\ 2 <= _n_cols m <= node.1).
Proof.
  intros Hwf Hnode. unfold carve_dir.
  rewrite (_get_cell_at_in_grid m node d Hnode). cbn [bind].
  set (next := neighbor_cell node d).
  destruct ((next.1 <? 0) || (next.1 >=? _n_rows m)) eqn:E1; [eauto|].
  destruct ((next.2 <? 0) || (next.2 >=? _n_cols m)) eqn:E2; [eauto|].
  assert (in_grid m next) as Hin by (unfold in_grid; lia).
  rewrite (_get_cell_index_in_grid _ _ Hin). cbn [bind].
  pose proof (wf_visited _ Hwf) as Hlen.
  assert (0 <= next.1 * _n_cols m + next.2 < Z.of_nat (length (_visited m)))
    as Hrange by (destruct Hin; nia).
  destruct (py_index_in_range (_visited m) _ Hrange) as [seen ->]. cbn [bind].
  destruct seen; [eauto|].
  destruct (_set_edge_at_outcome m node d Hwf Hnode Hin) as [[m1 Hm1]|[Hm1 Hb]].
  - left. rewrite Hm1. cbn [bind].
    apply (_set_edge_at_ok m node) in Hm1 as (_ & _ & _ & _ & _ & _ & _ & _ & Hv).
    rewrite Hv, py_setitem_in_range by done. cbn [bind]. eauto.
  - right. rewrite Hm1. by split.
Qed.

Lemma carve_dir_dims (node : coord) (d : Direction) (m m' : Maze)
  (s s' : list coord) :
  carve_dir node d (m, s) = Ok (m', s') ->
  wf m ->
  wf m' /\ _n_rows m' = _n_rows m /\ _n_cols m' = _n_cols m.
Proof.
  intros H Hwf. apply carve_dir_cases in H as [(-> & _)|[Hcv _]]; [done|].
  split; [by apply (carved_wf m m' node d)|].
  split; [apply (cv_rows _ _ _ _ Hcv) | apply (cv_cols _ _ _ _ Hcv)].
Qed.

Lemma for_each_carve_outcome (node : coord) (ds : list Direction) (m : Maze)
  (s : list coord) :
  wf m -> in_grid m node ->
  (exists m' s', for_each ds (carve_dir node) (m, s) = Ok (m', s') /\
     _n_rows m' = _n_rows m /\ _n_cols m' = _n_cols m) \/
  (for_each ds (carve_dir node) (m, s) = Raise AssertionError /\
   2 <= _n_cols m <= node.1).
Proof.
  revert m s. induction ds as [|d ds IH]; intros m s Hwf Hnode; cbn [for_each].
  - left. by exists m, s.
  - destruct (carve_dir_outcome node d m s Hwf Hnode) as [[[m1 s1] H1]|[H1 Hb]].
    + rewrite H1. cbn [bind].
      destruct (carve_dir_dims _ _ _ _ _ _ H1 Hwf) as (Hwf1 & Hr1 & Hc1).
      assert (in_grid m1 node) as Hnode1 by (unfold in_grid; by rewrite Hr1, Hc1).
      destruct (IH m1 s1 Hwf1 Hnode1) as [(m' & s' & H & Hr & Hc)|[H Hb]].
      * left. exists m', s'. split; [done|]. lia.
      * right. split; [done|]. lia.
    + right. rewrite H1. by split.
Qed.

Lemma carve_loop_outcome (shuffle : nat -> list Direction) (fuel k : nat)
  (m : Maze) (s : list coord) (e : exn) :
  carve_inv m s -> carve_loop shuffle fuel k m s = Some (Raise e) ->
  e = AssertionError /\ 2 <= _n_cols m < _n_rows m.
Proof.
  revert k m s. induction fuel as [|fuel IH]; intros k m s Hinv H.
  - destruct s; simpl in H; discriminate.
  - destruct s as [|node rest]; simpl in H; [discriminate|].
    destruct (inv_stack _ _ Hinv node ltac:(apply elem_of_cons; by left))
      as [Hnin _].
    pose proof (inv_wf _ _ Hinv) as Hwf.
    destruct (_has_non_visited_neighbours_in_grid m node Hwf Hnin) as [n Hn].
    destruct (for_each_carve_outcome node (shuffle k) m
                (if n =? 0 then rest else node :: rest) Hwf Hnin)
      as [(m1 & s1 & H1 & Hr1 & Hc1)|[H1 Hb]].
    + assert (carve_iteration (shuffle k) m node rest = Ok (m1, s1)) as E.
      { unfold carve_iteration. rewrite Hn. exact H1. }
      rewrite E in H. rewrite <- Hr1, <- Hc1.
      apply (IH (S k) m1 s1); [|done].
      by apply (carve_inv_iteration _ _ _ _ _ _ Hinv E).
    + assert (carve_iteration (shuffle k) m node rest = Raise AssertionError) as E.
      { unfold carve_iteration. rewrite Hn. exact H1. }
      rewrite E in H. injection H as <-. split; [reflexivity|].
      destruct Hnin. lia.
Qed.

(** X10: when the constructor raises, it raises [AssertionError], never
    [IndexError]; and it does so only when the start cell is outside the
    grid (which covers every grid without cells) or when the grid has at
    least two columns and more rows than columns. *)
Theorem construction_failure_modes (shuffle : nat -> list Direction)
  (n_rows n_cols : Z) (start_pos : coord) (goal_pos : option coord) (e : exn) :
  __init__ shuffle n_rows n_cols start_pos goal_pos = Some (Raise e) ->
  e = AssertionError /\
  (~ (0 <= start_pos.1 < n_rows /\ 0 <= start_pos.2 < n_cols) \/
   2 <= n_cols < n_rows).
Proof.
  intros H.
  destruct (decide (0 <= start_pos.1 < n_rows /\ 0 <= start_pos.2 < n_cols))
    as [Hin|Hout].
  - rewrite (__init___unfold shuffle n_rows n_cols start_pos goal_pos Hin) in H.
    destruct (carve_inv_start n_rows n_cols start_pos goal_pos Hin) as [Hinv _].
    destruct (carve_loop_outcome _ _ _ _ _ _ Hinv H) as [He Hb].
    split; [exact He|]. right. exact Hb.
  - rewrite (__init___rejects shuffle n_rows n_cols start_pos goal_pos Hout) in H.
    injection H as <-. split; [reflexivity | by left].
Qed.

Lemma construction_failure_modes_witness :
  AssertionError = AssertionError /\
  (~ (0 <= (0, 0).1 < 3 /\ 0 <= (0, 0).2 < 2) \/ 2 <= 2 < 3).
Proof.
  apply (construction_failure_modes shuffle_south_first 3 2 (0, 0) None).
  vm_compute; reflexivity.
Defined.

(** X11: with a fair generator the carving loop always comes to an end,
    within twice as many iterations as the grid has cells: the constructor
    returns a maze or raises, for every grid and every start. *)
Theorem construction_halts (shuffle : nat -> list Direction)
  (n_rows n_cols : Z) (start_pos : coord) (goal_pos : option coord) :
  fair shuffle ->
  exists r, __init__ shuffle n_rows n_cols start_pos goal_pos = Some r.
Proof.
  intros Hfair.
  destruct (decide (0 <= start_pos.1 < n_rows /\ 0 <= start_pos.2 < n_cols))
    as [Hin|Hout].
  - rewrite (__init___unfold shuffle n_rows n_cols start_pos goal_pos Hin).
    destruct (carve_inv_start n_rows n_cols start_pos goal_pos Hin) as [_ Hfuel].
    exact (carve_loop_halts shuffle (fair_all _ Hfair) _ 0%nat _ _ Hfuel).
  - rewrite (__init___rejects shuffle n_rows n_cols start_pos goal_pos Hout).
    eauto.
Qed.

Lemma construction_halts_witness :
  exists r, __init__ shuffle_south_first 3 2 (0, 0) None = Some r.
Proof.
  exact (construction_halts shuffle_south_first 3 2 (0, 0) None
           fair_south_first).
Defined.

(** X12: with a fair generator and a start cell in the grid, the
    constructor returns a maze whenever the grid has a single column or
    has no more rows than columns. *)
Theorem construction_succeeds (shuffle : nat -> list Direction)
  (n_rows n_cols : Z) (start_pos : coord) (goal_pos : option coord) :
  fair shuffle ->
  0 <= start_pos.1 < n_rows /\ 0 <= start_pos.2 < n_cols ->
  n_cols = 1 \/ n_rows <= n_cols ->
  exists m, __init__ shuffle n_rows n_cols start_pos goal_pos = Some (Ok m).
Proof.
  intros Hfair Hin Hshape.
  destruct (__init___halts shuffle n_rows n_cols start_pos goal_pos Hfair)
    as [[m|e] Hr]; [eauto|].
  rewrite (__init___unfold shuffle n_rows n_cols start_pos goal_pos Hin) in Hr.
  destruct (carve_inv_start n_rows n_cols start_pos goal_pos Hin) as [Hinv _].
  destruct (carve_loop_outcome _ _ _ _ _ _ Hinv Hr) as [_ Hb].
  simpl in Hb. lia.
Qed.

Lemma construction_succeeds_witness :
  exists m, __init__ shuffle_south_first 5 1 (2, 0) None = Some (Ok m).
Proof.
  apply (construction_succeeds shuffle_south_first 5 1 (2, 0) None
           fair_south_first); simpl; lia.
Defined.

(** X13: a maze that the constructor returns has the dimensions, the
    start and the goal it was given (the goal being the last cell by
    default), edge arrays of [(n_rows - 1) * n_cols] and
    [(n_cols - 1) * n_rows] flags, and a visited array of
    [n_rows * n_cols] flags that are all set. *)
Theorem constructed_maze_shape (shuffle : nat -> list Direction)
  (n_rows n_cols : Z) (start_pos : coord) (goal_pos : option coord) (m : Maze) :
  __init__ shuffle n_rows n_cols start_pos goal_pos = Some (Ok m) ->
  _n_rows m = n_rows /\ _n_cols m = n_cols /\ _start_pos m = start_pos /\
  _goal_pos m = match goal_pos with
                | Some g => g
                | None => (n_rows - 1, n_cols - 1)
                end /\
  Z.of_nat (length (_horizontal_edges m)) = (n_rows - 1) * n_cols /\
  Z.of_nat (length (_vertical_edges m)) = (n_cols - 1) * n_rows /\
  _visited m = replicate (Z.to_nat (n_rows * n_cols)) true.
Proof.
  intros H.
  destruct (__init___inv _ _ _ _ _ _ H) as [Hinv _].
  destruct (__init___dims _ _ _ _ _ _ H) as (Hr & Hc & Hs & Hg).
  pose proof (inv_wf _ _ Hinv) as [_ Hcols Hh Hv Hvis].
  pose proof (carve_inv_all_visited m Hinv) as Hall.
  clear H Hinv. subst n_rows n_cols.
  repeat (split; [first [assumption | reflexivity]|]).
  apply list_eq. intros i.
  destruct (decide (i < Z.to_nat (_n_rows m * _n_cols m))%nat) as [Hlt|Hge].
  - rewrite lookup_replicate_2 by done.
    specialize (Hall (Z.of_nat i / _n_cols m, Z.of_nat i mod _n_cols m)).
    unfold visited_at, cell_nat in Hall. simpl in Hall.
    replace (Z.of_nat i `div` _n_cols m * _n_cols m
             + Z.of_nat i `mod` _n_cols m)
      with (Z.of_nat i) in Hall
      by (pose proof (Z.div_mod (Z.of_nat i) (_n_cols m) ltac:(lia)); lia).
    rewrite Nat2Z.id in Hall. apply Hall. unfold in_grid. simpl.
    split.
    + split; [apply Z.div_pos; lia|]. apply Z.div_lt_upper_bound; nia.
    + apply Z.mod_pos_bound. lia.
  - rewrite (proj2 (lookup_ge_None _ _)) by lia.
    symmetry. apply lookup_ge_None. rewrite length_replicate. lia.
Qed.

Lemma constructed_maze_shape_witness :
  exists m, __init__ shuffle_south_first 2 3 (0, 0) None = Some (Ok m) /\
    _goal_pos m = (1, 2) /\
    _visited m = [true; true; true; true; true; true].
Proof.
  eexists. split; [vm_compute; reflexivity|].
  match goal with
  | |- _goal_pos ?m = _ /\ _ =>
      destruct (constructed_maze_shape shuffle_south_first 2 3 (0, 0) None m)
        as (_ & _ & _ & Hg & _ & _ & Hv); [vm_compute; reflexivity|]
  end.
  split; [exact Hg | exact Hv].
Defined.

(** * Further properties of the renderings *)

(** ** The layout of the text *)


Lemma length_edge_prefix (m : Maze) (r c : Z) :
  0 <= c < _n_cols m ->
  Z.of_nat (length (concat (map (edge_text m r) (range c)))) = 2 * c.
Proof.
  intros Hc.
  rewrite (length_concat_range _ (fun k => 2 * k)); [reflexivity | lia | reflexivity |].
  intros x Hx. unfold edge_text. rewrite length_app.
  replace (x <? _n_cols m - 1) with true by lia. simpl. lia.
Qed.

Lemma repr_text_vertical_wall (m : Maze) (r c : Z) :
  wf m -> 0 <= r < _n_rows m -> 1 <= c < _n_cols m ->
  repr_text m !! Z.to_nat ((2 * r + 1) * line_width m + 2 * c)
  = Some (if default false
               (_vertical_edges m !! Z.to_nat (_n_cols m * r - r + c - 1))
          then " "%char else "|"%char).
Proof.
  intros Hwf Hr Hc. pose proof (wf_cols _ Hwf) as Hcols.
  destruct (range_split (_n_rows m) r Hr) as [rt Hrt].
  destruct (range_split (_n_cols m) c ltac:(lia)) as [ct Hct].
  set (RA := concat (map (row_text m) (range r))).
  set (CA := concat (map (cell_text m r) (range c))).
  set (E := if r >? 0
            then ["|"%char] ++ concat (map (edge_text m r) (range (_n_cols m)))
                 ++ ["|"%char; newline]
            else []).
  set (x := if default false
                 (_vertical_edges m !! Z.to_nat (_n_cols m * r - r + c - 1))
            then " "%char else "|"%char).
  assert (exists post,
            repr_text m
            = ((repr_border m ++ [newline]) ++ RA ++ E ++ ["|"%char] ++ CA)
              ++ x :: post) as [post ->].
  { unfold repr_text. rewrite Hrt, map_app, concat_app. cbn [map concat].
    fold RA. unfold row_text at 1. fold E.
    rewrite Hct, map_app, concat_app. cbn [map concat]. fold CA.
    unfold cell_text at 1. replace (c >? 0) with true by lia. fold x.
    eexists. repeat (rewrite <- app_assoc; cbn [app]). reflexivity. }
  apply list_lookup_middle. unfold line_width.
  apply Nat2Z.inj. rewrite Z2Nat.id by nia.
  rewrite !length_app, !Nat2Z.inj_add, (length_repr_border m Hcols).
  unfold line_width.
  unfold RA, CA.
  rewrite (length_rows_prefix m Hcols), (length_cells_prefix m) by lia.
  assert (Z.of_nat (length E) = if r >? 0 then line_width m else 0) as ->.
  { unfold E. destruct (r >? 0); [|reflexivity].
    rewrite !length_app, !Nat2Z.inj_add, (length_edge_line m Hcols).
    unfold line_width. simpl. lia. }
  simpl length. unfold line_width.
  destruct (Z.gtb_spec r 0), (Z.eqb_spec r 0), (Z.eqb_spec c 0); lia.
Qed.

Lemma repr_text_horizontal_wall (m : Maze) (r c : Z) :
  wf m -> 1 <= r < _n_rows m -> 0 <= c < _n_cols m ->
  repr_text m !! Z.to_nat (2 * r * line_width m + 2 * c + 1)
  = Some (if default false
               (_horizontal_edges m !! Z.to_nat (_n_cols m * (r - 1) + c))
          then " "%char else "-"%char).
Proof.
  intros Hwf Hr Hc. pose proof (wf_cols _ Hwf) as Hcols.
  destruct (range_split (_n_rows m) r ltac:(lia)) as [rt Hrt].
  destruct (range_split (_n_cols m) c Hc) as [ct Hct].
  set (RA := concat (map (row_text m) (range r))).
  set (EA := concat (map (edge_text m r) (range c))).
  set (x := if default false
                 (_horizontal_edges m !! Z.to_nat (_n_cols m * (r - 1) + c))
            then " "%char else "-"%char).
  assert (exists post,
            repr_text m
            = ((repr_border m ++ [newline]) ++ RA ++ ["|"%char] ++ EA)
              ++ x :: post) as [post ->].
  { unfold repr_text. rewrite Hrt, map_app, concat_app. cbn [map concat].
    fold RA. unfold row_text at 1. replace (r >? 0) with true by lia.
    rewrite Hct, map_app, concat_app. cbn [map concat]. fold EA.
    unfold edge_text at 1. fold x.
    eexists. repeat (rewrite <- app_assoc; cbn [app]). reflexivity. }
  apply list_lookup_middle. unfold line_width.
  apply Nat2Z.inj. rewrite Z2Nat.id by nia.
  rewrite !length_app, !Nat2Z.inj_add, (length_repr_border m Hcols).
  unfold RA, EA.
  rewrite (length_rows_prefix m Hcols), (length_edge_prefix m) by lia.
  simpl length. unfold line_width.
  destruct (Z.eqb_spec r 0); lia.
Qed.



(** X15: in the text of a well-formed maze, the character between the
    cells (r, c - 1) and (r, c), on line [2 * r + 1] at column [2 * c], is a
    blank when the vertical edge between them is a passage and ['|'] when
    it is a wall; the character between the cells (r - 1, c) and (r, c), on
    line [2 * r] at column [2 * c + 1], is a blank when the horizontal edge
    between them is a passage and ['-'] when it is a wall. *)
Theorem repr_walls (m : Maze) :
  wf m ->
  exists s, __repr__ m = Ok s /\
    (forall r c, 0 <= r < _n_rows m -> 1 <= c < _n_cols m ->
       exists b : bool,
         edge_list m Vertical !! Z.to_nat (canon_idx m (Vertical, (r, c - 1)))
         = Some b /\
         s !! Z.to_nat ((2 * r + 1) * (2 * _n_cols m + 2) + 2 * c)
         = Some (if b then " "%char else "|"%char)) /\
    (forall r c, 1 <= r < _n_rows m -> 0 <= c < _n_cols m ->
       exists b : bool,
         edge_list m Horizontal !! Z.to_nat (canon_idx m (Horizontal, (r - 1, c)))
         = Some b /\
         s !! Z.to_nat (2 * r * (2 * _n_cols m + 2) + 2 * c + 1)
         = Some (if b then " "%char else "-"%char)).
Proof.
  intros Hwf. exists (repr_text m). split; [by apply __repr___text|].
  split.
  - intros r c Hr Hc. unfold canon_idx. cbn [fst snd edge_list].
    destruct (lookup_lt_is_Some_2 (_vertical_edges m)
                (Z.to_nat (_n_cols m * r - r + (c - 1)))) as [b Hb].
    { pose proof (wf_vertical _ Hwf). nia. }
    exists b. split; [done|].
    pose proof (repr_text_vertical_wall m r c Hwf Hr Hc) as H.
    unfold line_width in H. rewrite H.
    replace (_n_cols m * r - r + c - 1) with (_n_cols m * r - r + (c - 1)) by lia.
    by rewrite Hb.
  - intros r c Hr Hc. unfold canon_idx. cbn [fst snd edge_list].
    destruct (lookup_lt_is_Some_2 (_horizontal_edges m)
                (Z.to_nat (_n_cols m * (r - 1) + c))) as [b Hb].
    { pose proof (wf_horizontal _ Hwf). nia. }
    exists b. split; [done|].
    pose proof (repr_text_horizontal_wall m r c Hwf Hr Hc) as H.
    unfold line_width in H. rewrite H. by rewrite Hb.
Qed.

Lemma repr_walls_witness :
  exists s,
    __repr__ (mkMaze 2 2 (0, 0) (1, 1) [true; true] [true; false]
                [true; true; true; true]) = Ok s /\
    s !! 8%nat = Some " "%char /\ s !! 20%nat = Some "|"%char.
Proof.
  destruct (repr_walls (mkMaze 2 2 (0, 0) (1, 1) [true; true] [true; false]
                          [true; true; true; true]))
    as (s & Hs & Hv & _); [constructor; simpl; lia|].
  exists s. split; [exact Hs|].
  split.
  - destruct (Hv 0 1) as (b & Hb & Hat); [simpl; lia..|].
    injection Hb as <-. exact Hat.
  - destruct (Hv 1 1) as (b & Hb & Hat); [simpl; lia..|].
    injection Hb as <-. exact Hat.
Defined.

(** ** The connectivity map and moves *)

Lemma bmap_entry_bit (m : Maze) (i j : Z) :
  bmap_entry m i j = 0 \/ bmap_entry m i j = 1.
Proof.
  unfold bmap_entry.
  destruct (i mod 2 =? 0), (j mod 2 =? 0); try (by left); try (by right);
    destruct (default false _); simpl; auto.
Qed.

(** X16: every entry of the array that [make_binary_map] returns for a
    well-formed maze is 0 or 1. *)
Theorem binary_map_bits (m : Maze) :
  wf m ->
  exists g, make_binary_map m = Ok g /\
    forall i j, 0 <= i < 2 * _n_rows m - 1 -> 0 <= j < 2 * _n_cols m - 1 ->
      np_getitem2 g i j = Ok 0 \/ np_getitem2 g i j = Ok 1.
Proof.
  intros Hwf. destruct (make_binary_map_entries m Hwf) as (g & Hg & _ & Hget).
  exists g. split; [exact Hg|]. intros i j Hi Hj.
  rewrite Hget by (unfold bmap_rows, bmap_cols; lia).
  destruct (bmap_entry_bit m i j) as [-> | ->]; auto.
Qed.

Lemma binary_map_bits_witness :
  exists g, make_binary_map (allocate 2 2 (0, 0) None) = Ok g /\
    (np_getitem2 g 1 2 = Ok 0 \/ np_getitem2 g 1 2 = Ok 1).
Proof.
  destruct (binary_map_bits (allocate 2 2 (0, 0) None)) as (g & Hg & Hbits);
    [apply allocate_wf; lia|].
  exists g. split; [exact Hg|]. apply Hbits; simpl; lia.
Defined.

(** X17: the connectivity map tells what [move] does.  When [move] from a
    cell of a well-formed maze returns, the entry of the map half-way
    between the cell and its neighbour in that direction is 1 if [move]
    returned [True] and 0 if it returned [False]. *)
Theorem move_agrees_with_map (m : Maze) (p q : coord) (d : Direction) (b : bool)
  (g : list (list Z)) :
  wf m -> in_grid m p ->
  make_binary_map m = Ok g -> move m p d = Ok (b, q) ->
  np_getitem2 g (p.1 + (neighbor_cell p d).1) (p.2 + (neighbor_cell p d).2)
  = Ok (if b then 1 else 0).
Proof.
  intros Hwf Hp Hg Hmove.
  destruct (make_binary_map_entries m Hwf) as (g' & Hg' & _ & Hget).
  rewrite Hg in Hg'. injection Hg' as <-.
  apply move_ok_inv in Hmove as (i & Hi & Hb & _ & _).
  pose proof (_get_edge_idx_nonneg _ _ _ _ _ Hi) as Hnn.
  apply py_index_ok in Hb; [|done].
  pose proof (_get_edge_idx_ok _ _ _ _ _ Hi) as Hidx.
  destruct p as [r c], Hp as [Hr Hc]. unfold bmap_rows, bmap_cols in Hget.
  destruct d; destruct Hidx as [[Hr' Hc'] ->]; simpl in *.
  - rewrite Hget by lia.
    replace (r + (r - 1)) with (2 * r - 1) by lia.
    replace (c + c) with (2 * c) by lia.
    rewrite bmap_entry_horizontal, Hb. by destruct b.
  - rewrite Hget by lia.
    replace (r + (r + 1)) with (2 * (r + 1) - 1) by lia.
    replace (c + c) with (2 * c) by lia.
    rewrite bmap_entry_horizontal.
    replace (r + 1 - 1) with r by lia. rewrite Hb. by destruct b.
  - rewrite Hget by lia.
    replace (r + r) with (2 * r) by lia.
    replace (c + (c + 1)) with (2 * (c + 1) - 1) by lia.
    rewrite bmap_entry_vertical.
    replace (_n_cols m * r - r + (c + 1) - 1) with (_n_cols m * r - r + c) by lia.
    rewrite Hb. by destruct b.
  - rewrite Hget by lia.
    replace (r + r) with (2 * r) by lia.
    replace (c + (c - 1)) with (2 * c - 1) by lia.
    rewrite bmap_entry_vertical.
    replace (_n_cols m * r - r + c - 1) with (_n_cols m * r - r + (c - 1)) by lia.
    rewrite Hb. by destruct b.
Qed.

Lemma move_agrees_with_map_witness :
  exists g,
    make_binary_map (mkMaze 2 2 (0, 0) (1, 1) [true; true] [true; false]
                       [true; true; true; true]) = Ok g /\
    np_getitem2 g 2 1 = Ok 0.
Proof.
  eexists. split; [vm_compute; reflexivity|].
  apply (move_agrees_with_map
           (mkMaze 2 2 (0, 0) (1, 1) [true; true] [true; false]
              [true; true; true; true]) (1, 0) (1, 0) EAST false).
  - constructor; simpl; lia.
  - unfold in_grid; simpl; lia.
  - vm_compute; reflexivity.
  - vm_compute; reflexivity.
Defined.

(** * The recursive carving engine *)

Lemma deep_bind_some {A B : Type} (x : option (result A))
  (k : A -> option (result B)) (r : result B) :
  deep_bind x k = Some r ->
  (exists e, x = Some (Raise e) /\ r = Raise e) \/
  (exists a, x = Some (Ok a) /\ k a = Some r).
Proof.
  destruct x as [[a|e]|]; simpl; intros H; [right; eauto | left | discriminate].
  injection H as <-. eauto.
Qed.

Lemma carve_inv_pop (m : Maze) (node : coord) (rest : list coord) :
  carve_inv m (node :: rest) ->
  (forall d, in_grid m (neighbor_cell node d) ->
             visited_at m (neighbor_cell node d)) ->
  carve_inv m rest.
Proof.
  intros [Hwf Hstart Hstack Hcount Hedges Hreach Hclosed] Hall.
  constructor; try done.
  - intros p Hp. apply Hstack, elem_of_cons. by right.
  - intros p Hp Hv. destruct (Hclosed p Hp Hv) as [Hs|Hnb]; [|by right].
    apply elem_of_cons in Hs as [->|Hs]; [by right | by left].
Qed.

(** Setting the edge and then marking the neighbour, as the recursive
    engine does across a call, is one carving step. *)
Lemma carved_of_set_edge (m m1 : Maze) (node : coord) (d : Direction) :
  in_grid m node -> in_grid m (neighbor_cell node d) ->
  _visited m !! cell_nat m (neighbor_cell node d) = Some false ->
  _set_edge_at m node.1 node.2 d true = Ok m1 ->
  same_grid m m1 /\ _visited m1 = _visited m /\
  carved m node d
    (with_visited m1
       (<[cell_nat m1 (neighbor_cell node d) := true]> (_visited m1))).
Proof.
  intros Hnode Hnext Hunv Hset.
  apply (_set_edge_at_ok m node) in Hset
    as (Hidx & Hlt & Hedge & Hother & Hrows & Hcols & Hstart & Hgoal & Hv).
  split; [by repeat split|]. split; [assumption|].
  assert (cell_nat m1 (neighbor_cell node d) = cell_nat m (neighbor_cell node d))
    as Hcn by (unfold cell_nat; by rewrite Hcols).
  constructor; simpl; try assumption.
  all: rewrite ?Hcn, ?Hv; try assumption; try reflexivity.
Qed.

Lemma recur_dir_cases
  (recur : coord -> Maze * nat -> option (result (Maze * nat)))
  (node : coord) (d : Direction) (m : Maze) (k : nat) (r : result (Maze * nat)) :
  wf m -> in_grid m node ->
  recur_dir recur node d (m, k) = Some r ->
  (r = Ok (m, k) /\
   (in_grid m (neighbor_cell node d) -> visited_at m (neighbor_cell node d))) \/
  (r = Raise AssertionError /\ 2 <= _n_cols m <= node.1) \/
  (exists m1, in_grid m (neighbor_cell node d) /\
     _visited m !! cell_nat m (neighbor_cell node d) = Some false /\
     _set_edge_at m node.1 node.2 d true = Ok m1 /\
     recur (neighbor_cell node d) (m1, k) = Some r).
Proof.
  intros Hwf Hnode. unfold recur_dir.
  rewrite (_get_cell_at_in_grid m node d Hnode). cbn [deep_bind].
  set (next := neighbor_cell node d).
  destruct ((next.1 <? 0) || (next.1 >=? _n_rows m)) eqn:E1.
  { intros [= <-]. left. split; [done|]. intros [? ?]; lia. }
  destruct ((next.2 <? 0) || (next.2 >=? _n_cols m)) eqn:E2.
  { intros [= <-]. left. split; [done|]. intros [? ?]; lia. }
  assert (in_grid m next) as Hin by (unfold in_grid; lia).
  rewrite (_get_cell_index_in_grid _ _ Hin). cbn [bind].
  pose proof (cell_nat_range m next Hin) as Hrange.
  destruct (lookup_lt_is_Some_2 (_visited m) (cell_nat m next)) as [b Hb];
    [pose proof (wf_visited _ Hwf); lia|].
  rewrite (py_index_lookup _ _ b); [|destruct Hin; nia|exact Hb].
  cbn [deep_bind]. destruct b.
  { intros [= <-]. left. by split. }
  destruct (_set_edge_at_outcome m node d Hwf Hnode Hin) as [[m1 Hm1]|[Hm1 Hbad]].
  - rewrite Hm1. cbn [deep_bind]. intros H. right. right. by exists m1.
  - rewrite Hm1. cbn [deep_bind]. intros [= <-]. right. left. by split.
Qed.

Lemma mark_visited_mono (m : Maze) (node p : coord) :
  (cell_nat m node < length (_visited m))%nat ->
  visited_at m p ->
  visited_at (with_visited m (<[cell_nat m node := true]> (_visited m))) p.
Proof.
  unfold visited_at, cell_nat. simpl. intros Hlt H.
  destruct (decide (Z.to_nat (node.1 * _n_cols m + node.2)
                    = Z.to_nat (p.1 * _n_cols m + p.2))) as [E|E].
  - rewrite <- E. by apply list_lookup_insert_eq.
  - by rewrite list_lookup_insert_ne.
Qed.

Lemma same_grid_trans (m1 m2 m3 : Maze) :
  same_grid m1 m2 -> same_grid m2 m3 -> same_grid m1 m3.
Proof.
  intros (? & ? & ? & ?) (? & ? & ? & ?). repeat split; congruence.
Qed.

Lemma same_grid_in_grid (m m' : Maze) (p : coord) :
  same_grid m m' -> in_grid m' p <-> in_grid m p.
Proof. intros (Hr & Hc & _). unfold in_grid. by rewrite Hr, Hc. Qed.

Lemma same_grid_cell_nat (m m' : Maze) (p : coord) :
  same_grid m m' -> cell_nat m' p = cell_nat m p.
Proof. intros (_ & Hc & _). unfold cell_nat. by rewrite Hc. Qed.

Section Recursive.
Variable shuffle : nat -> list Direction.
Hypothesis Hall : forall k d, d ∈ shuffle k.

(** What a call of [_carve_path_recur] on an unvisited cell [node] leaves,
    when the cells of the calls around it are [anc]. *)
Lemma _carve_path_recur_post (depth : nat) :
  forall (node : coord) (anc : list coord) (m : Maze) (k : nat)
         (r : result (Maze * nat)),
    in_grid m node ->
    _visited m !! cell_nat m node = Some false ->
    carve_inv (with_visited m (<[cell_nat m node := true]> (_visited m)))
      (node :: anc) ->
    _carve_path_recur shuffle depth node (m, k) = Some r ->
    match r with
    | Ok (m', k') =>
        carve_inv m' anc /\ same_grid m m' /\ visited_at m' node /\
        (forall p, visited_at m p -> visited_at m' p) /\
        (k < k')%nat /\
        (k' + count_true (_visited m) = k + count_true (_visited m'))%nat
    | Raise e => e = AssertionError /\ 2 <= _n_cols m < _n_rows m
    end.
Proof.
  induction depth as [|depth IH]; intros node anc m k r Hnode Hunv Hinv H;
    [discriminate|].
  cbn [_carve_path_recur] in H.
  pose proof (lookup_lt_Some _ _ _ Hunv) as Hlt.
  rewrite (_get_cell_index_in_grid m node Hnode) in H. cbn [bind] in H.
  rewrite py_setitem_in_range in H
    by (pose proof (cell_nat_range m node Hnode); destruct Hnode;
        unfold cell_nat in *; nia).
  cbn [bind deep_bind] in H. fold (cell_nat m node) in H.
  set (m1 := with_visited m (<[cell_nat m node := true]> (_visited m))) in *.
  (* the loop over the directions *)
  assert (forall ds mi ki ri,
            carve_inv mi (node :: anc) ->
            for_each_deep ds (recur_dir (_carve_path_recur shuffle depth) node)
              (mi, ki) = Some ri ->
            match ri with
            | Ok (m', k') =>
                carve_inv m' (node :: anc) /\ same_grid mi m' /\
                (forall p, visited_at mi p -> visited_at m' p) /\
                (ki <= k')%nat /\
                (k' + count_true (_visited mi) = ki + count_true (_visited m'))%nat /\
                (forall d, d ∈ ds -> in_grid mi (neighbor_cell node d) ->
                           visited_at m' (neighbor_cell node d))
            | Raise e => e = AssertionError /\ 2 <= _n_cols mi < _n_rows mi
            end) as Hloop.
  { induction ds as [|d ds IHds]; intros mi ki ri Hi Hri; cbn [for_each_deep] in Hri.
    - injection Hri as <-. split; [done|]. split; [by repeat split|].
      split; [done|]. split; [done|]. split; [done|].
      intros d Hd. by apply elem_of_nil in Hd.
    - destruct (inv_stack _ _ Hi node ltac:(apply elem_of_cons; by left))
        as [Hni Hnv].
      pose proof (inv_wf _ _ Hi) as Hwfi.
      apply deep_bind_some in Hri as [(e & Hd & ->)|([m2 k2] & Hd & Hrest)].
      + (* this direction raises *)
        apply recur_dir_cases in Hd as [[? _]|[[[= ->] Hbad]|Hcall]];
          [discriminate | | | done | done].
        * split; [reflexivity|]. destruct Hni. lia.
        * destruct Hcall as (ma & Hin & Hunvn & Hset & Hcall).
          destruct (carved_of_set_edge mi ma node d Hni Hin Hunvn Hset)
            as (Hsg & Hv & Hcv).
          apply IH with (anc := node :: anc) in Hcall.
          -- destruct Hcall as [-> Hbad]. split; [reflexivity|].
             destruct Hsg as (Hr & Hc & _). lia.
          -- by apply (same_grid_in_grid mi ma).
          -- rewrite (same_grid_cell_nat mi ma), Hv by done. exact Hunvn.
          -- by apply (carve_inv_carved mi _ node d).
      + (* this direction returns; the loop goes on from (m2, k2) *)
        apply recur_dir_cases in Hd as [[[= -> ->] Hskip]|[[? _]|Hcall]];
          [ | discriminate | | done | done].
        * specialize (IHds mi ki ri Hi Hrest).
          destruct ri as [[m' k']|e]; [|exact IHds].
          destruct IHds as (Hi' & Hsg' & Hmono & Hk & Hcnt & Hnb).
          repeat (split; [assumption|]).
          intros d' Hd' Hin'. apply elem_of_cons in Hd' as [->|Hd'].
          -- by apply Hmono, Hskip.
          -- by apply Hnb.
        * destruct Hcall as (ma & Hin & Hunvn & Hset & Hcall).
          destruct (carved_of_set_edge mi ma node d Hni Hin Hunvn Hset)
            as (Hsg & Hv & Hcv).
          pose proof (carve_inv_carved mi _ node d _ Hi Hnv Hcv) as Hia.
          apply IH with (anc := node :: anc) in Hcall.
          2:{ by apply (same_grid_in_grid mi ma). }
          2:{ rewrite (same_grid_cell_nat mi ma), Hv by done. exact Hunvn. }
          2:{ exact Hia. }
          destruct Hcall as (Hi2 & Hsg2 & Hnv2 & Hmono2 & Hk2 & Hcnt2).
          pose proof (same_grid_trans _ _ _ Hsg Hsg2) as Hsg12.
          assert (forall p, visited_at mi p -> visited_at m2 p) as Hmono12.
          { intros p Hp. apply Hmono2. unfold visited_at.
            rewrite (same_grid_cell_nat mi ma), Hv by done. exact Hp. }
          specialize (IHds m2 k2 ri Hi2 Hrest).
          destruct ri as [[m' k']|e].
          -- destruct IHds as (Hi' & Hsg' & Hmono & Hk & Hcnt & Hnb).
             split; [assumption|].
             split; [by apply (same_grid_trans _ m2)|].
             split; [intros p Hp; by apply Hmono, Hmono12|].
             split; [lia|].
             split; [rewrite Hv in Hcnt2; lia|].
             intros d' Hd' Hin'. apply elem_of_cons in Hd' as [->|Hd'].
             ++ by apply Hmono.
             ++ apply Hnb; [done|]. by apply (same_grid_in_grid mi m2).
          -- destruct IHds as [-> Hbad]. split; [reflexivity|].
             destruct Hsg12 as (Hr & Hc & _). lia. }
  specialize (Hloop (shuffle k) m1 (S k) r Hinv H).
  destruct r as [[m' k']|e]; [|exact Hloop].
  destruct Hloop as (Hi' & Hsg' & Hmono & Hk & Hcnt & Hnb).
  split.
  { apply (carve_inv_pop m' node anc Hi'). intros d Hin.
    apply Hnb; [apply Hall|]. by apply (same_grid_in_grid m1 m'). }
  split; [exact Hsg'|].
  split.
  { apply Hmono. unfold visited_at. simpl. by apply list_lookup_insert_eq. }
  split; [intros p Hp; by apply Hmono, mark_visited_mono|].
  split; [lia|].
  simpl in Hcnt. rewrite (count_true_insert _ _ Hunv) in Hcnt. lia.
Qed.

Lemma recur_dir_halts
  (recur : coord -> Maze * nat -> option (result (Maze * nat)))
  (node : coord) (d : Direction) (m : Maze) (k : nat) :
  wf m -> in_grid m node ->
  (forall m1, in_grid m (neighbor_cell node d) ->
     _visited m !! cell_nat m (neighbor_cell node d) = Some false ->
     _set_edge_at m node.1 node.2 d true = Ok m1 ->
     exists r, recur (neighbor_cell node d) (m1, k) = Some r) ->
  exists r, recur_dir recur node d (m, k) = Some r.
Proof.
  intros Hwf Hnode Hrec. unfold recur_dir.
  rewrite (_get_cell_at_in_grid m node d Hnode). cbn [deep_bind].
  set (next := neighbor_cell node d) in *.
  destruct ((next.1 <? 0) || (next.1 >=? _n_rows m)) eqn:E1; [eauto|].
  destruct ((next.2 <? 0) || (next.2 >=? _n_cols m)) eqn:E2; [eauto|].
  assert (in_grid m next) as Hin by (unfold in_grid; lia).
  rewrite (_get_cell_index_in_grid _ _ Hin). cbn [bind].
  pose proof (cell_nat_range m next Hin) as Hrange.
  destruct (lookup_lt_is_Some_2 (_visited m) (cell_nat m next)) as [b Hb];
    [pose proof (wf_visited _ Hwf); lia|].
  rewrite (py_index_lookup _ _ b); [|destruct Hin; nia|exact Hb].
  cbn [deep_bind]. destruct b; [eauto|].
  destruct (_set_edge_at_outcome m node d Hwf Hnode Hin) as [[m1 Hm1]|[Hm1 _]].
  - rewrite Hm1. cbn [deep_bind]. by apply Hrec.
  - rewrite Hm1. cbn [deep_bind]. eauto.
Qed.

(** A call on an unvisited cell comes back when the depth allowed is at
    least the number of cells not visited yet. *)
Lemma _carve_path_recur_halts (depth : nat) :
  forall (node : coord) (anc : list coord) (m : Maze) (k : nat),
    in_grid m node ->
    _visited m !! cell_nat m node = Some false ->
    carve_inv (with_visited m (<[cell_nat m node := true]> (_visited m)))
      (node :: anc) ->
    (length (_visited m) - count_true (_visited m) <= depth)%nat ->
    exists r, _carve_path_recur shuffle depth node (m, k) = Some r.
Proof.
  induction depth as [|depth IH]; intros node anc m k Hnode Hunv Hinv Hu.
  { pose proof (count_true_le_length (<[cell_nat m node := true]> (_visited m)))
      as Hle.
    rewrite length_insert, (count_true_insert _ _ Hunv) in Hle. lia. }
  cbn [_carve_path_recur].
  pose proof (lookup_lt_Some _ _ _ Hunv) as Hlt.
  rewrite (_get_cell_index_in_grid m node Hnode). cbn [bind].
  rewrite py_setitem_in_range
    by (pose proof (cell_nat_range m node Hnode); destruct Hnode;
        unfold cell_nat in *; nia).
  cbn [bind deep_bind]. fold (cell_nat m node).
  set (m1 := with_visited m (<[cell_nat m node := true]> (_visited m))) in *.
  assert (length (_visited m1) - count_true (_visited m1) <= depth)%nat as Hu1.
  { simpl. rewrite length_insert, (count_true_insert _ _ Hunv). lia. }
  assert (forall ds mi ki,
            carve_inv mi (node :: anc) ->
            (length (_visited mi) - count_true (_visited mi) <= depth)%nat ->
            exists r,
              for_each_deep ds (recur_dir (_carve_path_recur shuffle depth) node)
                (mi, ki) = Some r) as Hloop; [|by apply Hloop].
  induction ds as [|d ds IHds]; intros mi ki Hi Hui;
    cbn [for_each_deep]; [eauto|].
  destruct (inv_stack _ _ Hi node ltac:(apply elem_of_cons; by left))
    as [Hni Hnv].
  pose proof (inv_wf _ _ Hi) as Hwfi.
  destruct (recur_dir_halts (_carve_path_recur shuffle depth) node d mi ki
              Hwfi Hni) as [rd Hd].
  { intros ma Hin Hunvn Hset.
    destruct (carved_of_set_edge mi ma node d Hni Hin Hunvn Hset)
      as (Hsg & Hv & Hcv).
    apply (IH _ (node :: anc)).
    - by apply (same_grid_in_grid mi ma).
    - rewrite (same_grid_cell_nat mi ma), Hv by done. exact Hunvn.
    - by apply (carve_inv_carved mi _ node d).
    - by rewrite Hv. }
  rewrite Hd. destruct rd as [[m2 k2]|e]; cbn [deep_bind]; [|eauto].
  apply recur_dir_cases in Hd as [[[= -> ->] _]|[[? _]|Hcall]];
    [by apply IHds | discriminate | | done | done].
  destruct Hcall as (ma & Hin & Hunvn & Hset & Hcall).
  destruct (carved_of_set_edge mi ma node d Hni Hin Hunvn Hset)
    as (Hsg & Hv & Hcv).
  apply _carve_path_recur_post with (anc := node :: anc) in Hcall.
  2:{ by apply (same_grid_in_grid mi ma). }
  2:{ rewrite (same_grid_cell_nat mi ma), Hv by done. exact Hunvn. }
  2:{ by apply (carve_inv_carved mi _ node d). }
  destruct Hcall as (Hi2 & Hsg2 & _ & _ & Hk2 & Hcnt2).
  apply IHds; [exact Hi2|].
  pose proof (wf_visited _ (inv_wf _ _ Hi2)) as Hl2.
  pose proof (wf_visited _ Hwfi) as Hli.
  destruct (same_grid_trans _ _ _ Hsg Hsg2) as (Hr & Hc & _).
  rewrite Hv in Hcnt2. rewrite Hr, Hc in Hl2.
  assert (length (_visited m2) = length (_visited mi)) by lia. lia.
Qed.
End Recursive.

Lemma allocate_unvisited (n_rows n_cols : Z) (sp : coord) (gp : option coord) :
  in_grid (allocate n_rows n_cols sp gp) sp ->
  _visited (allocate n_rows n_cols sp gp)
    !! cell_nat (allocate n_rows n_cols sp gp) sp = Some false.
Proof.
  intros Hin. pose proof (cell_nat_range _ sp Hin) as Hrange. simpl in *.
  apply lookup_replicate. split; [done | lia].
Qed.

(** X18: when the recursive engine, called on the start cell of a freshly
    allocated maze with a fair generator, returns, it has carved a
    spanning tree, as the iterative engine does: [n_rows * n_cols - 1]
    passages, every cell visited and reached from the start by successful
    moves; and it has shuffled once for each cell. *)
Theorem recursive_carving_spanning_tree (shuffle : nat -> list Direction)
  (depth : nat) (n_rows n_cols : Z) (start_pos : coord)
  (goal_pos : option coord) (m : Maze) (k : nat) :
  fair shuffle ->
  _carve_path_recur shuffle depth start_pos
    (allocate n_rows n_cols start_pos goal_pos, 0%nat) = Some (Ok (m, k)) ->
  Z.of_nat (passages m) = n_rows * n_cols - 1 /\
  (forall p, 0 <= p.1 < n_rows /\ 0 <= p.2 < n_cols ->
     visited_at m p /\ reachable m start_pos p) /\
  Z.of_nat k = n_rows * n_cols.
Proof.
  intros Hfair H.
  destruct (decide (0 <= start_pos.1 < n_rows /\ 0 <= start_pos.2 < n_cols))
    as [Hin|Hout].
  2:{ destruct depth; [discriminate|]. cbn [_carve_path_recur] in H.
      rewrite _get_cell_index_outside in H by exact Hout. discriminate. }
  destruct (carve_inv_start n_rows n_cols start_pos goal_pos Hin) as [Hinv0 _].
  pose proof (allocate_unvisited n_rows n_cols start_pos goal_pos Hin) as Hunv.
  apply (_carve_path_recur_post shuffle (fair_all _ Hfair)) with (anc := [])
    in H; [|exact Hin|exact Hunv|exact Hinv0].
  destruct H as (Hinv & (Hr & Hc & Hs & _) & _ & _ & _ & Hcnt). simpl in Hr, Hc, Hs, Hcnt.
  rewrite count_true_replicate_false in Hcnt.
  pose proof (carve_inv_passages m Hinv) as Hp. rewrite Hr, Hc in Hp.
  pose proof (inv_count _ _ Hinv) as Hcount.
  split; [exact Hp|]. split; [|lia].
  intros p Hp'.
  assert (in_grid m p) as Hpin by (unfold in_grid; by rewrite Hr, Hc).
  pose proof (carve_inv_all_visited m Hinv p Hpin) as Hv.
  split; [exact Hv|]. rewrite <- Hs. by apply (inv_reach _ _ Hinv).
Qed.

Lemma recursive_carving_spanning_tree_witness :
  exists m k,
    _carve_path_recur shuffle_south_first 9 (0, 0)
      (allocate 3 3 (0, 0) None, 0%nat) = Some (Ok (m, k)) /\
    Z.of_nat (passages m) = 3 * 3 - 1 /\ Z.of_nat k = 3 * 3.
Proof.
  eexists. eexists. split; [vm_compute; reflexivity|].
  match goal with
  | |- Z.of_nat (passages ?m) = _ /\ Z.of_nat ?k = _ =>
      destruct (recursive_carving_spanning_tree shuffle_south_first 9 3 3
                  (0, 0) None m k fair_south_first) as (Hp & _ & Hk);
        [vm_compute; reflexivity|]
  end.
  split; [exact Hp | exact Hk].
Defined.

(** X19: when the depth of recursion allowed is at least the number of
    cells, the recursive engine, called on a start cell in the grid with a
    fair generator, always comes back; it raises only [AssertionError], and
    only on a grid with at least two columns and more rows than columns, so
    it returns a maze on every grid of one column or of no more rows than
    columns. *)
Theorem recursive_carving_outcome (shuffle : nat -> list Direction)
  (depth : nat) (n_rows n_cols : Z) (start_pos : coord)
  (goal_pos : option coord) :
  fair shuffle ->
  0 <= start_pos.1 < n_rows /\ 0 <= start_pos.2 < n_cols ->
  n_rows * n_cols <= Z.of_nat depth ->
  exists r,
    _carve_path_recur shuffle depth start_pos
      (allocate n_rows n_cols start_pos goal_pos, 0%nat) = Some r /\
    (forall e, r = Raise e -> e = AssertionError /\ 2 <= n_cols < n_rows) /\
    (n_cols = 1 \/ n_rows <= n_cols -> exists m k, r = Ok (m, k)).
Proof.
  intros Hfair Hin Hdepth.
  destruct (carve_inv_start n_rows n_cols start_pos goal_pos Hin) as [Hinv0 _].
  pose proof (allocate_unvisited n_rows n_cols start_pos goal_pos Hin) as Hunv.
  destruct (_carve_path_recur_halts shuffle (fair_all _ Hfair) depth start_pos []
              (allocate n_rows n_cols start_pos goal_pos) 0%nat Hin Hunv Hinv0)
    as [r Hr].
  { simpl. rewrite length_replicate, count_true_replicate_false. lia. }
  exists r. split; [exact Hr|].
  apply (_carve_path_recur_post shuffle (fair_all _ Hfair)) with (anc := [])
    in Hr; [|exact Hin|exact Hunv|exact Hinv0].
  destruct r as [[m k]|e].
  - split; [discriminate | eauto].
  - destruct Hr as [-> Hbad]. simpl in Hbad. split.
    + intros e [= <-]. by split.
    + intros Hshape. lia.
Qed.

Lemma recursive_carving_outcome_witness :
  exists m k,
    _carve_path_recur shuffle_south_first 12 (1, 1)
      (allocate 3 4 (1, 1) None, 0%nat) = Some (Ok (m, k)).
Proof.
  destruct (recursive_carving_outcome shuffle_south_first 12 3 4 (1, 1) None
              fair_south_first) as (r & Hr & _ & Hok); [simpl; lia..|].
  destruct Hok as (m & k & ->); [lia|]. eauto.
Defined.
